(** * LR table construction and the scoped symbol table of [parser/table.go]

    A shallow embedding of [src/parser/table.go], and of the sets of
    [src/utils/collections/set.go]:

    - Go's [int] is a 64-bit two's complement integer; it is modelled by [Z]
      with the wrap-around of [+] and [*] written out ([GoInt]).
    - Go maps, slices' elements reached through pointers, [*Scope] and
      [*SymbolTableItem] are reference types.  They live in explicit heaps
      (lists indexed by address, allocation appends), so that aliasing
      between a table and its [Copy], between [CurrentScope], [Parent] and
      [LegacyScopes], and between a registered item and the caller's
      pointer is what the code has.
    - [fmt.Errorf] builds an error from a format string and its arguments;
      an error value is kept as exactly that pair.
    - A run-time panic (nil dereference, index out of range) is the result
      [Fault]; the only loop that is not a [range] over a slice (the parent
      walk of [Lookup]) runs on fuel and reports [Timeout] when it is
      exhausted. *)

From Stdlib Require Import ZArith Lia.
From stdpp Require Import gmap strings list fin_maps.

Local Open Scope Z_scope.

(** ** Go's [int] *)

Module GoInt.

Definition int_min : Z := - 2 ^ 63.
Definition int_max : Z := 2 ^ 63 - 1.

Definition in_range (z : Z) : Prop := int_min <= z <= int_max.

(** Two's complement wrap-around of a mathematical result. *)
Definition wrap (z : Z) : Z := (z + 2 ^ 63) mod 2 ^ 64 - 2 ^ 63.

Definition add (a b : Z) : Z := wrap (a + b).
Definition mul (a b : Z) : Z := wrap (a * b).
(** Go's [/] truncates toward zero. *)
Definition div (a b : Z) : Z := wrap (Z.quot a b).

End GoInt.

(** ** Errors and results *)

Inductive fmt_arg :=
  | ArgInt (n : Z)
  | ArgStr (s : string).

(** The value of [fmt.Errorf(format, args...)]. *)
Inductive error :=
  | Errorf (format : string) (args : list fmt_arg).

#[global] Instance fmt_arg_eq_dec : EqDecision fmt_arg.
Proof. solve_decision. Defined.
#[global] Instance error_eq_dec : EqDecision error.
Proof. solve_decision. Defined.

Inductive res (A : Type) :=
  | Ret (a : A)
  | Fault
  | Timeout.
Arguments Ret {A} a.
Arguments Fault {A}.
Arguments Timeout {A}.

Definition res_bind {A B} (m : res A) (k : A -> res B) : res B :=
  match m with
  | Ret a => k a
  | Fault => Fault
  | Timeout => Timeout
  end.

Definition of_option {A} (o : option A) : res A :=
  match o with
  | Some a => Ret a
  | None => Fault
  end.

#[global] Instance res_mbind : MBind res := fun A B k m => res_bind m k.
#[global] Instance res_mret : MRet res := fun A a => Ret a.

(** ** Go maps of maps on a heap

    [map[int]map[K]V] is a reference to a top-level map whose values are
    references to rows.  [tops] holds the top-level maps and [rows] the rows;
    a table value is an address in [tops]. *)

Section GoMap.
Context {K : Type} `{Countable K} {V : Type}.

Record heap := Heap {
  tops : list (gmap Z nat);
  rows : list (gmap K V)
}.

Definition top_of (h : heap) (t : nat) : gmap Z nat := default ∅ (tops h !! t).
Definition row_of (h : heap) (p : nat) : gmap K V := default ∅ (rows h !! p).

(** [t[s]]: the row reference, [None] for nil. *)
Definition get_row (h : heap) (t : nat) (s : Z) : option nat := top_of h t !! s.

(** [v, exists := t[s][k]]; reading a nil row finds nothing. *)
Definition get (h : heap) (t : nat) (s : Z) (k : K) : option V :=
  match get_row h t s with
  | Some p => row_of h p !! k
  | None => None
  end.

(** [make(map[int]map[K]V)] *)
Definition make_top (h : heap) : heap * nat :=
  (Heap (tops h ++ [∅]) (rows h), length (tops h)).

(** [t[s] = make(map[K]V)] *)
Definition make_row (h : heap) (t : nat) (s : Z) : heap :=
  Heap (<[t := <[s := length (rows h)]> (top_of h t)]> (tops h)) (rows h ++ [∅]).

(** [if t[s] == nil { t[s] = make(map[K]V) }] *)
Definition ensure_row (h : heap) (t : nat) (s : Z) : heap :=
  match get_row h t s with
  | None => make_row h t s
  | Some _ => h
  end.

(** [t[s][k] = v].  Go panics when [t[s]] is nil; every caller in this file
    has made [t[s]] non-nil before it stores. *)
Definition set (h : heap) (t : nat) (s : Z) (k : K) (v : V) : heap :=
  match get_row h t s with
  | Some p => Heap (tops h) (<[p := <[k := v]> (row_of h p)]> (rows h))
  | None => h
  end.

(** [delete(t, s)] *)
Definition delete_row (h : heap) (t : nat) (s : Z) : heap :=
  Heap (<[t := delete s (top_of h t)]> (tops h)) (rows h).

(** [maps.Clone(t)]: a new top-level map with the same key/value pairs;
    the values are row references, which are copied as references. *)
Definition Clone (h : heap) (t : nat) : heap * nat :=
  (Heap (tops h ++ [top_of h t]) (rows h), length (tops h)).

(** A table reachable through the functions of this file: its address is
    allocated, its row references are allocated, and no row is shared by
    two states of the same table. *)
Definition wf_table (h : heap) (t : nat) : Prop :=
  (t < length (tops h))%nat /\
  (forall s p, get_row h t s = Some p -> (p < length (rows h))%nat) /\
  (forall s1 s2 p, get_row h t s1 = Some p -> get_row h t s2 = Some p -> s1 = s2).

End GoMap.
Arguments heap K {_ _} V.

(** ** Grammar, items and states

    [Symbol], [Terminal], [Production], [Item], [State] and [Grammar] are
    declared elsewhere in the package; [table.go] uses them through the
    operations below. *)

(** Modelled from the spec: the declarations of [Symbol] and [Terminal] are
    missing.  A grammar symbol is a string-like value, printed with [%s]
    and used as a map key; [Terminal(symbol)] converts between the two types
    without changing the value. *)
Definition Symbol : Type := string.
Definition Terminal : Type := string.

(** Modelled from the spec: the declaration of [Production] is missing.  A
    production is a left-hand non-terminal and an ordered body. *)
Record Production := {
  Production_Head : Symbol;
  Production_Body : list Symbol
}.

#[global] Instance Production_eq_dec : EqDecision Production.
Proof. solve_decision. Defined.

(** Modelled from the spec: [Production.Equals] is missing; productions are
    compared by structural equality (left-hand side and body). *)
Definition Production_Equals (p q : Production) : bool := bool_decide (p = q).

(** Modelled from the spec: the declaration of [Item] is missing. *)
Record Item := {
  Item_Production : Production;
  Item_Dot : Z;
  Item_Lookahead : Terminal
}.

(** Modelled from the spec: the declaration of [State] is missing.
    [Transitions] is [map[Symbol]*State]; [Insert] reads nothing but the
    [Index] of the successor, so a transition is kept as that index, and a
    missing key is the nil pointer (dereferencing it panics).  [Items] is
    listed in the order in which [range] visits it. *)
Record State := {
  State_Index : Z;
  State_Items : list Item;
  State_Transitions : gmap Symbol Z
}.

(** The same state with another item list. *)
Definition with_items (state : State) (its : list Item) : State :=
  {| State_Index := State_Index state; State_Items := its;
     State_Transitions := State_Transitions state |}.

(** Modelled from the spec: the declaration of [Grammar] is missing.
    [GetIndex] fails loudly (panics) on a production that the grammar does
    not hold: [None]. *)
Record Grammar := {
  IsNonTerminal : Symbol -> bool;
  GetIndex : Production -> option Z;
  AugmentedProduction : Production
}.

(** ** ACTION and GOTO tables *)

Definition ActionType : Type := string.

Definition SHIFT : ActionType := "shift"%string.
Definition REDUCE : ActionType := "reduce"%string.
Definition ACCEPT : ActionType := "accept"%string.
Definition ERROR : ActionType := "error"%string.
Definition GOTO : ActionType := "goto"%string.

Record Action := {
  Action_Type : ActionType;
  Action_Number : Z
}.

#[global] Instance Action_eq_dec : EqDecision Action.
Proof. solve_decision. Defined.

(** [type ActionTable map[int]map[Terminal]Action] and
    [type GotoTable map[int]map[Symbol]int]: addresses of top-level maps in
    their heaps. *)
Abbreviation ActionHeap := (heap string Action).
Abbreviation GotoHeap := (heap string Z).

Definition ActionTable_Copy (h : ActionHeap) (t : nat) : ActionHeap * nat := Clone h t.

Definition ActionTable_Register (h : ActionHeap) (t : nat)
    (stateIndex : Z) (action : Action) (terminal : Terminal) : ActionHeap * option error :=
  let h1 := ensure_row h t stateIndex in
  match get h1 t stateIndex terminal with
  | Some cur =>
      if bool_decide (Action_Type cur = SHIFT) && bool_decide (Action_Type action = REDUCE) then
        (h1, Some (Errorf "conflict in action table: state %d, terminal %s[shift] %d, [reduce] %d"
                     [ArgInt stateIndex; ArgStr terminal;
                      ArgInt (Action_Number cur); ArgInt (Action_Number action)]))
      else if bool_decide (Action_Type cur = REDUCE) && bool_decide (Action_Type action = REDUCE) then
        (h1, Some (Errorf "conflict in action table: state %d, terminal %s[reduce] %d, [reduce] %d"
                     [ArgInt stateIndex; ArgStr terminal;
                      ArgInt (Action_Number cur); ArgInt (Action_Number action)]))
      else (set h1 t stateIndex terminal action, None)
  | None => (set h1 t stateIndex terminal action, None)
  end.

Definition GotoTable_Copy (h : GotoHeap) (t : nat) : GotoHeap * nat := Clone h t.

Definition GotoTable_Register (h : GotoHeap) (t : nat)
    (stateIndex nextStateIndex : Z) (symbol : Symbol) : GotoHeap * option error :=
  let h1 := ensure_row h t stateIndex in
  (set h1 t stateIndex symbol nextStateIndex, None).

Record LRTable := {
  ActionTable : nat;
  GotoTable : nat
}.

(** The memory the two tables live in. *)
Record LRHeap := {
  aheap : ActionHeap;
  gheap : GotoHeap
}.

Section LRInsert.
(** [Symbol.IsEpsilon] and the constant [TERMINATE] are declared elsewhere
    in the package. *)
Variable IsEpsilon : Symbol -> bool.
Variable TERMINATE : Terminal.

(** [body[i]] of a slice: out of range panics. *)
Definition index_body (body : list Symbol) (i : Z) : res Symbol :=
  if bool_decide (0 <= i) then of_option (body !! Z.to_nat i) else Fault.

(** The condition of line 29, with the short circuit of [||]. *)
Definition item_completed (item : Item) : res bool :=
  let body := Production_Body (Item_Production item) in
  if bool_decide (Item_Dot item = Z.of_nat (length body)) then Ret true
  else sym ← index_body body (Item_Dot item); Ret (IsEpsilon sym).

(** The condition of line 30. *)
Definition accept_condition (grammar : Grammar) (item : Item) : bool :=
  bool_decide (Item_Lookahead item = TERMINATE)
  && Production_Equals (Item_Production item) (AugmentedProduction grammar).

(** One iteration of the loop of [LRTable.Insert]: the heap after it and
    the value of [err] after it ([err0] before it). *)
Definition Insert_item (state : State) (grammar : Grammar) (t : LRTable)
    (h : LRHeap) (err0 : option error) (item : Item) : res (LRHeap * option error) :=
  completed ← item_completed item;
  if completed : bool then
    if accept_condition grammar item then
      let '(ha, err) := ActionTable_Register (aheap h) (ActionTable t) (State_Index state)
                          {| Action_Type := ACCEPT; Action_Number := 0 |} TERMINATE in
      Ret ({| aheap := ha; gheap := gheap h |}, err)
    else
      n ← of_option (GetIndex grammar (Item_Production item));
      let '(ha, err) := ActionTable_Register (aheap h) (ActionTable t) (State_Index state)
                          {| Action_Type := REDUCE; Action_Number := n |} (Item_Lookahead item) in
      Ret ({| aheap := ha; gheap := gheap h |}, err)
  else
    symbol ← index_body (Production_Body (Item_Production item)) (Item_Dot item);
    if IsEpsilon symbol then Ret (h, err0)
    else if IsNonTerminal grammar symbol then
      next ← of_option (State_Transitions state !! symbol);
      let '(hg, err) := GotoTable_Register (gheap h) (GotoTable t) (State_Index state) next symbol in
      Ret ({| aheap := aheap h; gheap := hg |}, err)
    else
      next ← of_option (State_Transitions state !! symbol);
      let '(ha, err) := ActionTable_Register (aheap h) (ActionTable t) (State_Index state)
                          {| Action_Type := SHIFT; Action_Number := next |} symbol in
      Ret ({| aheap := ha; gheap := gheap h |}, err).

Fixpoint Insert_loop (state : State) (grammar : Grammar) (t : LRTable)
    (h : LRHeap) (err : option error) (items : list Item) : res (LRHeap * option error) :=
  match items with
  | [] => Ret (h, err)
  | item :: rest =>
      '(h1, err1) ← Insert_item state grammar t h err item;
      (* if err != nil { } : the body is empty *)
      Insert_loop state grammar t h1 err1 rest
  end.

(** [func (t LRTable) Insert(state *State, grammar *Grammar)]: no result;
    what the caller sees is the memory. *)
Definition Insert (t : LRTable) (h : LRHeap) (state : State) (grammar : Grammar) : res LRHeap :=
  '(h1, _) ← Insert_loop state grammar t h None (State_Items state); Ret h1.

Fixpoint Insert_states (t : LRTable) (h : LRHeap) (grammar : Grammar)
    (states : list State) : res LRHeap :=
  match states with
  | [] => Ret h
  | state :: rest => h1 ← Insert t h state grammar; Insert_states t h1 grammar rest
  end.

(** [Parser.BuildTable], from the point where [EnsureStates] has filled
    [p.States]: the new [p.Table] and the memory. *)
Definition BuildTable (h : LRHeap) (states : list State) (grammar : Grammar)
    : res (LRHeap * LRTable) :=
  let '(ha, at_) := make_top (aheap h) in
  let '(hg, gt_) := make_top (gheap h) in
  let t := {| ActionTable := at_; GotoTable := gt_ |} in
  h1 ← Insert_states t {| aheap := ha; gheap := hg |} grammar states;
  Ret (h1, t).

End LRInsert.

(** ** The symbol table *)

Definition SymbolTableItemType : Type := string.

Definition SymbolTableItemTypeVariable : SymbolTableItemType := "variable"%string.
Definition SymbolTableItemTypeArray : SymbolTableItemType := "array"%string.
Definition SymbolTableItemTypeConstant : SymbolTableItemType := "constant"%string.
Definition SymbolTableItemTypeUnknown : SymbolTableItemType := "unknown"%string.

(** The fields [Variable] and [Type] are prefixed: both words are reserved. *)
Record SymbolTableItem := {
  Item_Variable : string;
  Item_Type : SymbolTableItemType;
  Address : Z;
  UnderlyingType : string;
  VariableSize : Z;
  ArraySize : Z;
  Line : Z;
  Pos : Z
}.

Definition set_Address (a : Z) (it : SymbolTableItem) : SymbolTableItem :=
  {| Item_Variable := Item_Variable it; Item_Type := Item_Type it; Address := a;
     UnderlyingType := UnderlyingType it; VariableSize := VariableSize it;
     ArraySize := ArraySize it; Line := Line it; Pos := Pos it |}.

(** [Items] maps a name to a [*SymbolTableItem]; [Parent] is a [*Scope],
    [None] for nil. *)
Record Scope := {
  ID : Z;
  Level : Z;
  Items : gmap string nat;
  Parent : option nat
}.

Definition set_Items (m : gmap string nat) (sc : Scope) : Scope :=
  {| ID := ID sc; Level := Level sc; Items := m; Parent := Parent sc |}.

(** The memory the table's pointers point into: every [Scope] allocated so
    far and every [SymbolTableItem] of the caller, by address. *)
Record Store := {
  scopes : list Scope;
  items : list SymbolTableItem
}.

(** A hook is a [func(s *Scope) error]: it is handed the scope's address and
    may read the memory; [None] is the nil error. *)
Definition Hook : Type := Store -> nat -> option error.

Record SymbolTable := {
  LegacyScopes : list nat;
  CurrentScope : option nat;
  EnterFunction : option Hook;
  ExitFunction : option Hook;
  addrCounter : Z;
  st_constantAddr : Z
}.

Definition initialAddr : Z := 0x10000000.
Definition constantAddr : Z := 0x20000000.

Definition set_CurrentScope (c : option nat) (st : SymbolTable) : SymbolTable :=
  {| LegacyScopes := LegacyScopes st; CurrentScope := c;
     EnterFunction := EnterFunction st; ExitFunction := ExitFunction st;
     addrCounter := addrCounter st; st_constantAddr := st_constantAddr st |}.

Definition set_LegacyScopes (l : list nat) (st : SymbolTable) : SymbolTable :=
  {| LegacyScopes := l; CurrentScope := CurrentScope st;
     EnterFunction := EnterFunction st; ExitFunction := ExitFunction st;
     addrCounter := addrCounter st; st_constantAddr := st_constantAddr st |}.

Definition set_addrCounter (a : Z) (st : SymbolTable) : SymbolTable :=
  {| LegacyScopes := LegacyScopes st; CurrentScope := CurrentScope st;
     EnterFunction := EnterFunction st; ExitFunction := ExitFunction st;
     addrCounter := a; st_constantAddr := st_constantAddr st |}.

Definition NewSymbolTable (enter exit : option Hook) : SymbolTable :=
  {| LegacyScopes := []; CurrentScope := None;
     EnterFunction := enter; ExitFunction := exit;
     addrCounter := initialAddr; st_constantAddr := constantAddr |}.

(** [*p] for a [*Scope] and a [*SymbolTableItem]. *)
Definition load_scope (m : Store) (p : nat) : res Scope := of_option (scopes m !! p).
Definition load_item (m : Store) (p : nat) : res SymbolTableItem := of_option (items m !! p).

Definition store_scope (m : Store) (p : nat) (sc : Scope) : Store :=
  {| scopes := <[p := sc]> (scopes m); items := items m |}.
Definition store_item (m : Store) (p : nat) (it : SymbolTableItem) : Store :=
  {| scopes := scopes m; items := <[p := it]> (items m) |}.

(** [&Scope{...}]: the new scope's address is the next free one. *)
Definition alloc_scope (m : Store) (sc : Scope) : Store * nat :=
  ({| scopes := scopes m ++ [sc]; items := items m |}, length (scopes m)).

Definition call_hook (f : option Hook) (m : Store) (p : nat) : option error :=
  match f with
  | Some g => g m p
  | None => None
  end.

Definition EnterScope (m : Store) (st : SymbolTable)
    : res (Store * SymbolTable * option error) :=
  new ← match CurrentScope st with
        | None =>
            Ret {| ID := Z.of_nat (length (LegacyScopes st)); Level := 0;
                   Items := ∅; Parent := None |}
        | Some cur =>
            sc ← load_scope m cur;
            Ret {| ID := Z.of_nat (length (LegacyScopes st));
                   Level := GoInt.add (Level sc) 1;
                   Items := ∅; Parent := Some cur |}
        end;
  let '(m1, p) := alloc_scope m new in
  let st1 := set_CurrentScope (Some p) st in
  let st2 := set_LegacyScopes (LegacyScopes st1 ++ [p]) st1 in
  Ret (m1, st2, call_hook (EnterFunction st2) m1 p).

Definition ExitScope (m : Store) (st : SymbolTable)
    : res (Store * SymbolTable * option error) :=
  match CurrentScope st with
  | None => Ret (m, st, Some (Errorf "no scope to exit" []))
  | Some cur =>
      match call_hook (ExitFunction st) m cur with
      | Some err => Ret (m, st, Some err)
      | None =>
          sc ← load_scope m cur;
          Ret (m, set_CurrentScope (Parent sc) st, None)
      end
  end.

(** The two [case]s of [Register] and the body of [TempAddr] advance the
    counter in the same way, by the statements
    [st.addrCounter += n / 4; if n/4*4 != n { st.addrCounter++ }]. *)
Definition advance (counter n : Z) : Z :=
  let c1 := GoInt.add counter (GoInt.div n 4) in
  if bool_decide (GoInt.mul (GoInt.div n 4) 4 <> n) then GoInt.add c1 1 else c1.

(** [st.CurrentScope.Items[item.Variable] = item] *)
Definition declare (m : Store) (cur : nat) (sc : Scope) (item : nat)
    (it : SymbolTableItem) : Store :=
  store_scope m cur (set_Items (<[Item_Variable it := item]> (Items sc)) sc).

Definition Register (m : Store) (st : SymbolTable) (item : nat)
    : res (Store * SymbolTable * option error) :=
  match CurrentScope st with
  | None => Ret (m, st, Some (Errorf "no scope to register item" []))
  | Some cur =>
      sc ← load_scope m cur;
      it ← load_item m item;
      if bool_decide (is_Some (Items sc !! Item_Variable it)) then
        Ret (m, st, Some (Errorf "item %s already exists in scope" [ArgStr (Item_Variable it)]))
      else if bool_decide (VariableSize it <= 0) then
        Ret (m, st, Some (Errorf "invalid variable size for item %s" [ArgStr (Item_Variable it)]))
      else
        let m1 := declare m cur sc item it in
        if bool_decide (Item_Type it = SymbolTableItemTypeVariable) then
          let m2 := store_item m1 item (set_Address (addrCounter st) it) in
          Ret (m2, set_addrCounter (advance (addrCounter st) (VariableSize it)) st, None)
        else if bool_decide (Item_Type it = SymbolTableItemTypeArray) then
          let m2 := store_item m1 item (set_Address (addrCounter st) it) in
          Ret (m2, set_addrCounter
                     (advance (addrCounter st) (GoInt.mul (VariableSize it) (ArraySize it))) st,
               None)
        else Ret (m1, st, None)
  end.

(** The parent walk of [Lookup]: [scope] is the loop variable, [cur] is
    [st.CurrentScope]. *)
Fixpoint Lookup_loop (fuel : nat) (m : Store) (cur : nat) (scope : option nat)
    (variable : string) : res (option nat * bool * option error) :=
  match scope with
  | None => Ret (None, false, Some (Errorf "item %s not found in any scope" [ArgStr variable]))
  | Some p =>
      match fuel with
      | O => Timeout
      | S fuel' =>
          sc ← load_scope m p;
          match Items sc !! variable with
          | Some item => Ret (Some item, bool_decide (p = cur), None)
          | None => Lookup_loop fuel' m cur (Parent sc) variable
          end
      end
  end.

(** A parent chain without a cycle visits each allocated scope at most once. *)
Definition Lookup (m : Store) (st : SymbolTable) (variable : string)
    : res (option nat * bool * option error) :=
  match CurrentScope st with
  | None => Ret (None, false, Some (Errorf "no scope to lookup item" []))
  | Some cur => Lookup_loop (length (scopes m)) m cur (Some cur) variable
  end.

Definition TempAddr (st : SymbolTable) (size : Z) : SymbolTable * Z :=
  (set_addrCounter (advance (addrCounter st) size) st, addrCounter st).

(** The shape of the memory that [EnterScope] builds: a parent was allocated
    before its child, and the current scope is allocated. *)
Definition wf_scopes (m : Store) (st : SymbolTable) : Prop :=
  (forall p sc q, scopes m !! p = Some sc -> Parent sc = Some q -> (q < p)%nat) /\
  (forall cur, CurrentScope st = Some cur -> (cur < length (scopes m))%nat).

(** Whether [Register] assigns an address to the item (the two [case]s of
    its [switch]), and the operand of the rounding there: the item's bytes
    as Go computes them. *)
Definition allocates (it : SymbolTableItem) : bool :=
  bool_decide (Item_Type it = SymbolTableItemTypeVariable)
  || bool_decide (Item_Type it = SymbolTableItemTypeArray).

Definition alloc_bytes (it : SymbolTableItem) : Z :=
  if bool_decide (Item_Type it = SymbolTableItemTypeVariable) then VariableSize it
  else GoInt.mul (VariableSize it) (ArraySize it).

(** ** Calls on one symbol table

    A client's sequence of calls, and what each call hands out: the address
    returned by [TempAddr], or the address assigned to a registered Variable
    or Array item, with the number of bytes asked for. *)

Inductive call :=
  | CallEnterScope
  | CallExitScope
  | CallRegister (item : nat)
  | CallTempAddr (size : Z).

Record handout := {
  is_temp : bool;
  addr : Z;
  bytes : Z
}.

Definition run_call (c : call) (m : Store) (st : SymbolTable)
    : res (Store * SymbolTable * list handout) :=
  match c with
  | CallEnterScope => '(m1, st1, _) ← EnterScope m st; Ret (m1, st1, [])
  | CallExitScope => '(m1, st1, _) ← ExitScope m st; Ret (m1, st1, [])
  | CallRegister item =>
      '(m1, st1, err) ← Register m st item;
      match err with
      | Some _ => Ret (m1, st1, [])
      | None =>
          it ← load_item m1 item;
          if bool_decide (Item_Type it = SymbolTableItemTypeVariable) then
            Ret (m1, st1, [{| is_temp := false; addr := Address it; bytes := VariableSize it |}])
          else if bool_decide (Item_Type it = SymbolTableItemTypeArray) then
            Ret (m1, st1, [{| is_temp := false; addr := Address it;
                              bytes := VariableSize it * ArraySize it |}])
          else Ret (m1, st1, [])
      end
  | CallTempAddr size =>
      let '(st1, a) := TempAddr st size in
      Ret (m, st1, [{| is_temp := true; addr := a; bytes := size |}])
  end.

Fixpoint run_calls (cs : list call) (m : Store) (st : SymbolTable)
    : res (Store * SymbolTable * list handout) :=
  match cs with
  | [] => Ret (m, st, [])
  | c :: rest =>
      '(m1, st1, hs1) ← run_call c m st;
      '(m2, st2, hs2) ← run_calls rest m1 st1;
      Ret (m2, st2, hs1 ++ hs2)
  end.

(** The mathematical ceiling of [n / 4], for every sign of [n]. *)
Definition ceil4 (n : Z) : Z := - ((- n) / 4).

(** The words of a handout: [addr], [addr + 1], ..., below [addr + ceil4 bytes]. *)
Definition covers (x : handout) (a : Z) : Prop := addr x <= a < addr x + ceil4 (bytes x).

(** The words asked for by a list of handouts, and the layout in which each
    handout starts where the one before it ends. *)
Fixpoint sum_words (hs : list handout) : Z :=
  match hs with
  | [] => 0
  | x :: rest => ceil4 (bytes x) + sum_words rest
  end.

Fixpoint laid_out (c : Z) (hs : list handout) : Prop :=
  match hs with
  | [] => True
  | x :: rest => addr x = c /\ laid_out (c + ceil4 (bytes x)) rest
  end.

(** A request of a positive number of bytes that an int can hold. *)
Definition positive_request (x : handout) : Prop := 0 < bytes x <= GoInt.int_max.

(** ** What an entry of a built table stands for

    Both tables of an [LRTable] in shape, and the reason an entry has for
    being in a table built from [states]: an item of the state with that
    index which asks for exactly that entry. *)

Definition wf_lr (h : LRHeap) (t : LRTable) : Prop :=
  wf_table (aheap h) (ActionTable t) /\ wf_table (gheap h) (GotoTable t).

Definition action_justified (IsEpsilon : Symbol -> bool) (TERMINATE : Terminal)
    (grammar : Grammar) (states : list State) (s : Z) (a : Terminal) (act : Action) : Prop :=
  exists state item,
    state ∈ states /\ State_Index state = s /\ item ∈ State_Items state /\
    ((act = {| Action_Type := ACCEPT; Action_Number := 0 |} /\ a = TERMINATE /\
      item_completed IsEpsilon item = Ret true /\
      accept_condition TERMINATE grammar item = true) \/
     (exists n, act = {| Action_Type := REDUCE; Action_Number := n |} /\
                a = Item_Lookahead item /\
                item_completed IsEpsilon item = Ret true /\
                accept_condition TERMINATE grammar item = false /\
                GetIndex grammar (Item_Production item) = Some n) \/
     (exists n, act = {| Action_Type := SHIFT; Action_Number := n |} /\
                index_body (Production_Body (Item_Production item)) (Item_Dot item) = Ret a /\
                IsEpsilon a = false /\ IsNonTerminal grammar a = false /\
                State_Transitions state !! a = Some n)).

Definition goto_justified (IsEpsilon : Symbol -> bool)
    (grammar : Grammar) (states : list State) (s : Z) (x : Symbol) (n : Z) : Prop :=
  exists state item,
    state ∈ states /\ State_Index state = s /\ item ∈ State_Items state /\
    index_body (Production_Body (Item_Production item)) (Item_Dot item) = Ret x /\
    IsEpsilon x = false /\ IsNonTerminal grammar x = true /\
    State_Transitions state !! x = Some n.

(** ** What [BuildTable] keeps

    Predicates used to state what the construction of a table keeps true. *)

(** Every entry has an item that asked for it. *)
Definition all_justified (IsEpsilon : Symbol -> bool) (TERMINATE : Terminal)
    (grammar : Grammar) (states : list State) (t : LRTable) (h : LRHeap) : Prop :=
  (forall s a act, get (aheap h) (ActionTable t) s a = Some act ->
     action_justified IsEpsilon TERMINATE grammar states s a act) /\
  (forall s x n, get (gheap h) (GotoTable t) s x = Some n ->
     goto_justified IsEpsilon grammar states s x n).

(** [t'] is another table, in shape, that holds none of the rows of [t]. *)
Definition apart {K : Type} `{Countable K} {V : Type} (h : heap K V) (t t' : nat) : Prop :=
  t ≠ t' /\ wf_table h t' /\
  forall s1 s2 p, get_row h t s1 = Some p -> get_row h t' s2 ≠ Some p.

(** The tables [ta] and [tg] are apart from those of [t], and answer as they
    do in [h0]. *)
Definition others_kept (t : LRTable) (ta tg : nat) (h0 h : LRHeap) : Prop :=
  wf_lr h t /\
  apart (aheap h) (ActionTable t) ta /\ apart (gheap h) (GotoTable t) tg /\
  (forall s a, get (aheap h) ta s a = get (aheap h0) ta s a) /\
  (forall s x, get (gheap h) tg s x = get (gheap h0) tg s x).

(** ** What the calls on a symbol table keep *)

(** What the calls keep true of a table whose scopes are all its own: the
    history lists every scope in the order of creation, the current scope is
    allocated, a scope's id is its position, a root has level 0, and a child
    comes after its parent, one level deeper. *)
Definition table_inv (m : Store) (st : SymbolTable) : Prop :=
  LegacyScopes st = seq 0 (length (scopes m)) /\
  (forall cur, CurrentScope st = Some cur -> (cur < length (scopes m))%nat) /\
  forall p sc, scopes m !! p = Some sc ->
    ID sc = Z.of_nat p /\
    match Parent sc with
    | None => Level sc = 0
    | Some q => (q < p)%nat /\
                exists scq, scopes m !! q = Some scq /\ Level sc = GoInt.add (Level scq) 1
    end.

(** The fields that no call writes. *)
Definition same_fixed_fields (st st' : SymbolTable) : Prop :=
  st_constantAddr st' = st_constantAddr st /\
  EnterFunction st' = EnterFunction st /\ ExitFunction st' = ExitFunction st.

(** ** Sets of [utils/collections/set.go]

    [type Set[T comparable] map[T]struct{}].  A set is a Go map, so a value
    of type [Set[T]] is nil or a reference to a table shared by every copy of
    that value.  The tables live on a heap (a list indexed by address,
    [NewSet] appends); the contents of a table is the finite set of its keys.
    Keys are compared with Go's [==], taken as equality of values: no NaN
    and no interface key whose comparison panics.  Function arguments
    ([predicate], [f]) are pure.

    Go leaves the order in which [for key := range s] produces the keys
    unspecified.  [range_keys] is that order; the properties below hold for
    every enumeration of the keys and none of them depends on two loops
    agreeing on the order.  [String] (formatting with [%v]) and [ForEach]
    (whose only result is what its callback does) are left out. *)

(** A value of type [Set[T]]: nil or the address of its table. *)
Definition SetRef : Type := option nat.

Section Sets.
Context {T : Type} {T_eq : EqDecision T} {T_countable : Countable T}.
Variable range_keys : gset T -> list T.

Implicit Types (h : list (gset T)) (s other : SetRef) (value key : T).

(** The keys of the table behind [s]; a nil map reads as an empty one. *)
Definition Set_contents h s : gset T :=
  match s with
  | Some a => default ∅ (h !! a)
  | None => ∅
  end.

(** [s] is nil or the address of an allocated table. *)
Definition Set_valid h s : Prop :=
  match s with
  | Some a => (a < length h)%nat
  | None => True
  end.

Definition NewSet h : list (gset T) * SetRef :=
  (h ++ [∅], Some (length h)).

(** [s[value] = struct{}{}] panics on a nil map. *)
Definition Set_Add h s value : res (list (gset T) * SetRef) :=
  match s with
  | Some a => Ret (<[a := {[value]} ∪ Set_contents h s]> h, s)
  | None => Fault
  end.

Fixpoint Set_AddAll h s (values : list T) : res (list (gset T) * SetRef) :=
  match values with
  | [] => Ret (h, s)
  | value :: rest => '(h1, _) ← Set_Add h s value; Set_AddAll h1 s rest
  end.

(** [delete] on a nil map does nothing. *)
Definition Set_Remove h s value : list (gset T) * SetRef :=
  match s with
  | Some a => (<[a := Set_contents h s ∖ {[value]}]> h, s)
  | None => (h, s)
  end.

Definition Set_Contains h s value : bool :=
  bool_decide (value ∈ Set_contents h s).

Fixpoint ContainsFunc_loop (predicate : T -> bool) (keys : list T) : bool :=
  match keys with
  | [] => false
  | key :: rest => if predicate key then true else ContainsFunc_loop predicate rest
  end.

Definition Set_ContainsFunc h s (predicate : T -> bool) : bool :=
  ContainsFunc_loop predicate (range_keys (Set_contents h s)).

Fixpoint Size_loop (count : Z) (keys : list T) : Z :=
  match keys with
  | [] => count
  | _ :: rest => Size_loop (GoInt.add count 1) rest
  end.

Definition Set_Size h s : Z := Size_loop 0 (range_keys (Set_contents h s)).

(** [Clear] deletes each key when the loop produces it; the keys still to
    come are not touched, so the loop produces every key the set had. *)
Fixpoint Clear_loop h s (keys : list T) : list (gset T) :=
  match keys with
  | [] => h
  | key :: rest => Clear_loop (Set_Remove h s key).1 s rest
  end.

Definition Set_Clear h s : list (gset T) * SetRef :=
  (Clear_loop h s (range_keys (Set_contents h s)), s).

(** [for key := range keys { body }] for a body that writes to the heap and
    does not leave the loop. *)
Fixpoint for_range (keys : list T)
    (body : list (gset T) -> T -> res (list (gset T))) h : res (list (gset T)) :=
  match keys with
  | [] => Ret h
  | key :: rest => h1 ← body h key; for_range rest body h1
  end.

(** The statement [s.Add(value)], its result dropped. *)
Definition Add_stmt (s : SetRef) h value : res (list (gset T)) :=
  '(h1, _) ← Set_Add h s value; Ret h1.

Definition Set_Union h s other : res (list (gset T) * SetRef) :=
  let '(h0, union) := NewSet h in
  h1 ← for_range (range_keys (Set_contents h0 s)) (Add_stmt union) h0;
  h2 ← for_range (range_keys (Set_contents h1 other)) (Add_stmt union) h1;
  Ret (h2, union).

Definition Set_Intersection h s other : res (list (gset T) * SetRef) :=
  let '(h0, intersection) := NewSet h in
  h1 ← for_range (range_keys (Set_contents h0 s))
         (fun h' key =>
            if Set_Contains h' other key then Add_stmt intersection h' key
            else Ret h') h0;
  Ret (h1, intersection).

Definition Set_Difference h s other : res (list (gset T) * SetRef) :=
  let '(h0, difference) := NewSet h in
  h1 ← for_range (range_keys (Set_contents h0 s))
         (fun h' key =>
            if negb (Set_Contains h' other key) then Add_stmt difference h' key
            else Ret h') h0;
  Ret (h1, difference).

(** [for key := range keys { if !other.Contains(key) { return false } };
    return true], the loop of [IsSubset], [IsSuperset], [Equal] and
    [Equals]. *)
Fixpoint all_contained h other (keys : list T) : bool :=
  match keys with
  | [] => true
  | key :: rest =>
      if negb (Set_Contains h other key) then false else all_contained h other rest
  end.

Definition Set_IsSubset h s other : bool :=
  all_contained h other (range_keys (Set_contents h s)).

Definition Set_IsSuperset h s other : bool :=
  all_contained h s (range_keys (Set_contents h other)).

Fixpoint append_keys (elements keys : list T) : list T :=
  match keys with
  | [] => elements
  | key :: rest => append_keys (elements ++ [key]) rest
  end.

(** [make([]T, 0, n)] panics when [n] is negative. *)
Definition Set_Elements h s : res (list T) :=
  if bool_decide (Set_Size h s < 0) then Fault
  else Ret (append_keys [] (range_keys (Set_contents h s))).

Definition Set_Copy h s : res (list (gset T) * SetRef) :=
  let '(h0, c) := NewSet h in
  h1 ← for_range (range_keys (Set_contents h0 s)) (Add_stmt c) h0;
  Ret (h1, c).

Definition Set_Equal h s other : bool :=
  if bool_decide (Set_Size h s <> Set_Size h other) then false
  else all_contained h other (range_keys (Set_contents h s)).

Definition Set_Map h s (f : T -> T) : res (list (gset T) * SetRef) :=
  let '(h0, mapped) := NewSet h in
  h1 ← for_range (range_keys (Set_contents h0 s))
         (fun h' key => Add_stmt mapped h' (f key)) h0;
  Ret (h1, mapped).

Definition Set_Filter h s (predicate : T -> bool) : res (list (gset T) * SetRef) :=
  let '(h0, filtered) := NewSet h in
  h1 ← for_range (range_keys (Set_contents h0 s))
         (fun h' key => if predicate key then Add_stmt filtered h' key else Ret h') h0;
  Ret (h1, filtered).

Fixpoint Reduce_loop (f : T -> T -> T) (result : T) (keys : list T) : T :=
  match keys with
  | [] => result
  | key :: rest => Reduce_loop f (f result key) rest
  end.

Definition Set_Reduce h s (f : T -> T -> T) (initial : T) : T :=
  Reduce_loop f initial (range_keys (Set_contents h s)).

Definition Set_ToSlice h s : res (list T) :=
  if bool_decide (Set_Size h s < 0) then Fault
  else Ret (append_keys [] (range_keys (Set_contents h s))).

Definition Set_Equals h s other : bool :=
  if bool_decide (Set_Size h s <> Set_Size h other) then false
  else all_contained h other (range_keys (Set_contents h s)).

(** What a call that builds a set leaves behind: the call returned, its
    result is a set that did not exist before and holds exactly the values
    that satisfy [P], and every set that existed reads as before. *)
Definition builds_new h (r : res (list (gset T) * SetRef)) (P : T -> Prop) : Prop :=
  exists h' u, r = Ret (h', u) /\
    ~ Set_valid h u /\ Set_valid h' u /\
    (forall value, Set_Contains h' u value = true <-> P value) /\
    (forall s', Set_valid h s' ->
       forall value, Set_Contains h' s' value = Set_Contains h s' value).

End Sets.

(** ** Sample data *)

(** The grammar [S' -> S], [S -> a S], [S -> eps], with [eps] the epsilon
    marker and [$] the end of input. *)
Definition sample_IsEpsilon (s : Symbol) : bool := bool_decide (s = "eps"%string).
Definition sample_TERMINATE : Terminal := "$"%string.

Definition prod_start : Production :=
  {| Production_Head := "S'"; Production_Body := ["S"%string] |}.
Definition prod_shift : Production :=
  {| Production_Head := "S"; Production_Body := ["a"%string; "S"%string] |}.
Definition prod_eps : Production :=
  {| Production_Head := "S"; Production_Body := ["eps"%string] |}.

Definition sample_grammar : Grammar :=
  {| IsNonTerminal := fun s => bool_decide (s = "S"%string) || bool_decide (s = "S'"%string);
     GetIndex := fun p =>
       if bool_decide (p = prod_start) then Some 0
       else if bool_decide (p = prod_shift) then Some 1
       else if bool_decide (p = prod_eps) then Some 2
       else None;
     AugmentedProduction := prod_start |}.

Definition item_eps : Item :=
  {| Item_Production := prod_eps; Item_Dot := 0; Item_Lookahead := "$"%string |}.
Definition item_accept : Item :=
  {| Item_Production := prod_start; Item_Dot := 1; Item_Lookahead := "$"%string |}.
Definition item_shift_a : Item :=
  {| Item_Production := prod_shift; Item_Dot := 0; Item_Lookahead := "$"%string |}.
(** A completed [S -> a S .] item whose lookahead is [a]. *)
Definition item_reduce_a : Item :=
  {| Item_Production := prod_shift; Item_Dot := 2; Item_Lookahead := "a"%string |}.

Definition sample_state (its : list Item) : State :=
  {| State_Index := 0; State_Items := its;
     State_Transitions := {[ "a"%string := 2; "S"%string := 1 ]} |}.

(** Fresh memory holding one empty ACTION table and one empty GOTO table. *)
Definition empty_heap {V} : heap string V := Heap [] [].
Definition fresh_lr_heap : LRHeap :=
  {| aheap := (make_top empty_heap).1; gheap := (make_top empty_heap).1 |}.
Definition fresh_lr_table : LRTable := {| ActionTable := 0; GotoTable := 0 |}.

(** Items of a client: [x], [y], [z] of 4, 6 and 4 bytes, a second [x] to
    shadow the first, and three arrays. *)
Definition mk_item (name : string) (ty : SymbolTableItemType) (size len : Z)
    : SymbolTableItem :=
  {| Item_Variable := name; Item_Type := ty; Address := 0; UnderlyingType := "int";
     VariableSize := size; ArraySize := len; Line := 0; Pos := 0 |}.

Definition sample_store : Store :=
  {| scopes := [];
     items := [ mk_item "x" SymbolTableItemTypeVariable 4 1;
                mk_item "y" SymbolTableItemTypeVariable 6 1;
                mk_item "z" SymbolTableItemTypeVariable 4 1;
                mk_item "x" SymbolTableItemTypeVariable 8 1;
                mk_item "neg" SymbolTableItemTypeArray 3 (-1);
                mk_item "empty" SymbolTableItemTypeArray 4 0;
                mk_item "huge" SymbolTableItemTypeArray (2 ^ 62) 4;
                mk_item "bad" SymbolTableItemTypeVariable 0 1 ] |}.

Definition failing_hook : Hook := fun _ _ => Some (Errorf "hook failed" []).

(** The memory and the table after [EnterScope] on a new table without
    hooks, and after a further [Register] of the first [x]. *)
Definition entered : Store * SymbolTable :=
  match EnterScope sample_store (NewSymbolTable None None) with
  | Ret (m, st, _) => (m, st)
  | _ => (sample_store, NewSymbolTable None None)
  end.

Definition entered_x : Store * SymbolTable :=
  match Register entered.1 entered.2 0 with
  | Ret (m, st, _) => (m, st)
  | _ => entered
  end.

(** ... and after a further [EnterScope]: the scope of [x] is the parent. *)
Definition entered_x_entered : Store * SymbolTable :=
  match EnterScope entered_x.1 entered_x.2 with
  | Ret (m, st, _) => (m, st)
  | _ => entered_x
  end.

(** A table with one open scope whose hooks both fail. *)
Definition entered_failing : Store * SymbolTable :=
  match EnterScope sample_store (NewSymbolTable (Some failing_hook) (Some failing_hook)) with
  | Ret (m, st, _) => (m, st)
  | _ => (sample_store, NewSymbolTable None None)
  end.

(** A client that opens a scope, declares [x], takes a 4-byte temporary,
    declares [y] and takes a 5-byte temporary. *)
Definition sample_calls : list call :=
  [CallEnterScope; CallRegister 0; CallTempAddr 4; CallRegister 1; CallTempAddr 5].

(** Two sets of integers on one heap, and two orders of iteration. *)
Definition sample_sets : list (gset Z) := [ {[1; 2]}; {[2; 3]} ].
Definition sample_order (X : gset Z) : list Z := elements X.
Definition sample_order_rev (X : gset Z) : list Z := reverse (elements X).

(** * Properties *)

(** ** Go's [int] *)

Lemma wrap_in_range z : GoInt.in_range (GoInt.wrap z).
Proof.
  unfold GoInt.in_range, GoInt.wrap, GoInt.int_min, GoInt.int_max.
  pose proof (Z.mod_pos_bound (z + 2 ^ 63) (2 ^ 64) ltac:(lia)). lia.
Qed.

Lemma wrap_id z : GoInt.in_range z -> GoInt.wrap z = z.
Proof.
  unfold GoInt.in_range, GoInt.wrap, GoInt.int_min, GoInt.int_max. intros Hz.
  rewrite Z.mod_small by lia. lia.
Qed.

Lemma wrap_add_l a b : GoInt.wrap (GoInt.wrap a + b) = GoInt.wrap (a + b).
Proof.
  unfold GoInt.wrap.
  replace ((a + 2 ^ 63) mod 2 ^ 64 - 2 ^ 63 + b + 2 ^ 63)
    with ((a + 2 ^ 63) mod 2 ^ 64 + b) by lia.
  rewrite Zplus_mod_idemp_l. f_equal. f_equal. lia.
Qed.

Lemma add_add a b c : GoInt.add (GoInt.add a b) c = GoInt.add a (b + c).
Proof. unfold GoInt.add. rewrite wrap_add_l. f_equal. lia. Qed.

Lemma add_0_r a : GoInt.in_range a -> GoInt.add a 0 = a.
Proof. intros. unfold GoInt.add. rewrite Z.add_0_r. by apply wrap_id. Qed.

Lemma add_exact a b :
  GoInt.in_range (a + b) -> GoInt.add a b = a + b.
Proof. apply wrap_id. Qed.

(** ** Maps of maps *)

Section GoMapFacts.
Context {K : Type} `{Countable K} {V : Type}.
Implicit Types (h : heap K V) (t p : nat) (s : Z) (k : K) (v : V).

Lemma top_of_lookup h t m : tops h !! t = Some m -> top_of h t = m.
Proof. unfold top_of. by intros ->. Qed.

Lemma row_of_lookup h p r : rows h !! p = Some r -> row_of h p = r.
Proof. unfold row_of. by intros ->. Qed.

Lemma top_of_make_row h t s t' :
  (t < length (tops h))%nat ->
  top_of (make_row h t s) t' =
    if decide (t = t') then <[s := length (rows h)]> (top_of h t) else top_of h t'.
Proof.
  intros Ht. unfold top_of at 1. simpl. case_decide as E.
  - subst t'. by rewrite list_lookup_insert_eq.
  - by rewrite list_lookup_insert_ne.
Qed.

Lemma row_of_make_row_old h t s p :
  (p < length (rows h))%nat -> row_of (make_row h t s) p = row_of h p.
Proof. intros Hp. unfold row_of. simpl. by rewrite lookup_app_l. Qed.

Lemma row_of_make_row_new h t s : row_of (make_row h t s) (length (rows h)) = ∅.
Proof.
  unfold row_of. simpl. rewrite lookup_app_r by lia.
  by rewrite Nat.sub_diag.
Qed.

Lemma get_row_set h t s k v t' s' : get_row (set h t s k v) t' s' = get_row h t' s'.
Proof. unfold set. by destruct (get_row h t s). Qed.

Lemma row_of_set h t s k v p p' :
  get_row h t s = Some p -> (p < length (rows h))%nat ->
  row_of (set h t s k v) p' =
    if decide (p = p') then <[k := v]> (row_of h p) else row_of h p'.
Proof.
  intros Hp Hlt. unfold set. rewrite Hp. unfold row_of at 1. simpl.
  case_decide as E.
  - subst p'. by rewrite list_lookup_insert_eq.
  - by rewrite list_lookup_insert_ne.
Qed.

Lemma length_rows_set h t s k v : length (rows (set h t s k v)) = length (rows h).
Proof. unfold set. destruct (get_row h t s); simpl; [apply length_insert | done]. Qed.

Lemma length_tops_set h t s k v : length (tops (set h t s k v)) = length (tops h).
Proof. unfold set. by destruct (get_row h t s). Qed.

(** *** The row of a state, once ensured *)

Lemma ensure_row_present h t s p :
  get_row h t s = Some p -> ensure_row h t s = h.
Proof. unfold ensure_row. by intros ->. Qed.

Lemma ensure_row_get_row h t s :
  wf_table h t ->
  exists p, get_row (ensure_row h t s) t s = Some p /\
            (p < length (rows (ensure_row h t s)))%nat.
Proof.
  intros (Ht & Hv & _). unfold ensure_row.
  destruct (get_row h t s) as [p|] eqn:E.
  - exists p. split; [done | by eapply Hv].
  - exists (length (rows h)). split.
    + unfold get_row. rewrite top_of_make_row by done.
      rewrite decide_True by done. apply lookup_insert_eq.
    + simpl. rewrite length_app. simpl. lia.
Qed.

Lemma ensure_row_get h t s t' s' k :
  wf_table h t -> wf_table h t' ->
  get (ensure_row h t s) t' s' k = get h t' s' k.
Proof.
  intros (Ht & Hv & _) (Ht' & Hv' & _). unfold ensure_row.
  destruct (get_row h t s) as [p|] eqn:E; [done |].
  unfold get, get_row. rewrite top_of_make_row by done.
  case_decide as Et.
  - subst t'. destruct (decide (s = s')) as [->|Hs].
    + rewrite lookup_insert_eq. rewrite row_of_make_row_new.
      unfold get_row in E. by rewrite E, lookup_empty.
    + rewrite lookup_insert_ne by done.
      destruct (top_of h t !! s') as [q|] eqn:Eq; [|done].
      rewrite row_of_make_row_old; [done | by eapply Hv].
  - destruct (top_of h t' !! s') as [q|] eqn:Eq; [|done].
    rewrite row_of_make_row_old; [done | by eapply Hv'].
Qed.

Lemma ensure_row_wf h t s : wf_table h t -> wf_table (ensure_row h t s) t.
Proof.
  intros Hwf. pose proof Hwf as (Ht & Hv & Hinj). unfold ensure_row.
  destruct (get_row h t s) as [p|] eqn:E; [done |].
  split; [|split].
  - simpl. by rewrite length_insert.
  - intros s' q. unfold get_row. rewrite top_of_make_row by done.
    rewrite decide_True by done. simpl. rewrite length_app. simpl.
    destruct (decide (s = s')) as [->|Hs].
    + rewrite lookup_insert_eq. intros [= <-]. lia.
    + rewrite lookup_insert_ne by done. intros Hq.
      pose proof (Hv s' q Hq). lia.
  - intros s1 s2 q. unfold get_row. rewrite top_of_make_row by done.
    rewrite decide_True by done.
    destruct (decide (s = s1)) as [E1|H1], (decide (s = s2)) as [E2|H2];
      subst; rewrite ?lookup_insert_eq, ?lookup_insert_ne by done; try done.
    + intros [= <-] Hq. pose proof (Hv s2 _ Hq). lia.
    + intros Hq [= <-]. pose proof (Hv s1 _ Hq). lia.
    + apply Hinj.
Qed.

(** A table that shares the heap keeps its shape when another table gets a
    fresh row. *)
Lemma ensure_row_wf_other h t s t' :
  wf_table h t -> wf_table h t' -> wf_table (ensure_row h t s) t'.
Proof.
  intros Hwf Hwf'. destruct (decide (t = t')) as [<-|Ht]; [by apply ensure_row_wf|].
  pose proof Hwf as (Hlt & _). pose proof Hwf' as (Hlt' & Hv' & Hinj').
  unfold ensure_row. destruct (get_row h t s) as [p|] eqn:E; [done |].
  split; [|split].
  - simpl. by rewrite length_insert.
  - intros s' q. unfold get_row. rewrite top_of_make_row by done.
    rewrite decide_False by done. simpl. rewrite length_app. simpl.
    intros Hq. pose proof (Hv' s' q Hq). lia.
  - intros s1 s2 q. unfold get_row. rewrite top_of_make_row by done.
    rewrite decide_False by done. apply Hinj'.
Qed.

(** *** Writing a slot *)

Lemma set_get_eq h t s k v p :
  get_row h t s = Some p -> (p < length (rows h))%nat ->
  get (set h t s k v) t s k = Some v.
Proof.
  intros Hp Hlt. unfold get. rewrite get_row_set, Hp.
  erewrite row_of_set by done. rewrite decide_True by done.
  apply lookup_insert_eq.
Qed.

Lemma set_get_ne h t s k v s' k' :
  wf_table h t -> (s', k') ≠ (s, k) ->
  get (set h t s k v) t s' k' = get h t s' k'.
Proof.
  intros (Ht & Hv & Hinj) Hne. unfold get. rewrite get_row_set.
  destruct (get_row h t s) as [p|] eqn:Ep.
  - destruct (get_row h t s') as [q|] eqn:Eq; [|done].
    erewrite row_of_set; [|done|by eapply Hv].
    case_decide as Epq; [|done]. subst q.
    assert (s' = s) as -> by (by eapply Hinj).
    rewrite lookup_insert_ne; [done | congruence].
  - unfold set. by rewrite Ep.
Qed.

Lemma set_wf h t s k v t' : wf_table h t' -> wf_table (set h t s k v) t'.
Proof.
  intros (Ht & Hv & Hinj). split; [|split].
  - by rewrite length_tops_set.
  - intros s' q. rewrite get_row_set, length_rows_set. apply Hv.
  - intros s1 s2 q. rewrite !get_row_set. apply Hinj.
Qed.

(** Writing through [t] at a state whose row [t'] does not hold leaves
    every lookup through [t'] as it was. *)
Lemma set_get_other_table h t s k v t' s' k' p :
  get_row h t s = Some p -> (p < length (rows h))%nat ->
  (forall s'', get_row h t' s'' ≠ Some p) ->
  get (set h t s k v) t' s' k' = get h t' s' k'.
Proof.
  intros Hp Hlt Hfresh. unfold get. rewrite get_row_set.
  destruct (get_row h t' s') as [q|] eqn:Eq; [|done].
  erewrite row_of_set by done. case_decide as E; [|done].
  subst q. by destruct (Hfresh s').
Qed.

(** *** [maps.Clone] *)

Lemma Clone_get_row_copy h t s :
  get_row (Clone h t).1 (Clone h t).2 s = get_row h t s.
Proof.
  unfold get_row, top_of. simpl.
  rewrite lookup_app_r by lia. by rewrite Nat.sub_diag.
Qed.

Lemma Clone_get_row_old h t t' s :
  (t' < length (tops h))%nat -> get_row (Clone h t).1 t' s = get_row h t' s.
Proof. intros Hlt. unfold get_row, top_of. simpl. by rewrite lookup_app_l. Qed.

Lemma Clone_row_of h t p : row_of (Clone h t).1 p = row_of h p.
Proof. done. Qed.

Lemma Clone_wf_old h t t' : wf_table h t' -> wf_table (Clone h t).1 t'.
Proof.
  intros (Ht & Hv & Hinj). split; [|split].
  - simpl. rewrite length_app. lia.
  - intros s p. rewrite Clone_get_row_old by done. apply Hv.
  - intros s1 s2 p. rewrite !Clone_get_row_old by done. apply Hinj.
Qed.

Lemma Clone_wf_copy h t : wf_table h t -> wf_table (Clone h t).1 (Clone h t).2.
Proof.
  intros (Ht & Hv & Hinj). split; [|split].
  - simpl. rewrite length_app. simpl. lia.
  - intros s p. rewrite Clone_get_row_copy. apply Hv.
  - intros s1 s2 p. rewrite !Clone_get_row_copy. apply Hinj.
Qed.

End GoMapFacts.

(** ** [ActionTable.Register] *)

Section RegisterFacts.
Implicit Types (h : ActionHeap) (t : nat) (s : Z) (a : Terminal) (action cur : Action).

Lemma get_Some_get_row {K} `{Countable K} {V} (h : heap K V) t s (k : K) (v : V) :
  get h t s k = Some v -> exists p, get_row h t s = Some p.
Proof. unfold get. destruct (get_row h t s); [eauto | done]. Qed.

Lemma upd_get_eq {K} `{Countable K} {V} (h : heap K V) t s (k : K) (v : V) :
  wf_table h t -> get (set (ensure_row h t s) t s k v) t s k = Some v.
Proof.
  intros Hwf. destruct (ensure_row_get_row h t s Hwf) as (p & Hp & Hlt).
  by eapply set_get_eq.
Qed.

Lemma upd_get_ne {K} `{Countable K} {V} (h : heap K V) t s (k : K) (v : V) s' k' :
  wf_table h t -> (s', k') ≠ (s, k) ->
  get (set (ensure_row h t s) t s k v) t s' k' = get h t s' k'.
Proof.
  intros Hwf Hne. rewrite set_get_ne; [|by apply ensure_row_wf|done].
  by apply ensure_row_get.
Qed.

Lemma upd_wf {K} `{Countable K} {V} (h : heap K V) t s (k : K) (v : V) :
  wf_table h t -> wf_table (set (ensure_row h t s) t s k v) t.
Proof. intros Hwf. by apply set_wf, ensure_row_wf. Qed.

Lemma Register_shift_reduce h t s a cur action :
  wf_table h t -> get h t s a = Some cur ->
  Action_Type cur = SHIFT -> Action_Type action = REDUCE ->
  ActionTable_Register h t s action a =
    (h, Some (Errorf "conflict in action table: state %d, terminal %s[shift] %d, [reduce] %d"
                [ArgInt s; ArgStr a; ArgInt (Action_Number cur); ArgInt (Action_Number action)])).
Proof.
  intros Hwf Hget Hc Ha. destruct (get_Some_get_row _ _ _ _ _ Hget) as [p Hp].
  unfold ActionTable_Register. rewrite (ensure_row_present _ _ _ _ Hp), Hget.
  by rewrite (bool_decide_eq_true_2 _ Hc), (bool_decide_eq_true_2 _ Ha).
Qed.

Lemma Register_reduce_reduce h t s a cur action :
  wf_table h t -> get h t s a = Some cur ->
  Action_Type cur = REDUCE -> Action_Type action = REDUCE ->
  ActionTable_Register h t s action a =
    (h, Some (Errorf "conflict in action table: state %d, terminal %s[reduce] %d, [reduce] %d"
                [ArgInt s; ArgStr a; ArgInt (Action_Number cur); ArgInt (Action_Number action)])).
Proof.
  intros Hwf Hget Hc Ha. destruct (get_Some_get_row _ _ _ _ _ Hget) as [p Hp].
  unfold ActionTable_Register. rewrite (ensure_row_present _ _ _ _ Hp), Hget.
  rewrite (bool_decide_eq_true_2 _ Hc), (bool_decide_eq_true_2 _ Ha).
  rewrite bool_decide_eq_false_2; [done|]. by rewrite Hc.
Qed.

(** Every other registration stores the action and reports nothing. *)
Lemma Register_store h t s a action :
  wf_table h t ->
  (forall cur, get h t s a = Some cur ->
     Action_Type action ≠ REDUCE \/ (Action_Type cur ≠ SHIFT /\ Action_Type cur ≠ REDUCE)) ->
  ActionTable_Register h t s action a = (set (ensure_row h t s) t s a action, None).
Proof.
  intros Hwf Hno. unfold ActionTable_Register.
  rewrite (ensure_row_get h t s t s a Hwf Hwf).
  destruct (get h t s a) as [cur|] eqn:Hget; [|done].
  destruct (Hno cur eq_refl) as [Ha|[Hc1 Hc2]].
  - rewrite (bool_decide_eq_false_2 _ Ha). by rewrite !andb_false_r.
  - by rewrite (bool_decide_eq_false_2 _ Hc1), (bool_decide_eq_false_2 _ Hc2).
Qed.

(** The three outcomes are the only ones. *)
Lemma Register_cases h t s a action :
  wf_table h t ->
  (exists cur, get h t s a = Some cur /\
      (Action_Type cur = SHIFT \/ Action_Type cur = REDUCE) /\
      Action_Type action = REDUCE /\
      (ActionTable_Register h t s action a).1 = h /\
      is_Some (ActionTable_Register h t s action a).2) \/
  ActionTable_Register h t s action a = (set (ensure_row h t s) t s a action, None).
Proof.
  intros Hwf.
  destruct (get h t s a) as [cur|] eqn:Hget.
  - destruct (decide (Action_Type action = REDUCE)) as [Ha|Ha].
    + destruct (decide (Action_Type cur = SHIFT)) as [Hc|Hc].
      { left. exists cur. rewrite (Register_shift_reduce h t s a cur action) by done.
        simpl. eauto 10. }
      destruct (decide (Action_Type cur = REDUCE)) as [Hc'|Hc'].
      { left. exists cur. rewrite (Register_reduce_reduce h t s a cur action) by done.
        simpl. eauto 10. }
      right. apply Register_store; [done|]. intros c Hc0.
      rewrite Hget in Hc0. injection Hc0 as <-. by right.
    + right. apply Register_store; [done|]. intros; by left.
  - right. apply Register_store; [done|]. intros c Hc0. by rewrite Hget in Hc0.
Qed.

Lemma Register_wf h t s a action :
  wf_table h t -> wf_table (ActionTable_Register h t s action a).1 t.
Proof.
  intros Hwf. destruct (Register_cases h t s a action Hwf) as [(c & _ & _ & _ & -> & _)| ->].
  - done.
  - simpl. by apply upd_wf.
Qed.

Lemma Register_frame h t s a action s' a' :
  wf_table h t -> (s', a') ≠ (s, a) ->
  get (ActionTable_Register h t s action a).1 t s' a' = get h t s' a'.
Proof.
  intros Hwf Hne.
  destruct (Register_cases h t s a action Hwf) as [(c & _ & _ & _ & -> & _)| ->].
  - done.
  - simpl. by apply upd_get_ne.
Qed.

End RegisterFacts.

Lemma make_top_wf {K} `{Countable K} {V} (h : heap K V) :
  wf_table (make_top h).1 (make_top h).2.
Proof.
  assert (Hrow : forall s, get_row (make_top h).1 (make_top h).2 s = None).
  { intros s. unfold get_row, top_of. simpl.
    rewrite lookup_app_r by lia. rewrite Nat.sub_diag. simpl. apply lookup_empty. }
  split; [|split].
  - simpl. rewrite length_app. simpl. lia.
  - intros s p. by rewrite Hrow.
  - intros s1 s2 p. by rewrite Hrow.
Qed.

(** ** One iteration of [LRTable.Insert] *)

Section InsertFacts.
Variable IsEpsilon : Symbol -> bool.
Variable TERMINATE : Terminal.
Implicit Types (state : State) (grammar : Grammar) (t : LRTable) (h : LRHeap) (item : Item).

Lemma Insert_item_accept state grammar t h err0 item :
  item_completed IsEpsilon item = Ret true ->
  accept_condition TERMINATE grammar item = true ->
  let r := ActionTable_Register (aheap h) (ActionTable t) (State_Index state)
             {| Action_Type := ACCEPT; Action_Number := 0 |} TERMINATE in
  Insert_item IsEpsilon TERMINATE state grammar t h err0 item =
    Ret ({| aheap := r.1; gheap := gheap h |}, r.2).
Proof.
  intros Hc Ha r. unfold Insert_item. rewrite Hc. simpl.
  rewrite Ha. fold r. by destruct r.
Qed.

Lemma Insert_item_reduce state grammar t h err0 item n :
  item_completed IsEpsilon item = Ret true ->
  accept_condition TERMINATE grammar item = false ->
  GetIndex grammar (Item_Production item) = Some n ->
  let r := ActionTable_Register (aheap h) (ActionTable t) (State_Index state)
             {| Action_Type := REDUCE; Action_Number := n |} (Item_Lookahead item) in
  Insert_item IsEpsilon TERMINATE state grammar t h err0 item =
    Ret ({| aheap := r.1; gheap := gheap h |}, r.2).
Proof.
  intros Hc Ha Hn r. unfold Insert_item. rewrite Hc. simpl.
  rewrite Ha, Hn. simpl. fold r. by destruct r.
Qed.

Lemma Register_accept_stores (ha : ActionHeap) (tb : nat) s a :
  wf_table ha tb ->
  let acc := {| Action_Type := ACCEPT; Action_Number := 0 |} in
  (ActionTable_Register ha tb s acc a).2 = None /\
  get (ActionTable_Register ha tb s acc a).1 tb s a = Some acc.
Proof.
  intros Hwf acc. rewrite Register_store; [|done|].
  - split; [done|]. simpl. by apply upd_get_eq.
  - intros cur _. by left.
Qed.

(** An item with the epsilon marker after the dot passes the test of
    line 29. *)
Lemma epsilon_item_completed item sym :
  index_body (Production_Body (Item_Production item)) (Item_Dot item) = Ret sym ->
  IsEpsilon sym = true ->
  item_completed IsEpsilon item = Ret true.
Proof.
  intros Hidx Heps. unfold item_completed. case_bool_decide; [done|].
  rewrite Hidx. simpl. by rewrite Heps.
Qed.

(** An item with a terminal after the dot registers the SHIFT. *)
Lemma Insert_item_shift state grammar t h err0 item a next :
  wf_table (aheap h) (ActionTable t) ->
  index_body (Production_Body (Item_Production item)) (Item_Dot item) = Ret a ->
  IsEpsilon a = false -> IsNonTerminal grammar a = false ->
  State_Transitions state !! a = Some next ->
  let sh := {| Action_Type := SHIFT; Action_Number := next |} in
  Insert_item IsEpsilon TERMINATE state grammar t h err0 item =
    Ret ({| aheap := set (ensure_row (aheap h) (ActionTable t) (State_Index state))
                       (ActionTable t) (State_Index state) a sh;
            gheap := gheap h |}, None).
Proof.
  intros Hwf Hidx Heps Hnt Htr sh.
  assert (Hc : item_completed IsEpsilon item = Ret false).
  { unfold item_completed. rewrite Hidx. simpl. rewrite Heps.
    case_bool_decide as Hd; [|done]. unfold index_body in Hidx.
    destruct (bool_decide (0 <= Item_Dot item)); [|done].
    rewrite Hd, Nat2Z.id in Hidx.
    by rewrite (lookup_ge_None_2 _ _ (Nat.le_refl _)) in Hidx. }
  unfold Insert_item. rewrite Hc. simpl. rewrite Hidx. simpl. rewrite Heps, Hnt, Htr. simpl.
  rewrite Register_store; [done | done |]. intros cur _. by left.
Qed.

(** A state whose items are a shift on [a] and then a completed item to be
    reduced on lookahead [a]: [Insert] returns the memory in which the slot
    holds the SHIFT, which is what it returns without the second item. *)
Lemma Insert_shift_reduce_unseen state grammar t h it1 it2 a next n :
  wf_table (aheap h) (ActionTable t) ->
  index_body (Production_Body (Item_Production it1)) (Item_Dot it1) = Ret a ->
  IsEpsilon a = false -> IsNonTerminal grammar a = false ->
  State_Transitions state !! a = Some next ->
  Item_Dot it2 = Z.of_nat (length (Production_Body (Item_Production it2))) ->
  accept_condition TERMINATE grammar it2 = false ->
  GetIndex grammar (Item_Production it2) = Some n ->
  Item_Lookahead it2 = a ->
  let sh := {| Action_Type := SHIFT; Action_Number := next |} in
  let h' := {| aheap := set (ensure_row (aheap h) (ActionTable t) (State_Index state))
                          (ActionTable t) (State_Index state) a sh;
               gheap := gheap h |} in
  Insert IsEpsilon TERMINATE t h (with_items state [it1; it2]) grammar = Ret h' /\
  Insert IsEpsilon TERMINATE t h (with_items state [it1]) grammar = Ret h' /\
  get (aheap h') (ActionTable t) (State_Index state) a = Some sh.
Proof.
  intros Hwf Hidx Heps Hnt Htr Hdot Hacc Hn Hla sh h'.
  assert (H1 : forall its,
            Insert_item IsEpsilon TERMINATE (with_items state its) grammar t h None it1
            = Ret (h', None)).
  { intros its.
    exact (Insert_item_shift (with_items state its) grammar t h None it1 a next
             Hwf Hidx Heps Hnt Htr). }
  assert (Hget : get (aheap h') (ActionTable t) (State_Index state) a = Some sh).
  { simpl. by apply upd_get_eq. }
  assert (Hwf' : wf_table (aheap h') (ActionTable t)).
  { simpl. by apply upd_wf. }
  assert (H2 : exists err,
            Insert_item IsEpsilon TERMINATE (with_items state [it1; it2]) grammar t h' None it2
            = Ret (h', Some err)).
  { assert (Hc : item_completed IsEpsilon it2 = Ret true).
    { unfold item_completed. by rewrite bool_decide_eq_true_2. }
    rewrite (Insert_item_reduce (with_items state [it1; it2]) grammar t h' None it2 n
               Hc Hacc Hn). simpl.
    rewrite Hla.
    rewrite (Register_shift_reduce (aheap h') (ActionTable t) (State_Index state) a sh)
      by done.
    simpl. by eexists. }
  destruct H2 as [err H2]. split_and!; [| |done].
  - unfold Insert. simpl. rewrite H1. simpl. by rewrite H2.
  - unfold Insert. simpl. by rewrite H1.
Qed.

End InsertFacts.

(** ** [maps.Clone] copies the top level only *)

Section CloneFacts.
Context {K : Type} `{Countable K} {V : Type}.
Implicit Types (h : heap K V) (t : nat) (s : Z) (k : K) (v : V).

Lemma Clone_get_copy h t s k : get (Clone h t).1 (Clone h t).2 s k = get h t s k.
Proof. unfold get. by rewrite Clone_get_row_copy. Qed.

Lemma Clone_get_old h t t' s k :
  (t' < length (tops h))%nat -> get (Clone h t).1 t' s k = get h t' s k.
Proof. intros Hlt. unfold get. by rewrite Clone_get_row_old. Qed.

Lemma top_of_delete_row_other h t s t' : t ≠ t' -> top_of (delete_row h t s) t' = top_of h t'.
Proof. intros Hne. unfold top_of. simpl. by rewrite list_lookup_insert_ne. Qed.

(** Deleting a state of the copy. *)
Lemma Clone_frame_delete_row h t s s' k' :
  wf_table h t ->
  get (delete_row (Clone h t).1 (Clone h t).2 s) t s' k' = get h t s' k'.
Proof.
  intros (Ht & _). rewrite <- (Clone_get_old h t t s' k') by done.
  unfold get, get_row. rewrite top_of_delete_row_other; [done | simpl; lia].
Qed.

(** Giving a state of the copy a new row. *)
Lemma Clone_frame_make_row h t s s' k' :
  wf_table h t ->
  get (make_row (Clone h t).1 (Clone h t).2 s) t s' k' = get h t s' k'.
Proof.
  intros Hwf. pose proof Hwf as (Ht & _).
  pose proof (Clone_wf_old h t t Hwf) as (_ & Hv & _).
  rewrite <- (Clone_get_old h t t s' k') by done.
  unfold get, get_row in *. rewrite top_of_make_row by (simpl; rewrite length_app; simpl; lia).
  rewrite decide_False by (simpl; lia).
  destruct (top_of (Clone h t).1 t !! s') as [q|] eqn:Eq; [|done].
  rewrite row_of_make_row_old; [done | by eapply Hv].
Qed.

(** Storing into the copy at a state that had no row when it was copied. *)
Lemma Clone_frame_store h t s k v s' k' :
  wf_table h t -> get_row h t s = None ->
  get (set (ensure_row (Clone h t).1 (Clone h t).2 s) (Clone h t).2 s k v) t s' k'
  = get h t s' k'.
Proof.
  intros Hwf Hnone. pose proof Hwf as (Ht & _).
  pose proof (Clone_wf_old h t t Hwf) as Hwft.
  pose proof (Clone_wf_copy h t Hwf) as Hwfc.
  pose proof Hwft as (_ & Hv & _).
  set (hc := (Clone h t).1) in *. set (c := (Clone h t).2) in *.
  assert (Hc : (c < length (tops hc))%nat) by apply Hwfc.
  assert (Hct : c ≠ t) by (subst c; simpl; lia).
  assert (Hrow : get_row hc c s = None).
  { subst hc c. by rewrite Clone_get_row_copy. }
  rewrite <- (Clone_get_old h t t s' k') by done. fold hc.
  rewrite <- (ensure_row_get hc c s t s' k') by done.
  unfold ensure_row. rewrite Hrow.
  apply set_get_other_table with (p := length (rows hc)).
  - unfold get_row. rewrite top_of_make_row by done.
    rewrite decide_True by done. apply lookup_insert_eq.
  - simpl. rewrite length_app. simpl. lia.
  - intros s''. unfold get_row. rewrite top_of_make_row by done.
    rewrite decide_False by done. intros Hq.
    pose proof (Hv s'' _ Hq). lia.
Qed.

(** Storing into the copy at a state that had a row when it was copied
    stores into the row of the original. *)
Lemma Clone_shared_store h t s k v p :
  wf_table h t -> get_row h t s = Some p ->
  get (set (Clone h t).1 (Clone h t).2 s k v) t s k = Some v.
Proof.
  intros (Ht & Hv & _) Hp.
  assert (Hc : get_row (Clone h t).1 (Clone h t).2 s = Some p)
    by (by rewrite Clone_get_row_copy).
  assert (Hlt : (p < length (rows (Clone h t).1))%nat) by (by eapply Hv).
  unfold get. rewrite get_row_set, Clone_get_row_old, Hp by done.
  erewrite row_of_set by done. rewrite decide_True by done.
  apply lookup_insert_eq.
Qed.

End CloneFacts.

Lemma Register_on_copy_frame (h : ActionHeap) t s action a s' a' :
  wf_table h t -> get_row h t s = None ->
  get (ActionTable_Register (ActionTable_Copy h t).1 (ActionTable_Copy h t).2 s action a).1
      t s' a'
  = get h t s' a'.
Proof.
  intros Hwf Hnone. unfold ActionTable_Copy.
  pose proof (Clone_wf_copy h t Hwf) as Hwfc.
  rewrite Register_store; [|done|].
  - simpl. by apply Clone_frame_store.
  - intros cur Hcur. rewrite Clone_get_copy in Hcur.
    unfold get in Hcur. by rewrite Hnone in Hcur.
Qed.

(** ** The four cases of one iteration *)

Section InsertCases.
Variable IsEpsilon : Symbol -> bool.
Variable TERMINATE : Terminal.
Implicit Types (state : State) (grammar : Grammar) (t : LRTable) (h : LRHeap) (item : Item).

Lemma item_completed_false item :
  item_completed IsEpsilon item = Ret false ->
  exists a, index_body (Production_Body (Item_Production item)) (Item_Dot item) = Ret a /\
            IsEpsilon a = false.
Proof.
  unfold item_completed. case_bool_decide; [done|].
  destruct (index_body _ _) as [a| |]; simpl; [|done..].
  intros [= Ha]. eauto.
Qed.

(** The four ways in which an iteration of the loop returns.  The [continue]
    of line 38 is not among them: line 29 has taken every item with the
    epsilon marker after the dot. *)
Lemma Insert_item_inv state grammar t h err0 item h' err :
  Insert_item IsEpsilon TERMINATE state grammar t h err0 item = Ret (h', err) ->
  (item_completed IsEpsilon item = Ret true /\
   accept_condition TERMINATE grammar item = true /\
   let r := ActionTable_Register (aheap h) (ActionTable t) (State_Index state)
              {| Action_Type := ACCEPT; Action_Number := 0 |} TERMINATE in
   h' = {| aheap := r.1; gheap := gheap h |} /\ err = r.2) \/
  (item_completed IsEpsilon item = Ret true /\
   accept_condition TERMINATE grammar item = false /\
   exists n, GetIndex grammar (Item_Production item) = Some n /\
   let r := ActionTable_Register (aheap h) (ActionTable t) (State_Index state)
              {| Action_Type := REDUCE; Action_Number := n |} (Item_Lookahead item) in
   h' = {| aheap := r.1; gheap := gheap h |} /\ err = r.2) \/
  (exists a n,
     index_body (Production_Body (Item_Production item)) (Item_Dot item) = Ret a /\
     IsEpsilon a = false /\ IsNonTerminal grammar a = true /\
     State_Transitions state !! a = Some n /\
     let r := GotoTable_Register (gheap h) (GotoTable t) (State_Index state) n a in
     h' = {| aheap := aheap h; gheap := r.1 |} /\ err = None) \/
  (exists a n,
     index_body (Production_Body (Item_Production item)) (Item_Dot item) = Ret a /\
     IsEpsilon a = false /\ IsNonTerminal grammar a = false /\
     State_Transitions state !! a = Some n /\
     let r := ActionTable_Register (aheap h) (ActionTable t) (State_Index state)
                {| Action_Type := SHIFT; Action_Number := n |} a in
     h' = {| aheap := r.1; gheap := gheap h |} /\ err = r.2).
Proof.
  unfold Insert_item. intros Hstep.
  destruct (item_completed IsEpsilon item) as [[|]| |] eqn:Hc; simpl in Hstep; [| |done..].
  - destruct (accept_condition TERMINATE grammar item) eqn:Ha.
    + left. destruct (ActionTable_Register _ _ _ _ _) as [ha e].
      injection Hstep as <- <-. done.
    + right; left. destruct (GetIndex grammar (Item_Production item)) as [n|];
        simpl in Hstep; [|done].
      destruct (ActionTable_Register _ _ _ _ _) as [ha e] eqn:Hr.
      injection Hstep as <- <-. split_and!; try done. exists n. by rewrite Hr.
  - destruct (item_completed_false item Hc) as (a & Hidx & Heps).
    rewrite Hidx in Hstep. simpl in Hstep. rewrite Heps in Hstep.
    destruct (IsNonTerminal grammar a) eqn:Hnt.
    + right; right; left.
      destruct (State_Transitions state !! a) as [n|] eqn:Htr; simpl in Hstep; [|done].
      injection Hstep as <- <-. exists a, n. by split_and!.
    + right; right; right.
      destruct (State_Transitions state !! a) as [n|] eqn:Htr; simpl in Hstep; [|done].
      destruct (ActionTable_Register _ _ _ _ _) as [ha e] eqn:Hr.
      injection Hstep as <- <-. exists a, n. rewrite Hr. by split_and!.
Qed.

Lemma GotoTable_Register_wf (h : GotoHeap) (tb : nat) s n x :
  wf_table h tb -> wf_table (GotoTable_Register h tb s n x).1 tb.
Proof. intros Hwf. unfold GotoTable_Register. simpl. by apply upd_wf. Qed.

Lemma Insert_item_wf state grammar t h err0 item h' err :
  wf_lr h t ->
  Insert_item IsEpsilon TERMINATE state grammar t h err0 item = Ret (h', err) ->
  wf_lr h' t.
Proof.
  intros [Ha Hg] Hstep.
  destruct (Insert_item_inv _ _ _ _ _ _ _ _ Hstep)
    as [(_ & _ & -> & _)|[(_ & _ & n & _ & -> & _)|[(a & n & _ & _ & _ & _ & -> & _)
       |(a & n & _ & _ & _ & _ & -> & _)]]]; split; simpl; try done.
  - by apply Register_wf.
  - by apply Register_wf.
  - by apply GotoTable_Register_wf.
  - by apply Register_wf.
Qed.

End InsertCases.

(** ** [LRTable.Insert], item by item and state by state *)

Section InsertLoops.
Variable IsEpsilon : Symbol -> bool.
Variable TERMINATE : Terminal.
Implicit Types (state : State) (grammar : Grammar) (t : LRTable) (h : LRHeap) (item : Item).

(** What every iteration keeps, the loop keeps. *)
Lemma Insert_loop_keeps (P : LRHeap -> Prop) state grammar t items :
  (forall h e item h' e',
     item ∈ items -> P h ->
     Insert_item IsEpsilon TERMINATE state grammar t h e item = Ret (h', e') -> P h') ->
  forall h e h' e',
    P h -> Insert_loop IsEpsilon TERMINATE state grammar t h e items = Ret (h', e') -> P h'.
Proof.
  induction items as [|item items IH]; intros Hstep h e h' e' HP Hloop.
  - by injection Hloop as <- <-.
  - simpl in Hloop.
    destruct (Insert_item IsEpsilon TERMINATE state grammar t h e item)
      as [[h1 e1]| |] eqn:E; simpl in Hloop; [|done..].
    eapply IH; [|by eapply Hstep; [apply list_elem_of_here|..]|done].
    intros h0 e0 it h0' e0' Hin. apply Hstep. by apply list_elem_of_further.
Qed.

Lemma Insert_keeps (P : LRHeap -> Prop) state grammar t h h' :
  (forall h e item h' e',
     item ∈ State_Items state -> P h ->
     Insert_item IsEpsilon TERMINATE state grammar t h e item = Ret (h', e') -> P h') ->
  P h -> Insert IsEpsilon TERMINATE t h state grammar = Ret h' -> P h'.
Proof.
  intros Hstep HP Hins. unfold Insert in Hins.
  destruct (Insert_loop IsEpsilon TERMINATE state grammar t h None (State_Items state))
    as [[h1 e1]| |] eqn:E; simpl in Hins; [|done..].
  injection Hins as <-. by eapply Insert_loop_keeps.
Qed.

Lemma Insert_states_keeps (P : LRHeap -> Prop) grammar t states :
  (forall h state h', state ∈ states -> P h ->
     Insert IsEpsilon TERMINATE t h state grammar = Ret h' -> P h') ->
  forall h h', P h -> Insert_states IsEpsilon TERMINATE t h grammar states = Ret h' -> P h'.
Proof.
  induction states as [|state states IH]; intros Hstep h h' HP Hrun.
  - by injection Hrun as <-.
  - simpl in Hrun.
    destruct (Insert IsEpsilon TERMINATE t h state grammar) as [h1| |] eqn:E;
      simpl in Hrun; [|done..].
    eapply IH; [|by eapply Hstep; [apply list_elem_of_here|..]|done].
    intros h0 st0 h0' Hin. apply Hstep. by apply list_elem_of_further.
Qed.

Lemma Insert_wf state grammar t h h' :
  wf_lr h t -> Insert IsEpsilon TERMINATE t h state grammar = Ret h' -> wf_lr h' t.
Proof.
  intros Hwf Hins. eapply (Insert_keeps (fun h => wf_lr h t)); [|done..].
  intros h0 e item h0' e' _ Hwf0 Hstep. by eapply Insert_item_wf.
Qed.

(** One iteration leaves the rows of the other states alone, in both tables. *)
Lemma Insert_item_other_states state grammar t h err0 item h' err s :
  wf_lr h t -> s ≠ State_Index state ->
  Insert_item IsEpsilon TERMINATE state grammar t h err0 item = Ret (h', err) ->
  (forall a, get (aheap h') (ActionTable t) s a = get (aheap h) (ActionTable t) s a) /\
  (forall x, get (gheap h') (GotoTable t) s x = get (gheap h) (GotoTable t) s x).
Proof.
  intros [Ha Hg] Hs Hstep.
  destruct (Insert_item_inv _ _ _ _ _ _ _ _ _ _ Hstep)
    as [(_ & _ & -> & _)|[(_ & _ & n & _ & -> & _)|[(a & n & _ & _ & _ & _ & -> & _)
       |(a & n & _ & _ & _ & _ & -> & _)]]]; simpl; split; intros k; try done.
  - apply Register_frame; [done|]. congruence.
  - apply Register_frame; [done|]. congruence.
  - unfold GotoTable_Register. simpl. apply upd_get_ne; [done|]. congruence.
  - apply Register_frame; [done|]. congruence.
Qed.

(** One iteration empties no slot. *)
Lemma Insert_item_keeps_entries state grammar t h err0 item h' err :
  wf_lr h t ->
  Insert_item IsEpsilon TERMINATE state grammar t h err0 item = Ret (h', err) ->
  (forall s a, is_Some (get (aheap h) (ActionTable t) s a) ->
               is_Some (get (aheap h') (ActionTable t) s a)) /\
  (forall s x, is_Some (get (gheap h) (GotoTable t) s x) ->
               is_Some (get (gheap h') (GotoTable t) s x)).
Proof.
  intros [Ha Hg] Hstep.
  assert (HA : forall s0 a0 act s a,
             is_Some (get (aheap h) (ActionTable t) s a) ->
             is_Some (get (ActionTable_Register (aheap h) (ActionTable t) s0 act a0).1
                        (ActionTable t) s a)).
  { intros s0 a0 act s a Hsome.
    destruct (decide ((s, a) = (s0, a0))) as [[= -> ->]|Hne].
    - destruct (Register_cases (aheap h) (ActionTable t) s0 a0 act Ha)
        as [(cur & _ & _ & _ & -> & _)| ->]; [done|].
      simpl. rewrite upd_get_eq by done. eauto.
    - by rewrite Register_frame. }
  destruct (Insert_item_inv _ _ _ _ _ _ _ _ _ _ Hstep)
    as [(_ & _ & -> & _)|[(_ & _ & n & _ & -> & _)|[(a & n & _ & _ & _ & _ & -> & _)
       |(a & n & _ & _ & _ & _ & -> & _)]]]; simpl; split; try done; try apply HA.
  intros s x Hsome. unfold GotoTable_Register. simpl.
  destruct (decide ((s, x) = (State_Index state, a))) as [[= -> ->]|Hne].
  - rewrite upd_get_eq by done. eauto.
  - by rewrite upd_get_ne.
Qed.

End InsertLoops.

(** ** An item's turn in [LRTable.Insert] *)

Section InsertAt.
Variable IsEpsilon : Symbol -> bool.
Variable TERMINATE : Terminal.
Implicit Types (state : State) (grammar : Grammar) (t : LRTable) (h : LRHeap) (item : Item).

(** The loop over the items of a state, cut at an item. *)
Lemma Insert_loop_app state grammar t h e (pre post : list Item) :
  Insert_loop IsEpsilon TERMINATE state grammar t h e (pre ++ post) =
  '(h1, e1) ← Insert_loop IsEpsilon TERMINATE state grammar t h e pre;
  Insert_loop IsEpsilon TERMINATE state grammar t h1 e1 post.
Proof.
  revert h e. induction pre as [|item pre IH]; intros h e; [done|].
  simpl. destruct (Insert_item IsEpsilon TERMINATE state grammar t h e item)
    as [[h1 e1]| |]; simpl; [apply IH|done..].
Qed.

(** The loop over the states, cut at a state. *)
Lemma Insert_states_app t h grammar (spre spost : list State) :
  Insert_states IsEpsilon TERMINATE t h grammar (spre ++ spost) =
  h1 ← Insert_states IsEpsilon TERMINATE t h grammar spre;
  Insert_states IsEpsilon TERMINATE t h1 grammar spost.
Proof.
  revert h. induction spre as [|state spre IH]; intros h; [done|].
  simpl. destruct (Insert IsEpsilon TERMINATE t h state grammar) as [h1| |];
    simpl; [apply IH|done..].
Qed.

(** [Insert], from the turn of an item on: the iteration of the item, then
    the items after it. *)
Lemma Insert_at state grammar t h (pre post : list Item) item h1 e1 :
  State_Items state = pre ++ item :: post ->
  Insert_loop IsEpsilon TERMINATE state grammar t h None pre = Ret (h1, e1) ->
  Insert IsEpsilon TERMINATE t h state grammar =
  '(h2, e2) ← Insert_item IsEpsilon TERMINATE state grammar t h1 e1 item;
  '(h3, _) ← Insert_loop IsEpsilon TERMINATE state grammar t h2 e2 post; Ret h3.
Proof.
  intros Hitems Hpre. unfold Insert. rewrite Hitems, Insert_loop_app, Hpre. simpl.
  by destruct (Insert_item IsEpsilon TERMINATE state grammar t h1 e1 item) as [[h2 e2]| |].
Qed.

Lemma Insert_loop_wf state grammar t h e (items : list Item) h' e' :
  wf_lr h t ->
  Insert_loop IsEpsilon TERMINATE state grammar t h e items = Ret (h', e') -> wf_lr h' t.
Proof.
  intros Hwf Hloop.
  eapply (Insert_loop_keeps IsEpsilon TERMINATE (fun h0 => wf_lr h0 t)); [|done..].
  intros h0 e0 it h0' e0' _ Hwf0 Hstep. by eapply Insert_item_wf.
Qed.

(** What holds of the memory once an ACTION slot is occupied, the rest of
    the construction keeps. *)
Lemma Insert_loop_keeps_slot state grammar t h e (items : list Item) h' e' s a :
  wf_lr h t -> is_Some (get (aheap h) (ActionTable t) s a) ->
  Insert_loop IsEpsilon TERMINATE state grammar t h e items = Ret (h', e') ->
  wf_lr h' t /\ is_Some (get (aheap h') (ActionTable t) s a).
Proof.
  intros Hwf Hsome Hloop.
  eapply (Insert_loop_keeps IsEpsilon TERMINATE
            (fun h0 => wf_lr h0 t /\ is_Some (get (aheap h0) (ActionTable t) s a)));
    [|done..].
  intros h0 e0 it h0' e0' _ [Hwf0 Hsome0] Hstep. split; [by eapply Insert_item_wf|].
  by eapply (Insert_item_keeps_entries IsEpsilon TERMINATE).
Qed.

Lemma Insert_states_keeps_slot grammar t h (states : list State) h' s a :
  wf_lr h t -> is_Some (get (aheap h) (ActionTable t) s a) ->
  Insert_states IsEpsilon TERMINATE t h grammar states = Ret h' ->
  wf_lr h' t /\ is_Some (get (aheap h') (ActionTable t) s a).
Proof.
  intros Hwf Hsome Hrun.
  eapply (Insert_states_keeps IsEpsilon TERMINATE
            (fun h0 => wf_lr h0 t /\ is_Some (get (aheap h0) (ActionTable t) s a)));
    [|done..].
  intros h0 state h0' _ [Hwf0 Hsome0] Hins. unfold Insert in Hins.
  destruct (Insert_loop IsEpsilon TERMINATE state grammar t h0 None (State_Items state))
    as [[h1 e1]| |] eqn:E; simpl in Hins; [|done..].
  injection Hins as <-. by eapply Insert_loop_keeps_slot.
Qed.

Lemma Insert_states_wf grammar t h (states : list State) h' :
  wf_lr h t -> Insert_states IsEpsilon TERMINATE t h grammar states = Ret h' -> wf_lr h' t.
Proof.
  intros Hwf Hrun.
  eapply (Insert_states_keeps IsEpsilon TERMINATE (fun h0 => wf_lr h0 t)); [|done..].
  intros h0 state h0' _ Hwf0 Hins. by eapply Insert_wf.
Qed.

(** After [ActionTable.Register] the slot is occupied, whether the action was
    stored or refused. *)
Lemma Register_occupies (ha : ActionHeap) tb s a action :
  wf_table ha tb ->
  is_Some (get (ActionTable_Register ha tb s action a).1 tb s a).
Proof.
  intros Hwf.
  destruct (Register_cases ha tb s a action Hwf) as [(cur & Hcur & _ & _ & -> & _)| ->].
  - by rewrite Hcur.
  - simpl. rewrite upd_get_eq by done. eauto.
Qed.

(** The iteration of a completed item is a call of [ActionTable.Register] at
    the slot of its lookahead. *)
Lemma Insert_item_completed state grammar t h e item h' e' :
  item_completed IsEpsilon item = Ret true ->
  Insert_item IsEpsilon TERMINATE state grammar t h e item = Ret (h', e') ->
  exists action,
    h' = {| aheap := (ActionTable_Register (aheap h) (ActionTable t) (State_Index state)
                        action (Item_Lookahead item)).1;
            gheap := gheap h |}.
Proof.
  intros Hc Hstep.
  destruct (Insert_item_inv IsEpsilon TERMINATE _ _ _ _ _ _ _ _ Hstep)
    as [(_ & Ha & -> & _)|[(_ & _ & n & _ & -> & _)|[(a & n & Hidx & Heps & _)
       |(a & n & Hidx & Heps & _)]]].
  - unfold accept_condition in Ha. apply andb_true_iff in Ha as [Hl _].
    apply bool_decide_eq_true_1 in Hl. rewrite Hl. by eexists.
  - by eexists.
  - unfold item_completed in Hc. rewrite Hidx in Hc. simpl in Hc.
    case_bool_decide; [|congruence].
    unfold index_body in Hidx. case_bool_decide; [|done].
    destruct (Production_Body (Item_Production item) !! Z.to_nat (Item_Dot item)) eqn:E;
      [|done]. apply lookup_lt_Some in E. lia.
  - unfold item_completed in Hc. rewrite Hidx in Hc. simpl in Hc.
    case_bool_decide; [|congruence].
    unfold index_body in Hidx. case_bool_decide; [|done].
    destruct (Production_Body (Item_Production item) !! Z.to_nat (Item_Dot item)) eqn:E;
      [|done]. apply lookup_lt_Some in E. lia.
Qed.

(** The slot (state, lookahead) of a completed item of a state is occupied
    when [Insert] of the state returns ... *)
Lemma Insert_completed_slot state grammar t h item h' :
  wf_lr h t -> item ∈ State_Items state ->
  item_completed IsEpsilon item = Ret true ->
  Insert IsEpsilon TERMINATE t h state grammar = Ret h' ->
  wf_lr h' t /\
  is_Some (get (aheap h') (ActionTable t) (State_Index state) (Item_Lookahead item)).
Proof.
  intros Hwf Hin Hc Hins.
  apply list_elem_of_split in Hin as (pre & post & Hitems).
  unfold Insert in Hins. rewrite Hitems, Insert_loop_app in Hins.
  destruct (Insert_loop IsEpsilon TERMINATE state grammar t h None pre)
    as [[h1 e1]| |] eqn:Hpre; simpl in Hins; [|done..].
  destruct (Insert_item IsEpsilon TERMINATE state grammar t h1 e1 item)
    as [[h2 e2]| |] eqn:Hstep; simpl in Hins; [|done..].
  destruct (Insert_loop IsEpsilon TERMINATE state grammar t h2 e2 post)
    as [[h3 e3]| |] eqn:Hpost; simpl in Hins; [|done..].
  injection Hins as <-.
  pose proof (Insert_loop_wf _ _ _ _ _ _ _ _ Hwf Hpre) as Hwf1.
  pose proof (Insert_item_wf IsEpsilon TERMINATE _ _ _ _ _ _ _ _ Hwf1 Hstep) as Hwf2.
  destruct (Insert_item_completed _ _ _ _ _ _ _ _ Hc Hstep) as (action & Hh2).
  eapply Insert_loop_keeps_slot; [done| |done].
  rewrite Hh2. simpl. apply Register_occupies. by destruct Hwf1.
Qed.

(** ... and in the table that [BuildTable] returns. *)
Lemma BuildTable_completed_slot h (states : list State) grammar state item hb tb :
  state ∈ states -> item ∈ State_Items state ->
  item_completed IsEpsilon item = Ret true ->
  BuildTable IsEpsilon TERMINATE h states grammar = Ret (hb, tb) ->
  is_Some (get (aheap hb) (ActionTable tb) (State_Index state) (Item_Lookahead item)).
Proof.
  intros Hst Hin Hc Hbuild. unfold BuildTable in Hbuild.
  destruct (make_top (aheap h)) as [ha at_] eqn:Ea.
  destruct (make_top (gheap h)) as [hg gt_] eqn:Eg.
  set (t := {| ActionTable := at_; GotoTable := gt_ |}) in *.
  assert (Hwf0 : wf_lr {| aheap := ha; gheap := hg |} t).
  { split; simpl.
    - pose proof (make_top_wf (aheap h)) as Hw. by rewrite Ea in Hw.
    - pose proof (make_top_wf (gheap h)) as Hw. by rewrite Eg in Hw. }
  apply list_elem_of_split in Hst as (spre & spost & ->).
  rewrite Insert_states_app in Hbuild.
  destruct (Insert_states IsEpsilon TERMINATE t {| aheap := ha; gheap := hg |} grammar spre)
    as [h1| |] eqn:Hpre; simpl in Hbuild; [|done..].
  destruct (Insert IsEpsilon TERMINATE t h1 state grammar) as [h2| |] eqn:Hins;
    simpl in Hbuild; [|done..].
  destruct (Insert_states IsEpsilon TERMINATE t h2 grammar spost) as [h3| |] eqn:Hpost;
    simpl in Hbuild; [|done..].
  injection Hbuild as <- <-.
  pose proof (Insert_states_wf _ _ _ _ _ Hwf0 Hpre) as Hwf1.
  destruct (Insert_completed_slot _ _ _ _ _ _ Hwf1 Hin Hc Hins) as [Hwf2 Hsome].
  by eapply Insert_states_keeps_slot.
Qed.

End InsertAt.

(** * The claims about the LR tables *)




(** C3 (as amended).  [Copy] is [maps.Clone]: it returns a new top-level map
    that holds the same row references as the original.  The copy answers
    every lookup as the original does, and a mutation of the copy's top level
    leaves every lookup on the original as it was: deleting a state of the
    copy, giving a state of the copy a new row, and registering through the
    copy at a state that had no row when the copy was taken.  The rows that
    existed when the copy was taken are shared: a value stored through the
    copy into such a row is what the original finds there. *)
Theorem C3_Copy_is_top_level_clone :
  (forall (h : ActionHeap) (t : nat),
     wf_table h t ->
     let hc := (ActionTable_Copy h t).1 in
     let c := (ActionTable_Copy h t).2 in
     c ≠ t /\
     (forall s a, get hc c s a = get h t s a) /\
     (forall s a, get hc t s a = get h t s a) /\
     (forall s s' a', get (delete_row hc c s) t s' a' = get h t s' a') /\
     (forall s s' a', get (make_row hc c s) t s' a' = get h t s' a') /\
     (forall s action a s' a',
        get_row h t s = None ->
        get (ActionTable_Register hc c s action a).1 t s' a' = get h t s' a') /\
     (forall s p a action,
        get_row h t s = Some p -> get (set hc c s a action) t s a = Some action)) /\
  (forall (h : GotoHeap) (t : nat),
     wf_table h t ->
     let hc := (GotoTable_Copy h t).1 in
     let c := (GotoTable_Copy h t).2 in
     c ≠ t /\
     (forall s x, get hc c s x = get h t s x) /\
     (forall s x, get hc t s x = get h t s x) /\
     (forall s s' x', get (delete_row hc c s) t s' x' = get h t s' x') /\
     (forall s s' x', get (make_row hc c s) t s' x' = get h t s' x') /\
     (forall s next x s' x',
        get_row h t s = None ->
        get (GotoTable_Register hc c s next x).1 t s' x' = get h t s' x') /\
     (forall s p x next,
        get_row h t s = Some p -> get (set hc c s x next) t s x = Some next)).
Proof.
  split; intros h t Hwf hc c; pose proof Hwf as (Ht & _).
  - split_and!.
    + subst c. simpl. lia.
    + intros. apply Clone_get_copy.
    + intros. by apply Clone_get_old.
    + intros. by apply Clone_frame_delete_row.
    + intros. by apply Clone_frame_make_row.
    + intros. by apply Register_on_copy_frame.
    + intros. by eapply Clone_shared_store.
  - split_and!.
    + subst c. simpl. lia.
    + intros. apply Clone_get_copy.
    + intros. by apply Clone_get_old.
    + intros. by apply Clone_frame_delete_row.
    + intros. by apply Clone_frame_make_row.
    + intros. unfold GotoTable_Register. simpl. by apply Clone_frame_store.
    + intros. by eapply Clone_shared_store.
Qed.

Lemma C3_Copy_is_top_level_clone_witness :
  let h := (ActionTable_Register (make_top (@empty_heap Action)).1 0 0
              {| Action_Type := SHIFT; Action_Number := 1 |} "a").1 in
  let hc := (ActionTable_Copy h 0).1 in
  let c := (ActionTable_Copy h 0).2 in
  get (ActionTable_Register hc c 5 {| Action_Type := SHIFT; Action_Number := 2 |} "b").1 0 0 "a"
  = get h 0 0 "a".
Proof.
  intros h hc c.
  assert (Hwf : wf_table h 0).
  { apply Register_wf. apply (make_top_wf empty_heap). }
  destruct C3_Copy_is_top_level_clone as [Ha _].
  destruct (Ha h 0%nat Hwf) as (_ & _ & _ & _ & _ & Hreg & _).
  apply Hreg. by vm_compute.
Defined.

(** C3, as stated, fails.  A table with one row, for state 0, is copied.
    Registering SHIFT 2 at (0, b) through the copy inserts it into the row
    that the original holds too, and registering ACCEPT at (0, a) through the
    copy overwrites the original's SHIFT 1: two lookups on the original
    change.  The same happens to a GOTO table. *)
Lemma C3_copy_mutation_reaches_original :
  let h := (ActionTable_Register (make_top (@empty_heap Action)).1 0 0
              {| Action_Type := SHIFT; Action_Number := 1 |} "a").1 in
  let hc := (ActionTable_Copy h 0).1 in
  let c := (ActionTable_Copy h 0).2 in
  let h1 := (ActionTable_Register hc c 0 {| Action_Type := SHIFT; Action_Number := 2 |} "b").1 in
  let h2 := (ActionTable_Register hc c 0 {| Action_Type := ACCEPT; Action_Number := 0 |} "a").1 in
  let g := (GotoTable_Register (make_top (@empty_heap Z)).1 0 0 1 "S").1 in
  let g1 := (GotoTable_Register (GotoTable_Copy g 0).1 (GotoTable_Copy g 0).2 0 7 "S").1 in
  (get h 0 0 "b" = None /\
   get h1 0 0 "b" = Some {| Action_Type := SHIFT; Action_Number := 2 |}) /\
  (get h 0 0 "a" = Some {| Action_Type := SHIFT; Action_Number := 1 |} /\
   get h2 0 0 "a" = Some {| Action_Type := ACCEPT; Action_Number := 0 |}) /\
  (get g 0 0 "S" = Some 1 /\ get g1 0 0 "S" = Some 7).
Proof. by vm_compute. Qed.

(** C4.  Let [item] be a completed item of [state] (the dot at the end of the
    body, or the epsilon marker at the dot), [pre] the items before it and
    [post] the items after it, and let the iterations of [LRTable.Insert] for
    [pre] have returned the memory [h1].

    If the lookahead is TERMINATE and the production equals the augmented
    production, the iteration of the item is exactly the call that registers
    ACCEPT at (state, TERMINATE): [Insert] of the state is that call on [h1]
    followed by the iterations for [post].  The call stores ACCEPT whatever
    the slot held and reports nothing, so no REDUCE is registered for the
    item.  Otherwise, with [n] the grammar's index of the production, the
    iteration is exactly the call that registers REDUCE [n] at
    (state, lookahead), and [Insert] of the state is that call on [h1]
    followed by the iterations for [post]: the slot then holds REDUCE [n],
    unless it held a SHIFT or a REDUCE, in which case the table keeps what it
    had and the call reports a conflict.  The GOTO table is not touched.

    Later iterations may overwrite the slot but never empty it: when [Insert]
    of the state returns, the slot (state, lookahead) holds an entry, and so
    it does in the table that [BuildTable] returns for any list of states
    that has [state] in it. *)
Theorem C4_completed_item_accept_or_reduce
    (IsEpsilon : Symbol -> bool) (TERMINATE : Terminal)
    (grammar : Grammar) (t : LRTable) (h : LRHeap)
    (state : State) (pre post : list Item) (item : Item)
    (h1 : LRHeap) (e1 : option error) :
  wf_lr h t ->
  State_Items state = pre ++ item :: post ->
  (Item_Dot item = Z.of_nat (length (Production_Body (Item_Production item))) \/
   exists sym,
     index_body (Production_Body (Item_Production item)) (Item_Dot item) = Ret sym /\
     IsEpsilon sym = true) ->
  Insert_loop IsEpsilon TERMINATE state grammar t h None pre = Ret (h1, e1) ->
  let s := State_Index state in
  let rest (r : ActionHeap * option error) : res LRHeap :=
    '(h2, _) ← Insert_loop IsEpsilon TERMINATE state grammar t
                 {| aheap := r.1; gheap := gheap h1 |} r.2 post;
    Ret h2 in
  (Item_Lookahead item = TERMINATE ->
   Production_Equals (Item_Production item) (AugmentedProduction grammar) = true ->
   let acc := {| Action_Type := ACCEPT; Action_Number := 0 |} in
   let r := ActionTable_Register (aheap h1) (ActionTable t) s acc TERMINATE in
   Insert_item IsEpsilon TERMINATE state grammar t h1 e1 item
     = Ret ({| aheap := r.1; gheap := gheap h1 |}, None) /\
   Insert IsEpsilon TERMINATE t h state grammar = rest r /\
   r.2 = None /\
   get r.1 (ActionTable t) s TERMINATE = Some acc) /\
  (~ (Item_Lookahead item = TERMINATE /\
      Production_Equals (Item_Production item) (AugmentedProduction grammar) = true) ->
   forall n, GetIndex grammar (Item_Production item) = Some n ->
   let rd := {| Action_Type := REDUCE; Action_Number := n |} in
   let r := ActionTable_Register (aheap h1) (ActionTable t) s rd (Item_Lookahead item) in
   Insert_item IsEpsilon TERMINATE state grammar t h1 e1 item
     = Ret ({| aheap := r.1; gheap := gheap h1 |}, r.2) /\
   Insert IsEpsilon TERMINATE t h state grammar = rest r /\
   ((exists cur, get (aheap h1) (ActionTable t) s (Item_Lookahead item) = Some cur /\
                 (Action_Type cur = SHIFT \/ Action_Type cur = REDUCE) /\
                 r.1 = aheap h1 /\ is_Some r.2) \/
    (get r.1 (ActionTable t) s (Item_Lookahead item) = Some rd /\ r.2 = None))) /\
  (forall h', Insert IsEpsilon TERMINATE t h state grammar = Ret h' ->
     is_Some (get (aheap h') (ActionTable t) s (Item_Lookahead item))) /\
  (forall h0 states hb tb,
     state ∈ states ->
     BuildTable IsEpsilon TERMINATE h0 states grammar = Ret (hb, tb) ->
     is_Some (get (aheap hb) (ActionTable tb) s (Item_Lookahead item))).
Proof.
  intros Hwf Hitems Hdot Hpre s rest.
  assert (Hc : item_completed IsEpsilon item = Ret true).
  { destruct Hdot as [Hend|(sym & Hidx & Heps)].
    - unfold item_completed. by rewrite bool_decide_eq_true_2.
    - by eapply epsilon_item_completed. }
  assert (Hin : item ∈ State_Items state).
  { rewrite Hitems. apply elem_of_app. right. by left. }
  assert (Hwf1 : wf_table (aheap h1) (ActionTable t)).
  { by destruct (Insert_loop_wf IsEpsilon TERMINATE _ _ _ _ _ _ _ _ Hwf Hpre). }
  pose proof (Insert_at IsEpsilon TERMINATE state grammar t h pre post item h1 e1
                Hitems Hpre) as Hat.
  split_and!.
  - intros Hla Heq acc r.
    assert (Ha : accept_condition TERMINATE grammar item = true).
    { unfold accept_condition. by rewrite Heq, bool_decide_eq_true_2. }
    destruct (Register_accept_stores (aheap h1) (ActionTable t) s TERMINATE Hwf1) as [He Hg].
    pose proof (Insert_item_accept IsEpsilon TERMINATE state grammar t h1 e1 item Hc Ha)
      as Hstep. simpl in Hstep. fold s acc r in Hstep. fold acc r in He, Hg.
    split_and!; [by rewrite Hstep, He| |done..].
    rewrite Hat, Hstep. done.
  - intros Hno n Hn rd r.
    assert (Ha : accept_condition TERMINATE grammar item = false).
    { unfold accept_condition. apply andb_false_iff.
      destruct (decide (Item_Lookahead item = TERMINATE)) as [Hl|Hl].
      - right. apply not_true_is_false. intros Heq. by apply Hno.
      - left. by apply bool_decide_eq_false_2. }
    pose proof (Insert_item_reduce IsEpsilon TERMINATE state grammar t h1 e1 item n Hc Ha Hn)
      as Hstep. simpl in Hstep. fold s rd r in Hstep.
    split_and!; [done|by rewrite Hat, Hstep|].
    destruct (Register_cases (aheap h1) (ActionTable t) s (Item_Lookahead item) rd Hwf1)
      as [(cur & Hcur & Hty & _ & Hh & He)|Hst].
    + left. exists cur. by fold r in Hh, He.
    + right. fold r in Hst. rewrite Hst. simpl. split; [|done]. by apply upd_get_eq.
  - intros h' Hins.
    by destruct (Insert_completed_slot IsEpsilon TERMINATE _ _ _ _ _ _ Hwf Hin Hc Hins).
  - intros h0 states hb tb Hst Hbuild.
    by eapply (BuildTable_completed_slot IsEpsilon TERMINATE).
Qed.

Lemma C4_completed_item_accept_or_reduce_witness :
  let state := sample_state [item_shift_a; item_accept; item_reduce_a] in
  let h1 := {| aheap := (ActionTable_Register (aheap fresh_lr_heap) 0 0
                           {| Action_Type := SHIFT; Action_Number := 2 |} "a").1;
               gheap := gheap fresh_lr_heap |} in
  let acc := {| Action_Type := ACCEPT; Action_Number := 0 |} in
  let r := ActionTable_Register (aheap h1) 0 0 acc sample_TERMINATE in
  Insert sample_IsEpsilon sample_TERMINATE fresh_lr_table fresh_lr_heap state sample_grammar
    = ('(h2, _) ← Insert_loop sample_IsEpsilon sample_TERMINATE state sample_grammar
                    fresh_lr_table {| aheap := r.1; gheap := gheap h1 |} r.2 [item_reduce_a];
       Ret h2) /\
  get r.1 0 0 sample_TERMINATE = Some acc /\
  (exists hb tb,
     BuildTable sample_IsEpsilon sample_TERMINATE
       {| aheap := empty_heap; gheap := empty_heap |} [state] sample_grammar = Ret (hb, tb) /\
     is_Some (get (aheap hb) (ActionTable tb) 0 "$")).
Proof.
  intros state h1 acc r.
  destruct (C4_completed_item_accept_or_reduce sample_IsEpsilon sample_TERMINATE
              sample_grammar fresh_lr_table fresh_lr_heap state
              [item_shift_a] [item_reduce_a] item_accept h1 None)
    as (Hacc & _ & _ & Hbuild).
  - split; apply (make_top_wf empty_heap).
  - reflexivity.
  - left. reflexivity.
  - by vm_compute.
  - destruct (Hacc eq_refl eq_refl) as (_ & Hins & _ & Hget).
    split; [exact Hins|]. split; [exact Hget|].
    assert (Hb : exists hb,
              BuildTable sample_IsEpsilon sample_TERMINATE
                {| aheap := empty_heap; gheap := empty_heap |} [state] sample_grammar
              = Ret (hb, fresh_lr_table)).
    { eexists. by vm_compute. }
    destruct Hb as [hb Hb]. exists hb, fresh_lr_table. split; [exact Hb|].
    exact (Hbuild _ [state] hb fresh_lr_table (list_elem_of_here _ _) Hb).
Defined.

(** C2 (as amended).  Let [item] be an item of [state] whose symbol
    immediately after the dot is the epsilon marker, [pre] the items before
    it and [post] the items after it, and let the iterations of
    [LRTable.Insert] for [pre] have returned the memory [h1].  The item is a
    completed item for [Insert]: the test of line 29 holds, so the
    [continue] of line 38 is never reached.  Its iteration is exactly one
    call of [ActionTable.Register] at (state, lookahead), of ACCEPT when the
    lookahead is TERMINATE and the production is the augmented one, and
    otherwise of REDUCE with the grammar's index of the production; [Insert]
    of the state is that call on [h1] followed by the iterations for [post].
    The call leaves the GOTO table and its memory untouched and changes no
    ACTION slot other than (state, lookahead), which keeps what it held (a
    refused REDUCE) or holds the ACCEPT or REDUCE, never a SHIFT.  The slot
    holds an entry in the table that [BuildTable] returns for any list of
    states that has [state] in it. *)
Theorem C2_epsilon_item_is_completed
    (IsEpsilon : Symbol -> bool) (TERMINATE : Terminal)
    (grammar : Grammar) (t : LRTable) (h : LRHeap)
    (state : State) (pre post : list Item) (item : Item) (sym : Symbol)
    (h1 : LRHeap) (e1 : option error) :
  wf_lr h t ->
  State_Items state = pre ++ item :: post ->
  index_body (Production_Body (Item_Production item)) (Item_Dot item) = Ret sym ->
  IsEpsilon sym = true ->
  accept_condition TERMINATE grammar item = true
    \/ is_Some (GetIndex grammar (Item_Production item)) ->
  Insert_loop IsEpsilon TERMINATE state grammar t h None pre = Ret (h1, e1) ->
  let s := State_Index state in
  item_completed IsEpsilon item = Ret true /\
  (exists action,
     ((accept_condition TERMINATE grammar item = true /\
       action = {| Action_Type := ACCEPT; Action_Number := 0 |}) \/
      (accept_condition TERMINATE grammar item = false /\
       exists n, GetIndex grammar (Item_Production item) = Some n /\
                 action = {| Action_Type := REDUCE; Action_Number := n |})) /\
     let r := ActionTable_Register (aheap h1) (ActionTable t) s action (Item_Lookahead item) in
     Insert_item IsEpsilon TERMINATE state grammar t h1 e1 item
       = Ret ({| aheap := r.1; gheap := gheap h1 |}, r.2) /\
     Insert IsEpsilon TERMINATE t h state grammar
       = ('(h2, _) ← Insert_loop IsEpsilon TERMINATE state grammar t
                       {| aheap := r.1; gheap := gheap h1 |} r.2 post;
          Ret h2) /\
     (r.1 = aheap h1 \/ get r.1 (ActionTable t) s (Item_Lookahead item) = Some action) /\
     (forall s' a', (s', a') ≠ (s, Item_Lookahead item) ->
        get r.1 (ActionTable t) s' a' = get (aheap h1) (ActionTable t) s' a')) /\
  (forall h0 states hb tb,
     state ∈ states ->
     BuildTable IsEpsilon TERMINATE h0 states grammar = Ret (hb, tb) ->
     is_Some (get (aheap hb) (ActionTable tb) s (Item_Lookahead item))).
Proof.
  intros Hwf Hitems Hidx Heps Hret Hpre s.
  pose proof (epsilon_item_completed IsEpsilon item sym Hidx Heps) as Hc.
  assert (Hin : item ∈ State_Items state).
  { rewrite Hitems. apply elem_of_app. right. by left. }
  assert (Hwf1 : wf_table (aheap h1) (ActionTable t)).
  { by destruct (Insert_loop_wf IsEpsilon TERMINATE _ _ _ _ _ _ _ _ Hwf Hpre). }
  pose proof (Insert_at IsEpsilon TERMINATE state grammar t h pre post item h1 e1
                Hitems Hpre) as Hat.
  split; [exact Hc|]. split.
  - assert (Hcall : forall action,
              Insert_item IsEpsilon TERMINATE state grammar t h1 e1 item
                = Ret ({| aheap := (ActionTable_Register (aheap h1) (ActionTable t) s action
                                      (Item_Lookahead item)).1;
                          gheap := gheap h1 |},
                       (ActionTable_Register (aheap h1) (ActionTable t) s action
                          (Item_Lookahead item)).2) ->
              let r := ActionTable_Register (aheap h1) (ActionTable t) s action
                         (Item_Lookahead item) in
              Insert_item IsEpsilon TERMINATE state grammar t h1 e1 item
                = Ret ({| aheap := r.1; gheap := gheap h1 |}, r.2) /\
              Insert IsEpsilon TERMINATE t h state grammar
                = ('(h2, _) ← Insert_loop IsEpsilon TERMINATE state grammar t
                                {| aheap := r.1; gheap := gheap h1 |} r.2 post;
                   Ret h2) /\
              (r.1 = aheap h1 \/
               get r.1 (ActionTable t) s (Item_Lookahead item) = Some action) /\
              (forall s' a', (s', a') ≠ (s, Item_Lookahead item) ->
                 get r.1 (ActionTable t) s' a' = get (aheap h1) (ActionTable t) s' a')).
    { intros action Hstep r. split_and!; [done|by rewrite Hat, Hstep| |].
      - destruct (Register_cases (aheap h1) (ActionTable t) s (Item_Lookahead item)
                    action Hwf1) as [(cur & _ & _ & _ & Hh & _)|Hst].
        + by left.
        + right. subst r. rewrite Hst. simpl. by apply upd_get_eq.
      - intros s' a' Hne. by apply Register_frame. }
    destruct (accept_condition TERMINATE grammar item) eqn:Ha.
    + exists {| Action_Type := ACCEPT; Action_Number := 0 |}. split; [by left|].
      apply Hcall.
      pose proof Ha as Ha'. unfold accept_condition in Ha'.
      apply andb_true_iff in Ha' as [Hl _]. apply bool_decide_eq_true_1 in Hl.
      rewrite Hl. by apply Insert_item_accept.
    + destruct Hret as [?|[n Hn]]; [done|].
      exists {| Action_Type := REDUCE; Action_Number := n |}. split; [right; eauto|].
      apply Hcall. by apply Insert_item_reduce.
  - intros h0 states hb tb Hst Hbuild.
    by eapply (BuildTable_completed_slot IsEpsilon TERMINATE).
Qed.

Lemma C2_epsilon_item_is_completed_witness :
  let state := sample_state [item_shift_a; item_eps] in
  let h1 := {| aheap := (ActionTable_Register (aheap fresh_lr_heap) 0 0
                           {| Action_Type := SHIFT; Action_Number := 2 |} "a").1;
               gheap := gheap fresh_lr_heap |} in
  let rd := {| Action_Type := REDUCE; Action_Number := 2 |} in
  let r := ActionTable_Register (aheap h1) 0 0 rd "$" in
  item_completed sample_IsEpsilon item_eps = Ret true /\
  Insert sample_IsEpsilon sample_TERMINATE fresh_lr_table fresh_lr_heap state sample_grammar
    = Ret {| aheap := r.1; gheap := gheap h1 |} /\
  get r.1 0 0 "$" = Some rd /\
  (exists hb tb,
     BuildTable sample_IsEpsilon sample_TERMINATE
       {| aheap := empty_heap; gheap := empty_heap |} [state] sample_grammar = Ret (hb, tb) /\
     is_Some (get (aheap hb) (ActionTable tb) 0 "$")).
Proof.
  intros state h1 rd r.
  destruct (C2_epsilon_item_is_completed sample_IsEpsilon sample_TERMINATE
              sample_grammar fresh_lr_table fresh_lr_heap state
              [item_shift_a] [] item_eps "eps" h1 None)
    as (Hc & (action & Hact & _ & Hins & Hslot & _) & Hbuild).
  - split; apply (make_top_wf empty_heap).
  - reflexivity.
  - reflexivity.
  - reflexivity.
  - right. by exists 2.
  - by vm_compute.
  - assert (Haction : action = rd).
    { destruct Hact as [[Ha _]|(_ & n & Hn & ->)]; [discriminate Ha|].
      injection Hn as <-. reflexivity. }
    subst action. split; [exact Hc|]. split; [exact Hins|]. split.
    + destruct Hslot as [Hsame|Hget]; [|exact Hget].
      assert (Hdiff : r.1 <> aheap h1).
      { intros E. apply (f_equal (fun x => get x 0 0 "$"%string)) in E.
        vm_compute in E. discriminate E. }
      destruct (Hdiff Hsame).
    + assert (Hb : exists hb,
                BuildTable sample_IsEpsilon sample_TERMINATE
                  {| aheap := empty_heap; gheap := empty_heap |} [state] sample_grammar
                = Ret (hb, fresh_lr_table)).
      { eexists. by vm_compute. }
      destruct Hb as [hb Hb]. exists hb, fresh_lr_table. split; [exact Hb|].
      exact (Hbuild _ [state] hb fresh_lr_table (list_elem_of_here _ _) Hb).
Defined.

(** C2, as stated, fails.  In state 0 of the sample grammar the item
    [S -> . eps, $] has the epsilon marker after the dot; on a fresh table
    its iteration adds REDUCE 2 at (0, $) to the ACTION table. *)
Lemma C2_epsilon_item_adds_reduce :
  index_body (Production_Body (Item_Production item_eps)) (Item_Dot item_eps) = Ret "eps"%string /\
  sample_IsEpsilon "eps" = true /\
  (exists h' err,
     Insert_item sample_IsEpsilon sample_TERMINATE (sample_state [item_eps]) sample_grammar
       fresh_lr_table fresh_lr_heap None item_eps = Ret (h', err) /\
     get (aheap fresh_lr_heap) 0 0 "$" = None /\
     get (aheap h') 0 0 "$" = Some {| Action_Type := REDUCE; Action_Number := 2 |}) /\
  (exists h' t,
     BuildTable sample_IsEpsilon sample_TERMINATE
       {| aheap := empty_heap; gheap := empty_heap |} [sample_state [item_eps]] sample_grammar
       = Ret (h', t) /\
     get (aheap h') (ActionTable t) 0 "$"
       = Some {| Action_Type := REDUCE; Action_Number := 2 |}).
Proof.
  split; [by vm_compute|]. split; [by vm_compute|]. split.
  - exists (match Insert_item sample_IsEpsilon sample_TERMINATE (sample_state [item_eps])
                    sample_grammar fresh_lr_table fresh_lr_heap None item_eps with
            | Ret (h', _) => h'
            | _ => fresh_lr_heap
            end), None.
    by vm_compute.
  - exists (match BuildTable sample_IsEpsilon sample_TERMINATE
                    {| aheap := empty_heap; gheap := empty_heap |}
                    [sample_state [item_eps]] sample_grammar with
            | Ret (h', _) => h'
            | _ => fresh_lr_heap
            end), fresh_lr_table.
    by vm_compute.
Qed.

(** * The symbol table *)

(** ** Rounding to words *)

Lemma ceil4_nonneg n : 0 <= n -> 0 <= ceil4 n.
Proof. unfold ceil4. intros. Z.div_mod_to_equations. lia. Qed.

Lemma ceil4_pos n : 0 < n -> 0 < ceil4 n.
Proof. unfold ceil4. intros. Z.div_mod_to_equations. lia. Qed.

Lemma ceil4_le n : 0 <= n -> ceil4 n <= n.
Proof. unfold ceil4. intros. Z.div_mod_to_equations. lia. Qed.

(** The two statements of the source add the ceiling of [n / 4], for a
    non-negative [n]. *)
Lemma advance_ceil4 c n :
  0 <= n <= GoInt.int_max -> advance c n = GoInt.add c (ceil4 n).
Proof.
  intros Hn. unfold advance, GoInt.div, GoInt.mul.
  assert (Hq : Z.quot n 4 = n / 4) by (apply Z.quot_div_nonneg; lia).
  rewrite Hq.
  assert (Hr : GoInt.in_range (n / 4)).
  { unfold GoInt.in_range, GoInt.int_min, GoInt.int_max in *.
    Z.div_mod_to_equations. lia. }
  rewrite (wrap_id _ Hr).
  assert (Hr' : GoInt.in_range (n / 4 * 4)).
  { unfold GoInt.in_range, GoInt.int_min, GoInt.int_max in *.
    Z.div_mod_to_equations. lia. }
  rewrite (wrap_id _ Hr').
  case_bool_decide as Hm.
  - rewrite add_add. f_equal. unfold ceil4. Z.div_mod_to_equations. lia.
  - f_equal. unfold ceil4. Z.div_mod_to_equations. lia.
Qed.

(** The rounding at the sizes 1, 3, 4, 5 and 8. *)
Lemma advance_word_boundaries c :
  advance c 1 = GoInt.add c 1 /\ advance c 3 = GoInt.add c 1 /\
  advance c 4 = GoInt.add c 1 /\ advance c 5 = GoInt.add c 2 /\
  advance c 8 = GoInt.add c 2.
Proof.
  split_and!; rewrite advance_ceil4 by (unfold GoInt.int_max; lia); reflexivity.
Qed.

Lemma advance_exact c n :
  0 <= n <= GoInt.int_max -> GoInt.in_range (c + ceil4 n) ->
  advance c n = c + ceil4 n.
Proof. intros Hn Hc. rewrite advance_ceil4 by done. by apply add_exact. Qed.

(** ** [Register] *)

Section RegisterItemFacts.
Implicit Types (m : Store) (st : SymbolTable) (item cur : nat)
  (sc : Scope) (it : SymbolTableItem).

Lemma Register_no_scope m st item :
  CurrentScope st = None ->
  Register m st item = Ret (m, st, Some (Errorf "no scope to register item" [])).
Proof. intros Hc. unfold Register. by rewrite Hc. Qed.

Lemma Register_duplicate m st item cur sc it :
  CurrentScope st = Some cur -> load_scope m cur = Ret sc -> load_item m item = Ret it ->
  is_Some (Items sc !! Item_Variable it) ->
  Register m st item =
    Ret (m, st, Some (Errorf "item %s already exists in scope" [ArgStr (Item_Variable it)])).
Proof.
  intros Hc Hsc Hit Hdup. unfold Register. rewrite Hc, Hsc. simpl. rewrite Hit. simpl.
  by rewrite bool_decide_eq_true_2.
Qed.

Lemma Register_bad_size m st item cur sc it :
  CurrentScope st = Some cur -> load_scope m cur = Ret sc -> load_item m item = Ret it ->
  Items sc !! Item_Variable it = None -> VariableSize it <= 0 ->
  Register m st item =
    Ret (m, st, Some (Errorf "invalid variable size for item %s" [ArgStr (Item_Variable it)])).
Proof.
  intros Hc Hsc Hit Hnew Hsz. unfold Register. rewrite Hc, Hsc. simpl. rewrite Hit. simpl.
  rewrite bool_decide_eq_false_2 by (rewrite Hnew; by intros [? ?]).
  by rewrite bool_decide_eq_true_2.
Qed.

Lemma Register_ok m st item cur sc it :
  CurrentScope st = Some cur -> load_scope m cur = Ret sc -> load_item m item = Ret it ->
  Items sc !! Item_Variable it = None -> 0 < VariableSize it ->
  Register m st item =
    Ret (if allocates it
         then (store_item (declare m cur sc item it) item (set_Address (addrCounter st) it),
               set_addrCounter (advance (addrCounter st) (alloc_bytes it)) st, None)
         else (declare m cur sc item it, st, None)).
Proof.
  intros Hc Hsc Hit Hnew Hsz. unfold Register. rewrite Hc, Hsc. simpl. rewrite Hit. simpl.
  rewrite bool_decide_eq_false_2 by (rewrite Hnew; by intros [? ?]).
  rewrite bool_decide_eq_false_2 by lia.
  unfold allocates, alloc_bytes.
  destruct (bool_decide (Item_Type it = SymbolTableItemTypeVariable)); [done|].
  by destruct (bool_decide (Item_Type it = SymbolTableItemTypeArray)).
Qed.

(** What a returning call found, by its error. *)
Lemma Register_inv m st item m' st' err :
  Register m st item = Ret (m', st', err) ->
  (CurrentScope st = None /\ m' = m /\ st' = st /\
     err = Some (Errorf "no scope to register item" [])) \/
  exists cur sc it,
    CurrentScope st = Some cur /\ load_scope m cur = Ret sc /\ load_item m item = Ret it /\
    ((is_Some (Items sc !! Item_Variable it) /\ m' = m /\ st' = st /\
        err = Some (Errorf "item %s already exists in scope" [ArgStr (Item_Variable it)])) \/
     (Items sc !! Item_Variable it = None /\ VariableSize it <= 0 /\ m' = m /\ st' = st /\
        err = Some (Errorf "invalid variable size for item %s" [ArgStr (Item_Variable it)])) \/
     (Items sc !! Item_Variable it = None /\ 0 < VariableSize it /\ err = None /\
        (m', st') =
          if allocates it
          then (store_item (declare m cur sc item it) item (set_Address (addrCounter st) it),
                set_addrCounter (advance (addrCounter st) (alloc_bytes it)) st)
          else (declare m cur sc item it, st))).
Proof.
  intros Hreg. destruct (CurrentScope st) as [cur|] eqn:Hc.
  - right. destruct (load_scope m cur) as [sc| |] eqn:Hsc;
      [|unfold Register in Hreg; rewrite Hc, Hsc in Hreg; discriminate..].
    destruct (load_item m item) as [it| |] eqn:Hit;
      [|unfold Register in Hreg; rewrite Hc, Hsc in Hreg; simpl in Hreg;
        rewrite Hit in Hreg; discriminate..].
    exists cur, sc, it. repeat split; try done.
    destruct (Items sc !! Item_Variable it) as [old|] eqn:Hold.
    + left. rewrite (Register_duplicate m st item cur sc it) in Hreg by (rewrite ?Hold; eauto).
      by injection Hreg as <- <- <-.
    + right. destruct (decide (VariableSize it <= 0)) as [Hsz|Hsz].
      * left. rewrite (Register_bad_size m st item cur sc it) in Hreg by done.
        by injection Hreg as <- <- <-.
      * right. rewrite (Register_ok m st item cur sc it) in Hreg by (done || lia).
        repeat split; [lia|..]; destruct (allocates it); by injection Hreg as <- <- <-.
  - left. rewrite Register_no_scope in Hreg by done. by injection Hreg as <- <- <-.
Qed.

Lemma load_scope_declare m cur sc item it :
  load_scope m cur = Ret sc ->
  load_scope (declare m cur sc item it) cur =
    Ret (set_Items (<[Item_Variable it := item]> (Items sc)) sc).
Proof.
  unfold load_scope, declare, store_scope. simpl. intros Hsc.
  destruct (scopes m !! cur) as [sc0|] eqn:E; [|done].
  rewrite list_lookup_insert_eq; [done | by eapply lookup_lt_Some].
Qed.

Lemma load_item_store_item m item it0 it :
  load_item m item = Ret it0 ->
  load_item (store_item m item it) item = Ret it.
Proof.
  unfold load_item, store_item. simpl. intros Hit.
  destruct (items m !! item) as [x|] eqn:E; [|done].
  rewrite list_lookup_insert_eq; [done | by eapply lookup_lt_Some].
Qed.

Lemma load_item_store_item_ne m item item' it :
  item ≠ item' -> load_item (store_item m item it) item' = load_item m item'.
Proof.
  intros Hne. unfold load_item, store_item. simpl. by rewrite list_lookup_insert_ne.
Qed.

End RegisterItemFacts.

(** * The claims about the symbol table *)

(** C10.  Whenever [Register] returns an error, the error is one of the
    three (no open scope, a name already in the current scope, a size that is
    not positive) and nothing has changed: the memory, which holds every
    scope's declaration map and the item with its [Address], is the same, and
    so is the table with its address counter. *)
Theorem C10_register_error_changes_nothing
    (m : Store) (st : SymbolTable) (item : nat) (m' : Store) (st' : SymbolTable) (e : error) :
  Register m st item = Ret (m', st', Some e) ->
  m' = m /\ st' = st /\
  load_item m' item = load_item m item /\
  addrCounter st' = addrCounter st /\
  (forall cur, load_scope m' cur = load_scope m cur) /\
  (e = Errorf "no scope to register item" [] \/
   exists cur sc it,
     CurrentScope st = Some cur /\ load_scope m cur = Ret sc /\ load_item m item = Ret it /\
     ((is_Some (Items sc !! Item_Variable it) /\
         e = Errorf "item %s already exists in scope" [ArgStr (Item_Variable it)]) \/
      (VariableSize it <= 0 /\
         e = Errorf "invalid variable size for item %s" [ArgStr (Item_Variable it)]))).
Proof.
  intros Hreg.
  destruct (Register_inv _ _ _ _ _ _ Hreg) as [H0|(cur & sc & it & Hc & Hsc & Hit & H1)].
  - destruct H0 as (_ & -> & -> & He). injection He as ->.
    repeat split; try done. by left.
  - destruct H1 as [H1|[H1|H1]].
    + destruct H1 as (Hdup & -> & -> & He). injection He as ->.
      repeat split; try done. right. exists cur, sc, it. repeat split; try done. by left.
    + destruct H1 as (_ & Hsz & -> & -> & He). injection He as ->.
      repeat split; try done. right. exists cur, sc, it. repeat split; try done. by right.
    + destruct H1 as (_ & _ & He & _). discriminate He.
Qed.

Lemma C10_register_error_changes_nothing_witness :
  exists e, Register entered_x.1 entered_x.2 3 = Ret (entered_x.1, entered_x.2, Some e) /\
            addrCounter entered_x.2 = initialAddr + 1.
Proof.
  exists (Errorf "item %s already exists in scope" [ArgStr "x"]).
  assert (Hreg : Register entered_x.1 entered_x.2 3 =
                 Ret (entered_x.1, entered_x.2,
                      Some (Errorf "item %s already exists in scope" [ArgStr "x"])))
    by (by vm_compute).
  destruct (C10_register_error_changes_nothing _ _ _ _ _ _ Hreg) as (_ & _ & _ & _ & _ & _).
  split; [exact Hreg | by vm_compute].
Defined.

(** C8.  [ExitScope] returns the error "no scope to exit" when no scope is
    open.  When a scope is open and the exit hook returns an error, that
    error is returned and nothing changes, the current scope included.  When
    the hook is absent or returns nil, the current scope becomes the parent
    of the scope that was current, and nothing else changes. *)
Theorem C8_ExitScope (m : Store) (st : SymbolTable) :
  (CurrentScope st = None ->
     ExitScope m st = Ret (m, st, Some (Errorf "no scope to exit" []))) /\
  (forall cur f e,
     CurrentScope st = Some cur -> ExitFunction st = Some f -> f m cur = Some e ->
     ExitScope m st = Ret (m, st, Some e)) /\
  (forall cur sc,
     CurrentScope st = Some cur -> load_scope m cur = Ret sc ->
     (ExitFunction st = None \/ exists f, ExitFunction st = Some f /\ f m cur = None) ->
     ExitScope m st = Ret (m, set_CurrentScope (Parent sc) st, None) /\
     CurrentScope (set_CurrentScope (Parent sc) st) = Parent sc).
Proof.
  unfold ExitScope. split; [|split].
  - by intros ->.
  - intros cur f e -> Hf He. unfold call_hook. by rewrite Hf, He.
  - intros cur sc -> Hsc Hhook. split; [|done]. unfold call_hook.
    destruct Hhook as [Hf|(f & Hf & Hn)]; rewrite Hf, ?Hn; by rewrite Hsc.
Qed.

Lemma C8_ExitScope_witness :
  ExitScope sample_store (NewSymbolTable None None)
    = Ret (sample_store, NewSymbolTable None None, Some (Errorf "no scope to exit" [])) /\
  (CurrentScope entered_failing.2 = Some 0%nat /\
   ExitScope entered_failing.1 entered_failing.2
     = Ret (entered_failing.1, entered_failing.2, Some (Errorf "hook failed" []))) /\
  (exists st1, ExitScope entered_x_entered.1 entered_x_entered.2
                 = Ret (entered_x_entered.1, st1, None) /\
               CurrentScope entered_x_entered.2 = Some 1%nat /\
               CurrentScope st1 = Some 0%nat).
Proof.
  split; [|split].
  - by apply (C8_ExitScope sample_store (NewSymbolTable None None)).
  - split; [by vm_compute|].
    destruct (C8_ExitScope entered_failing.1 entered_failing.2) as (_ & H2 & _).
    by apply (H2 0%nat failing_hook).
  - destruct (C8_ExitScope entered_x_entered.1 entered_x_entered.2) as (_ & _ & H3).
    destruct (H3 1%nat {| ID := 1; Level := 1; Items := ∅; Parent := Some 0%nat |})
      as [Hex Hcur]; [by vm_compute | by vm_compute | by left |].
    eexists. split; [exact Hex|]. split; [by vm_compute | exact Hcur].
Defined.

(** C9.  [EnterScope] with an enter hook returns what the hook returns on
    the new scope; in particular a hook error is handed to the caller.
    Whatever the hook returns, the new scope has been allocated with an empty
    declaration map and the previous current scope as its parent, it is the
    current scope, and its address has been appended to the history.  Its
    level is 0 when no scope was open and the previous level plus one
    otherwise (Go's [+], which is the sum unless the level was the largest
    int).  Its id is the length of the history before the call, and the
    history holds the new scope at that position. *)
Theorem C9_EnterScope_hook_error (m : Store) (st : SymbolTable) (f : Hook) :
  EnterFunction st = Some f ->
  (CurrentScope st = None \/
   exists cur sc, CurrentScope st = Some cur /\ load_scope m cur = Ret sc) ->
  exists new,
    let p := length (scopes m) in
    let m' := {| scopes := scopes m ++ [new]; items := items m |} in
    let st' := set_LegacyScopes (LegacyScopes st ++ [p]) (set_CurrentScope (Some p) st) in
    EnterScope m st = Ret (m', st', f m' p) /\
    (forall e, f m' p = Some e -> EnterScope m st = Ret (m', st', Some e)) /\
    load_scope m' p = Ret new /\
    (forall q, (q < p)%nat -> load_scope m' q = load_scope m q) /\
    Parent new = CurrentScope st /\ Items new = ∅ /\
    CurrentScope st' = Some p /\
    LegacyScopes st' = LegacyScopes st ++ [p] /\
    ID new = Z.of_nat (length (LegacyScopes st)) /\
    LegacyScopes st' !! Z.to_nat (ID new) = Some p /\
    (CurrentScope st = None -> Level new = 0) /\
    (forall cur sc,
       CurrentScope st = Some cur -> load_scope m cur = Ret sc ->
       Level new = GoInt.add (Level sc) 1 /\
       (GoInt.int_min <= Level sc < GoInt.int_max -> Level new = Level sc + 1)).
Proof.
  intros Hf Hcur.
  assert (Hres : forall new,
    (match CurrentScope st with
     | None => Ret {| ID := Z.of_nat (length (LegacyScopes st)); Level := 0;
                      Items := ∅; Parent := None |}
     | Some cur => sc ← load_scope m cur;
                   Ret {| ID := Z.of_nat (length (LegacyScopes st));
                          Level := GoInt.add (Level sc) 1; Items := ∅; Parent := Some cur |}
     end) = Ret new ->
    let p := length (scopes m) in
    let m' := {| scopes := scopes m ++ [new]; items := items m |} in
    let st' := set_LegacyScopes (LegacyScopes st ++ [p]) (set_CurrentScope (Some p) st) in
    EnterScope m st = Ret (m', st', f m' p) /\
    load_scope m' p = Ret new /\
    (forall q, (q < p)%nat -> load_scope m' q = load_scope m q) /\
    LegacyScopes st' !! length (LegacyScopes st) = Some p).
  { intros new Hnew p m' st'. repeat split.
    - unfold EnterScope. rewrite Hnew. simpl. unfold call_hook. simpl. by rewrite Hf.
    - unfold load_scope. simpl. rewrite lookup_app_r by done.
      by rewrite Nat.sub_diag.
    - intros q Hq. unfold load_scope. simpl. by rewrite lookup_app_l.
    - simpl. rewrite lookup_app_r by done. by rewrite Nat.sub_diag. }
  destruct Hcur as [Hnone|(cur & sc & Hc & Hsc)].
  - eexists. destruct (Hres _ ltac:(by rewrite Hnone)) as (He & Hl & Hold & Hhist).
    split; [exact He|]. split; [by intros e <-|]. split; [exact Hl|]. split; [exact Hold|].
    simpl. rewrite Nat2Z.id. split_and!; try done.
    intros cur0 sc0 Hc0. by rewrite Hnone in Hc0.
  - eexists. destruct (Hres _ ltac:(by rewrite Hc, Hsc)) as (He & Hl & Hold & Hhist).
    split; [exact He|]. split; [by intros e <-|]. split; [exact Hl|]. split; [exact Hold|].
    simpl. rewrite Nat2Z.id.
    assert (Hsame : forall cur0 sc0,
              CurrentScope st = Some cur0 -> load_scope m cur0 = Ret sc0 -> sc0 = sc).
    { intros cur0 sc0 Hc0 Hsc0. rewrite Hc in Hc0. injection Hc0 as <-.
      rewrite Hsc in Hsc0. by injection Hsc0 as <-. }
    split_and!; try done.
    + by rewrite Hc.
    + intros cur0 sc0 Hc0 Hsc0. rewrite (Hsame _ _ Hc0 Hsc0). split; [done|].
      intros Hrange. apply add_exact.
      unfold GoInt.in_range, GoInt.int_min, GoInt.int_max in *. lia.
Qed.

Lemma C9_EnterScope_hook_error_witness :
  exists m' st' new,
    EnterScope entered_failing.1 entered_failing.2
      = Ret (m', st', Some (Errorf "hook failed" [])) /\
    CurrentScope entered_failing.2 = Some 0%nat /\
    CurrentScope st' = Some 1%nat /\
    LegacyScopes st' = [0%nat; 1%nat] /\
    load_scope m' 1 = Ret new /\
    Parent new = Some 0%nat /\ Level new = 1 /\ ID new = 1.
Proof.
  destruct (C9_EnterScope_hook_error entered_failing.1 entered_failing.2 failing_hook)
    as (new & He & _ & Hl & _ & Hp & _ & Hc & Hh & Hid & _ & _ & Hlev).
  { by vm_compute. }
  { right. exists 0%nat, {| ID := 0; Level := 0; Items := ∅; Parent := None |}.
    by vm_compute. }
  destruct (Hlev 0%nat {| ID := 0; Level := 0; Items := ∅; Parent := None |})
    as [Hlevel _]; [by vm_compute | by vm_compute |].
  eexists _, _, new. split_and!.
  - exact He.
  - by vm_compute.
  - exact Hc.
  - exact Hh.
  - exact Hl.
  - exact Hp.
  - exact Hlevel.
  - exact Hid.
Defined.

(** ** A successful [Register], and [Lookup] in the current scope *)

Lemma Register_ok_state (m : Store) (st : SymbolTable) (item cur : nat)
    (sc : Scope) (it : SymbolTableItem) :
  CurrentScope st = Some cur -> load_scope m cur = Ret sc -> load_item m item = Ret it ->
  Items sc !! Item_Variable it = None -> 0 < VariableSize it ->
  exists m' st',
    Register m st item = Ret (m', st', None) /\
    CurrentScope st' = Some cur /\
    load_scope m' cur = Ret (set_Items (<[Item_Variable it := item]> (Items sc)) sc) /\
    load_item m' item = Ret (if allocates it then set_Address (addrCounter st) it else it) /\
    (forall q, q ≠ item -> load_item m' q = load_item m q) /\
    addrCounter st' =
      (if allocates it then advance (addrCounter st) (alloc_bytes it) else addrCounter st).
Proof.
  intros Hc Hsc Hit Hnew Hsz. rewrite (Register_ok m st item cur sc it) by done.
  pose proof (load_scope_declare m cur sc item it Hsc) as Hdecl.
  destruct (allocates it); eexists _, _; (split; [reflexivity|]); split_and!; try done.
  - by apply (load_item_store_item _ _ it).
  - intros q Hq. by rewrite load_item_store_item_ne.
Qed.

Lemma Lookup_current (m : Store) (st : SymbolTable) (cur : nat) (sc : Scope)
    (variable : string) (item : nat) :
  CurrentScope st = Some cur -> load_scope m cur = Ret sc ->
  Items sc !! variable = Some item ->
  Lookup m st variable = Ret (Some item, true, None).
Proof.
  intros Hc Hsc Hv. unfold Lookup. rewrite Hc.
  assert (Hlen : (cur < length (scopes m))%nat).
  { unfold load_scope in Hsc. destruct (scopes m !! cur) eqn:E; [|done].
    by eapply lookup_lt_Some. }
  destruct (length (scopes m)) as [|fuel]; [lia|].
  simpl. rewrite Hsc. simpl. rewrite Hv. by rewrite bool_decide_eq_true_2.
Qed.

(** C7.  [Register] fails with the error "item ... already exists in scope"
    exactly when a scope is open and its declaration map holds the item's
    name.  A name that the current scope does not hold, whether or not an
    ancestor declares it, is registered without error when its size is
    positive, and [Lookup] of the name then returns the item just registered
    with [findInCurrentScope = true]. *)
Theorem C7_duplicate_only_in_current_scope
    (m : Store) (st : SymbolTable) (item : nat) (it : SymbolTableItem) :
  load_item m item = Ret it ->
  ((exists m' st',
      Register m st item =
        Ret (m', st', Some (Errorf "item %s already exists in scope"
                              [ArgStr (Item_Variable it)])))
   <-> exists cur sc, CurrentScope st = Some cur /\ load_scope m cur = Ret sc /\
                      is_Some (Items sc !! Item_Variable it)) /\
  (forall cur sc,
     CurrentScope st = Some cur -> load_scope m cur = Ret sc ->
     Items sc !! Item_Variable it = None -> 0 < VariableSize it ->
     exists m' st',
       Register m st item = Ret (m', st', None) /\
       Lookup m' st' (Item_Variable it) = Ret (Some item, true, None)).
Proof.
  intros Hit. split; [split|].
  - intros (m' & st' & Hreg).
    destruct (Register_inv _ _ _ _ _ _ Hreg) as [H0|(cur & sc & it' & Hc & Hsc & Hit' & H1)].
    + destruct H0 as (_ & _ & _ & He). discriminate He.
    + rewrite Hit in Hit'. injection Hit' as <-.
      destruct H1 as [H1|[H1|H1]].
      * destruct H1 as (Hdup & _). by exists cur, sc.
      * destruct H1 as (_ & _ & _ & _ & He). discriminate He.
      * destruct H1 as (_ & _ & He & _). discriminate He.
  - intros (cur & sc & Hc & Hsc & Hdup). exists m, st. by eapply Register_duplicate.
  - intros cur sc Hc Hsc Hnew Hsz.
    destruct (Register_ok_state m st item cur sc it Hc Hsc Hit Hnew Hsz)
      as (m' & st' & Hreg & Hc' & Hsc' & _).
    exists m', st'. split; [done|].
    eapply Lookup_current; [done..|]. simpl. apply lookup_insert_eq.
Qed.

Lemma C7_duplicate_only_in_current_scope_witness :
  Lookup entered_x_entered.1 entered_x_entered.2 "x" = Ret (Some 0%nat, false, None) /\
  exists m' st',
    Register entered_x_entered.1 entered_x_entered.2 3 = Ret (m', st', None) /\
    Lookup m' st' "x" = Ret (Some 3%nat, true, None).
Proof.
  split; [by vm_compute|].
  destruct (C7_duplicate_only_in_current_scope entered_x_entered.1 entered_x_entered.2 3
              (mk_item "x" SymbolTableItemTypeVariable 8 1) eq_refl) as [_ Hshadow].
  apply (Hshadow 1%nat {| ID := 1; Level := 1; Items := ∅; Parent := Some 0%nat |});
    by vm_compute.
Defined.

(** What a successful [Register] of a Variable leaves behind. *)
Lemma Register_variable (m : Store) (st : SymbolTable) (item cur : nat)
    (sc : Scope) (it : SymbolTableItem) :
  CurrentScope st = Some cur -> load_scope m cur = Ret sc -> load_item m item = Ret it ->
  Items sc !! Item_Variable it = None ->
  Item_Type it = SymbolTableItemTypeVariable ->
  0 < VariableSize it <= GoInt.int_max ->
  exists m' st',
    Register m st item = Ret (m', st', None) /\
    CurrentScope st' = Some cur /\
    load_scope m' cur = Ret (set_Items (<[Item_Variable it := item]> (Items sc)) sc) /\
    load_item m' item = Ret (set_Address (addrCounter st) it) /\
    (forall q, q ≠ item -> load_item m' q = load_item m q) /\
    addrCounter st' = GoInt.add (addrCounter st) (ceil4 (VariableSize it)).
Proof.
  intros Hc Hsc Hit Hnew Hty Hsz.
  destruct (Register_ok_state m st item cur sc it Hc Hsc Hit Hnew ltac:(lia))
    as (m' & st' & Hreg & Hc' & Hsc' & Hit' & Hother & Hctr).
  unfold allocates, alloc_bytes in *.
  rewrite (bool_decide_eq_true_2 _ Hty) in *. simpl in *.
  exists m', st'. split_and!; try done.
  rewrite Hctr. apply advance_ceil4. lia.
Qed.

(** C5 (as amended).  After a successful [Register] the address of a Variable
    item is the counter before the call, and the counter has advanced by
    [ceil (s / 4)] words, [s] being the item's size ([+] is Go's).  The same
    holds for an Array item with [s * arrayLength] for [s], provided that
    product is not negative and fits an int.  In particular, Variables of 4,
    6 and 4 bytes registered in sequence get the addresses [base],
    [base + 1] and [base + 3]. *)
Theorem C5_address_and_word_rounding :
  (forall (m : Store) (st : SymbolTable) (item : nat) (it : SymbolTableItem)
          (m' : Store) (st' : SymbolTable),
     Register m st item = Ret (m', st', None) ->
     load_item m item = Ret it ->
     GoInt.in_range (VariableSize it) ->
     (Item_Type it = SymbolTableItemTypeVariable ->
        0 < VariableSize it /\
        load_item m' item = Ret (set_Address (addrCounter st) it) /\
        addrCounter st' = GoInt.add (addrCounter st) (ceil4 (VariableSize it))) /\
     (Item_Type it = SymbolTableItemTypeArray ->
        0 <= VariableSize it * ArraySize it <= GoInt.int_max ->
        load_item m' item = Ret (set_Address (addrCounter st) it) /\
        addrCounter st' =
          GoInt.add (addrCounter st) (ceil4 (VariableSize it * ArraySize it)))) /\
  (forall (m : Store) (st : SymbolTable) (cur : nat) (sc : Scope)
          (p1 p2 p3 : nat) (it1 it2 it3 : SymbolTableItem),
     CurrentScope st = Some cur -> load_scope m cur = Ret sc ->
     load_item m p1 = Ret it1 -> load_item m p2 = Ret it2 -> load_item m p3 = Ret it3 ->
     Item_Type it1 = SymbolTableItemTypeVariable ->
     Item_Type it2 = SymbolTableItemTypeVariable ->
     Item_Type it3 = SymbolTableItemTypeVariable ->
     VariableSize it1 = 4 -> VariableSize it2 = 6 -> VariableSize it3 = 4 ->
     Items sc !! Item_Variable it1 = None ->
     Items sc !! Item_Variable it2 = None ->
     Items sc !! Item_Variable it3 = None ->
     Item_Variable it1 ≠ Item_Variable it2 ->
     Item_Variable it1 ≠ Item_Variable it3 ->
     Item_Variable it2 ≠ Item_Variable it3 ->
     let base := addrCounter st in
     exists m1 st1 m2 st2 m3 st3,
       Register m st p1 = Ret (m1, st1, None) /\
       Register m1 st1 p2 = Ret (m2, st2, None) /\
       Register m2 st2 p3 = Ret (m3, st3, None) /\
       load_item m3 p1 = Ret (set_Address base it1) /\
       load_item m3 p2 = Ret (set_Address (GoInt.add base 1) it2) /\
       load_item m3 p3 = Ret (set_Address (GoInt.add base 3) it3) /\
       addrCounter st3 = GoInt.add base 4).
Proof.
  split.
  - intros m st item it m' st' Hreg Hit Hrange.
    destruct (Register_inv _ _ _ _ _ _ Hreg) as [H0|(cur & sc & it' & Hc & Hsc & Hit' & H1)].
    { destruct H0 as (_ & _ & _ & He). discriminate He. }
    rewrite Hit in Hit'. injection Hit' as <-.
    destruct H1 as [H1|[H1|H1]].
    { destruct H1 as (_ & _ & _ & He). discriminate He. }
    { destruct H1 as (_ & _ & _ & _ & He). discriminate He. }
    destruct H1 as (Hnew & Hsz & _ & _).
    destruct (Register_ok_state m st item cur sc it Hc Hsc Hit Hnew Hsz)
      as (m0 & st0 & Hreg0 & _ & _ & Hit0 & _ & Hctr).
    rewrite Hreg in Hreg0. injection Hreg0 as <- <-.
    unfold allocates, alloc_bytes in *. split.
    + intros Hty. rewrite (bool_decide_eq_true_2 _ Hty) in *. simpl in *.
      split_and!; try done. rewrite Hctr. apply advance_ceil4.
      unfold GoInt.in_range in Hrange. lia.
    + intros Hty Hprod.
      assert (Hv : Item_Type it ≠ SymbolTableItemTypeVariable) by (by rewrite Hty).
      rewrite (bool_decide_eq_false_2 _ Hv), (bool_decide_eq_true_2 _ Hty) in *.
      simpl in *. split; [done|]. rewrite Hctr.
      unfold GoInt.mul. rewrite wrap_id.
      * by apply advance_ceil4.
      * unfold GoInt.in_range, GoInt.int_min, GoInt.int_max in *. lia.
  - intros m st cur sc p1 p2 p3 it1 it2 it3 Hc Hsc H1 H2 H3 T1 T2 T3 S1 S2 S3
      N1 N2 N3 D12 D13 D23 base.
    assert (P12 : p1 ≠ p2) by (intros ->; rewrite H1 in H2; by injection H2 as ->).
    assert (P13 : p1 ≠ p3) by (intros ->; rewrite H1 in H3; by injection H3 as ->).
    assert (P23 : p2 ≠ p3) by (intros ->; rewrite H2 in H3; by injection H3 as ->).
    destruct (Register_variable m st p1 cur sc it1 Hc Hsc H1 N1 T1)
      as (m1 & st1 & R1 & Hc1 & Hsc1 & L1 & O1 & A1).
    { rewrite S1. unfold GoInt.int_max. lia. }
    assert (H2' : load_item m1 p2 = Ret it2) by (by rewrite O1).
    assert (H3' : load_item m1 p3 = Ret it3) by (by rewrite O1).
    destruct (Register_variable m1 st1 p2 cur _ it2 Hc1 Hsc1 H2')
      as (m2 & st2 & R2 & Hc2 & Hsc2 & L2 & O2 & A2).
    { simpl. by rewrite lookup_insert_ne. }
    { done. }
    { rewrite S2. unfold GoInt.int_max. lia. }
    assert (H3'' : load_item m2 p3 = Ret it3) by (by rewrite O2).
    destruct (Register_variable m2 st2 p3 cur _ it3 Hc2 Hsc2 H3'')
      as (m3 & st3 & R3 & Hc3 & Hsc3 & L3 & O3 & A3).
    { simpl. by rewrite !lookup_insert_ne. }
    { done. }
    { rewrite S3. unfold GoInt.int_max. lia. }
    assert (E1 : addrCounter st1 = GoInt.add base 1) by (by rewrite A1, S1).
    assert (E2 : addrCounter st2 = GoInt.add base 3).
    { rewrite A2, E1, S2, add_add. done. }
    exists m1, st1, m2, st2, m3, st3. split_and!; try done.
    + rewrite O3 by done. rewrite O2 by done. exact L1.
    + rewrite O3 by done. by rewrite L2, E1.
    + by rewrite L3, E2.
    + rewrite A3, E2, S3, add_add. done.
Qed.

Lemma C5_address_and_word_rounding_witness :
  exists m1 st1 m2 st2 m3 st3,
    Register entered.1 entered.2 0 = Ret (m1, st1, None) /\
    Register m1 st1 1 = Ret (m2, st2, None) /\
    Register m2 st2 2 = Ret (m3, st3, None) /\
    Address <$> items m3 !! 0%nat = Some 0x10000000 /\
    Address <$> items m3 !! 1%nat = Some 0x10000001 /\
    Address <$> items m3 !! 2%nat = Some 0x10000003.
Proof.
  destruct C5_address_and_word_rounding as [_ Hseq].
  destruct (Hseq entered.1 entered.2 0%nat
              {| ID := 0; Level := 0; Items := ∅; Parent := None |}
              0%nat 1%nat 2%nat
              (mk_item "x" SymbolTableItemTypeVariable 4 1)
              (mk_item "y" SymbolTableItemTypeVariable 6 1)
              (mk_item "z" SymbolTableItemTypeVariable 4 1))
    as (m1 & st1 & m2 & st2 & m3 & st3 & R1 & R2 & R3 & L1 & L2 & L3 & _);
    [by vm_compute..|].
  exists m1, st1, m2, st2, m3, st3.
  split; [exact R1|]. split; [exact R2|]. split; [exact R3|].
  unfold load_item in L1, L2, L3.
  destruct (items m3 !! 0%nat) as [i1|]; [|discriminate L1].
  destruct (items m3 !! 1%nat) as [i2|]; [|discriminate L2].
  destruct (items m3 !! 2%nat) as [i3|]; [|discriminate L3].
  injection L1 as ->. injection L2 as ->. injection L3 as ->.
  split; [|split]; vm_compute; reflexivity.
Defined.

(** C5, as stated, fails for Array items.  An array of 3-byte elements with
    length -1 is registered without error and the counter advances by one
    word, while [ceil (3 * (-1) / 4)] is 0.  An array of [2 ^ 62]-byte
    elements with length 4 is registered without error and the counter does
    not move (the product wraps to 0), while the ceiling is [2 ^ 62]. *)
Lemma C5_array_rounding_fails :
  (exists m' st',
     Register entered.1 entered.2 4 = Ret (m', st', None) /\
     (Item_Type <$> items entered.1 !! 4%nat) = Some SymbolTableItemTypeArray /\
     addrCounter st' = addrCounter entered.2 + 1 /\
     ceil4 (3 * -1) = 0 /\
     addrCounter st' ≠ GoInt.add (addrCounter entered.2) (ceil4 (3 * -1))) /\
  (exists m' st',
     Register entered.1 entered.2 6 = Ret (m', st', None) /\
     (Item_Type <$> items entered.1 !! 6%nat) = Some SymbolTableItemTypeArray /\
     addrCounter st' = addrCounter entered.2 /\
     ceil4 (2 ^ 62 * 4) = 2 ^ 62 /\
     addrCounter st' ≠ GoInt.add (addrCounter entered.2) (ceil4 (2 ^ 62 * 4))).
Proof.
  split.
  - exists (match Register entered.1 entered.2 4 with Ret (m', _, _) => m' | _ => entered.1 end),
           (match Register entered.1 entered.2 4 with Ret (_, st', _) => st' | _ => entered.2 end).
    by vm_compute.
  - exists (match Register entered.1 entered.2 6 with Ret (m', _, _) => m' | _ => entered.1 end),
           (match Register entered.1 entered.2 6 with Ret (_, st', _) => st' | _ => entered.2 end).
    by vm_compute.
Qed.

(** ** Sequences of calls *)

Section Handouts.
Implicit Types (hs : list handout) (x y : handout) (c : Z).

Lemma sum_words_app hs1 hs2 : sum_words (hs1 ++ hs2) = sum_words hs1 + sum_words hs2.
Proof. induction hs1 as [|x hs1 IH]; simpl; lia. Qed.

Lemma sum_words_nonneg hs : Forall positive_request hs -> 0 <= sum_words hs.
Proof.
  induction 1 as [|x hs Hx _ IH]; simpl; [lia|].
  pose proof (ceil4_pos (bytes x) ltac:(apply Hx)). lia.
Qed.

Lemma laid_out_app c hs1 hs2 :
  laid_out c (hs1 ++ hs2) <-> laid_out c hs1 /\ laid_out (c + sum_words hs1) hs2.
Proof.
  revert c. induction hs1 as [|x hs1 IH]; intros c; simpl.
  - rewrite Z.add_0_r. tauto.
  - rewrite IH. rewrite Z.add_assoc. tauto.
Qed.

Lemma laid_out_lower_bound c hs y :
  Forall positive_request hs -> laid_out c hs -> y ∈ hs -> c <= addr y.
Proof.
  intros Hgood. revert c. induction Hgood as [|x hs Hx _ IH]; intros c Hlay Hy.
  - by apply elem_of_nil in Hy.
  - destruct Hlay as [Hc Hrest]. apply elem_of_cons in Hy as [->|Hy]; [lia|].
    pose proof (ceil4_pos (bytes x) ltac:(apply Hx)).
    pose proof (IH _ Hrest Hy). lia.
Qed.

(** In a layout of positive requests an earlier handout ends before a
    later one starts. *)
Lemma laid_out_ordered c hs i j x y :
  Forall positive_request hs -> laid_out c hs ->
  (i < j)%nat -> hs !! i = Some x -> hs !! j = Some y ->
  addr x + ceil4 (bytes x) <= addr y.
Proof.
  intros Hgood. revert c i j.
  induction Hgood as [|x0 hs Hx0 Hgood IH]; intros c i j Hlay Hij Hi Hj; [done|].
  destruct Hlay as [Hc Hrest]. destruct j as [|j]; [lia|]. simpl in Hj.
  destruct i as [|i]; simpl in Hi.
  - injection Hi as ->. rewrite Hc.
    eapply laid_out_lower_bound; [done..|]. by eapply list_elem_of_lookup_2.
  - eapply (IH _ i j); [done | lia | done..].
Qed.

End Handouts.

Section Runs.
Implicit Types (m : Store) (st : SymbolTable) (hs : list handout).

Lemma EnterScope_counter m st m' st' e :
  EnterScope m st = Ret (m', st', e) -> addrCounter st' = addrCounter st.
Proof.
  unfold EnterScope. intros He.
  destruct (CurrentScope st) as [cur|]; simpl in He.
  - destruct (load_scope m cur) as [sc| |]; simpl in He; [|done..].
    by injection He as <- <- <-.
  - by injection He as <- <- <-.
Qed.

Lemma ExitScope_counter m st m' st' e :
  ExitScope m st = Ret (m', st', e) -> addrCounter st' = addrCounter st.
Proof.
  unfold ExitScope. intros He.
  destruct (CurrentScope st) as [cur|]; [|by injection He as <- <- <-].
  destruct (call_hook (ExitFunction st) m cur); [by injection He as <- <- <-|].
  destruct (load_scope m cur) as [sc| |]; simpl in He; [|done..].
  by injection He as <- <- <-.
Qed.

(** One call hands out what it hands out at the counter, and moves the
    counter past it. *)
Lemma run_call_layout (c : call) m st m' st' hs :
  run_call c m st = Ret (m', st', hs) ->
  GoInt.in_range (addrCounter st) ->
  Forall positive_request hs ->
  addrCounter st + sum_words hs <= GoInt.int_max ->
  addrCounter st' = addrCounter st + sum_words hs /\ laid_out (addrCounter st) hs.
Proof.
  intros Hrun Hin Hgood Hfit. destruct c as [| |item|size]; simpl in Hrun.
  - destruct (EnterScope m st) as [[[m1 st1] e]| |] eqn:E; simpl in Hrun; [|done..].
    injection Hrun as <- <- <-. simpl. split; [|done].
    rewrite (EnterScope_counter _ _ _ _ _ E). lia.
  - destruct (ExitScope m st) as [[[m1 st1] e]| |] eqn:E; simpl in Hrun; [|done..].
    injection Hrun as <- <- <-. simpl. split; [|done].
    rewrite (ExitScope_counter _ _ _ _ _ E). lia.
  - destruct (Register m st item) as [[[m1 st1] err]| |] eqn:E; simpl in Hrun; [|done..].
    destruct (Register_inv _ _ _ _ _ _ E) as [H0|(cur & sc & it & Hc & Hsc & Hit & H1)].
    { destruct H0 as (_ & -> & -> & ->). injection Hrun as <- <- <-. simpl.
      split; [lia|done]. }
    destruct H1 as [H1|[H1|H1]].
    { destruct H1 as (_ & -> & -> & ->). injection Hrun as <- <- <-. simpl.
      split; [lia|done]. }
    { destruct H1 as (_ & _ & -> & -> & ->). injection Hrun as <- <- <-. simpl.
      split; [lia|done]. }
    destruct H1 as (Hnew & Hsz & -> & _).
    destruct (Register_ok_state m st item cur sc it Hc Hsc Hit Hnew Hsz)
      as (m0 & st0 & Hreg0 & _ & _ & Hit0 & _ & Hctr).
    rewrite E in Hreg0. injection Hreg0 as <- <-.
    rewrite Hit0 in Hrun. simpl in Hrun.
    unfold allocates, alloc_bytes in *.
    destruct (bool_decide (Item_Type it = SymbolTableItemTypeVariable)) eqn:Hv;
      simpl in Hrun, Hctr.
    + rewrite Hv in Hrun. injection Hrun as <- <- <-.
      apply Forall_cons in Hgood as [Hx _]. unfold positive_request in Hx.
      simpl in *. rewrite Hctr. split; [|done].
      rewrite advance_exact; [lia | lia |].
      pose proof (ceil4_pos _ (proj1 Hx)).
      unfold GoInt.in_range, GoInt.int_min, GoInt.int_max in *. lia.
    + destruct (bool_decide (Item_Type it = SymbolTableItemTypeArray)) eqn:Ha;
        simpl in Hrun, Hctr.
      * rewrite Hv, Ha in Hrun. injection Hrun as <- <- <-.
        apply Forall_cons in Hgood as [Hx _]. unfold positive_request in Hx.
        simpl in *. rewrite Hctr. split; [|done].
        unfold GoInt.mul. rewrite wrap_id
          by (unfold GoInt.in_range, GoInt.int_min, GoInt.int_max in *; lia).
        rewrite advance_exact; [lia | lia |].
        pose proof (ceil4_pos _ (proj1 Hx)).
        unfold GoInt.in_range, GoInt.int_min, GoInt.int_max in *. lia.
      * rewrite Hv, Ha in Hrun. injection Hrun as <- <- <-. simpl.
        split; [lia|done].
  - injection Hrun as <- <- <-. simpl in *.
    apply Forall_cons in Hgood as [Hx _]. unfold positive_request in Hx. simpl in Hx.
    split; [|done]. rewrite advance_exact; [lia | lia |].
    pose proof (ceil4_pos _ (proj1 Hx)).
    unfold GoInt.in_range, GoInt.int_min, GoInt.int_max in *. lia.
Qed.

Lemma run_calls_layout (cs : list call) m st m' st' hs :
  run_calls cs m st = Ret (m', st', hs) ->
  GoInt.in_range (addrCounter st) ->
  Forall positive_request hs ->
  addrCounter st + sum_words hs <= GoInt.int_max ->
  addrCounter st' = addrCounter st + sum_words hs /\ laid_out (addrCounter st) hs.
Proof.
  revert m st hs. induction cs as [|c cs IH]; intros m st hs Hrun Hin Hgood Hfit.
  - injection Hrun as <- <- <-. simpl. split; [lia|done].
  - simpl in Hrun.
    destruct (run_call c m st) as [[[m1 st1] hs1]| |] eqn:E1; simpl in Hrun; [|done..].
    destruct (run_calls cs m1 st1) as [[[m2 st2] hs2]| |] eqn:E2; simpl in Hrun; [|done..].
    injection Hrun as <- <- <-.
    apply Forall_app in Hgood as [Hg1 Hg2]. rewrite sum_words_app in *.
    pose proof (sum_words_nonneg _ Hg1). pose proof (sum_words_nonneg _ Hg2).
    destruct (run_call_layout _ _ _ _ _ _ E1 Hin Hg1 ltac:(lia)) as [Hc1 Hl1].
    destruct (IH _ _ _ E2) as [Hc2 Hl2]; [|done|lia|].
    { unfold GoInt.in_range, GoInt.int_min, GoInt.int_max in *. lia. }
    split; [lia|]. apply laid_out_app. split; [done|]. by rewrite <- Hc1.
Qed.

End Runs.

(** C6 (as amended).  Take any sequence of [EnterScope], [ExitScope],
    [Register] and [TempAddr] calls on a table made by [NewSymbolTable], and
    the handouts of the calls in order: the address every [TempAddr] returned
    and the address every registered Variable or Array item was assigned.  If
    every handout was a request of a positive number of bytes that fits an
    int (the size given to [TempAddr], the size of a Variable, the size times
    the length of an Array), and the words asked for in total fit below the
    largest int above the initial address, then any two handouts have
    different addresses and share no word.  So no [TempAddr] address is the
    address of a registered item, and no two [TempAddr] calls overlap. *)
Theorem C6_handouts_never_overlap
    (enter exit : option Hook) (m : Store) (cs : list call)
    (m' : Store) (st' : SymbolTable) (hs : list handout) :
  run_calls cs m (NewSymbolTable enter exit) = Ret (m', st', hs) ->
  Forall positive_request hs ->
  initialAddr + sum_words hs <= GoInt.int_max ->
  forall i j x y,
    i ≠ j -> hs !! i = Some x -> hs !! j = Some y ->
    addr x ≠ addr y /\ (forall a, covers x a -> ~ covers y a).
Proof.
  intros Hrun Hgood Hfit.
  destruct (run_calls_layout _ _ _ _ _ _ Hrun) as [_ Hlay]; [|done|done|].
  { unfold GoInt.in_range, GoInt.int_min, GoInt.int_max. simpl. unfold initialAddr. lia. }
  simpl in Hlay.
  assert (Hord : forall i j x y, (i < j)%nat -> hs !! i = Some x -> hs !! j = Some y ->
                   addr x + ceil4 (bytes x) <= addr y /\ 0 < ceil4 (bytes x)).
  { intros i j x y Hij Hi Hj. split; [by eapply laid_out_ordered|].
    apply ceil4_pos. eapply Forall_lookup_1 in Hgood; [|exact Hi]. apply Hgood. }
  intros i j x y Hij Hi Hj. unfold covers.
  destruct (decide (i < j)%nat) as [Hlt|Hge].
  - destruct (Hord i j x y Hlt Hi Hj). split; [lia|]. intros a ? ?. lia.
  - destruct (Hord j i y x ltac:(lia) Hj Hi). split; [lia|]. intros a ? ?. lia.
Qed.

Lemma C6_handouts_never_overlap_witness :
  exists m' st',
    run_calls sample_calls sample_store (NewSymbolTable None None)
      = Ret (m', st',
             [ {| is_temp := false; addr := 0x10000000; bytes := 4 |};
               {| is_temp := true; addr := 0x10000001; bytes := 4 |};
               {| is_temp := false; addr := 0x10000002; bytes := 6 |};
               {| is_temp := true; addr := 0x10000004; bytes := 5 |} ]) /\
    0x10000001 ≠ 0x10000002 /\
    (forall a, 0x10000001 <= a < 0x10000001 + ceil4 4 -> ~ 0x10000004 <= a < 0x10000004 + ceil4 5).
Proof.
  pose (r := run_calls sample_calls sample_store (NewSymbolTable None None)).
  exists (match r with Ret (m', _, _) => m' | _ => sample_store end),
         (match r with Ret (_, st', _) => st' | _ => NewSymbolTable None None end).
  assert (Hrun : r = Ret (match r with Ret (m', _, _) => m' | _ => sample_store end,
                          match r with Ret (_, st', _) => st' | _ => NewSymbolTable None None end,
             [ {| is_temp := false; addr := 0x10000000; bytes := 4 |};
               {| is_temp := true; addr := 0x10000001; bytes := 4 |};
               {| is_temp := false; addr := 0x10000002; bytes := 6 |};
               {| is_temp := true; addr := 0x10000004; bytes := 5 |} ]))
    by (vm_compute; reflexivity).
  split; [exact Hrun|].
  assert (Hgood : Forall positive_request
             [ {| is_temp := false; addr := 0x10000000; bytes := 4 |};
               {| is_temp := true; addr := 0x10000001; bytes := 4 |};
               {| is_temp := false; addr := 0x10000002; bytes := 6 |};
               {| is_temp := true; addr := 0x10000004; bytes := 5 |} ]).
  { repeat constructor; vm_compute; discriminate. }
  split.
  - apply (C6_handouts_never_overlap None None sample_store sample_calls _ _ _
             Hrun Hgood ltac:(vm_compute; discriminate) 1%nat 2%nat _ _
             ltac:(lia) eq_refl eq_refl).
  - apply (C6_handouts_never_overlap None None sample_store sample_calls _ _ _
             Hrun Hgood ltac:(vm_compute; discriminate) 1%nat 3%nat
             {| is_temp := true; addr := 0x10000001; bytes := 4 |}
             {| is_temp := true; addr := 0x10000004; bytes := 5 |}
             ltac:(lia) eq_refl eq_refl).
Defined.

(** C6, as stated, fails.  On a new table, [TempAddr(0)] and then
    [TempAddr(4)] return the same address.  And after [EnterScope], an Array
    item of length 0 is registered at the initial address without moving the
    counter, and the [TempAddr(4)] that follows returns that address. *)
Lemma C6_empty_requests_share_an_address :
  (exists m' st',
     run_calls [CallTempAddr 0; CallTempAddr 4] sample_store (NewSymbolTable None None)
       = Ret (m', st',
              [ {| is_temp := true; addr := 0x10000000; bytes := 0 |};
                {| is_temp := true; addr := 0x10000000; bytes := 4 |} ])) /\
  (exists m' st',
     run_calls [CallEnterScope; CallRegister 5; CallTempAddr 4] sample_store
       (NewSymbolTable None None)
       = Ret (m', st',
              [ {| is_temp := false; addr := 0x10000000; bytes := 0 |};
                {| is_temp := true; addr := 0x10000000; bytes := 4 |} ]) /\
     (Item_Type <$> items m' !! 5%nat) = Some SymbolTableItemTypeArray /\
     (Address <$> items m' !! 5%nat) = Some 0x10000000).
Proof.
  split.
  - pose (r := run_calls [CallTempAddr 0; CallTempAddr 4] sample_store
                 (NewSymbolTable None None)).
    exists (match r with Ret (m', _, _) => m' | _ => sample_store end),
           (match r with Ret (_, st', _) => st' | _ => NewSymbolTable None None end).
    by vm_compute.
  - pose (r := run_calls [CallEnterScope; CallRegister 5; CallTempAddr 4] sample_store
                 (NewSymbolTable None None)).
    exists (match r with Ret (m', _, _) => m' | _ => sample_store end),
           (match r with Ret (_, st', _) => st' | _ => NewSymbolTable None None end).
    by vm_compute.
Qed.

(** ** The parent walk of [Lookup] ends

    In the memory that the calls build, the fuel given to the walk is
    enough: [Lookup] returns. *)

Section LookupReturns.
Implicit Types (m : Store) (st : SymbolTable).

Lemma Lookup_loop_nil fuel m cur variable :
  Lookup_loop fuel m cur None variable =
    Ret (None, false, Some (Errorf "item %s not found in any scope" [ArgStr variable])).
Proof. by destruct fuel. Qed.

Lemma Lookup_loop_returns m cur variable fuel p :
  (forall p sc q, scopes m !! p = Some sc -> Parent sc = Some q -> (q < p)%nat) ->
  (p < length (scopes m))%nat -> (p < fuel)%nat ->
  exists r, Lookup_loop fuel m cur (Some p) variable = Ret r.
Proof.
  intros Hbelow. revert p. induction fuel as [|fuel IH]; intros p Hp Hfuel; [lia|].
  destruct (lookup_lt_is_Some_2 _ _ Hp) as [sc Hsc].
  simpl. unfold load_scope. rewrite Hsc. simpl.
  destruct (Items sc !! variable) as [item|]; [eauto|].
  destruct (Parent sc) as [q|] eqn:Hq.
  - pose proof (Hbelow _ _ _ Hsc Hq). apply IH; lia.
  - rewrite Lookup_loop_nil. eauto.
Qed.

Lemma Lookup_returns m st variable :
  wf_scopes m st -> exists r, Lookup m st variable = Ret r.
Proof.
  intros [Hbelow Hcur]. unfold Lookup.
  destruct (CurrentScope st) as [cur|] eqn:Hc; [|eauto].
  pose proof (Hcur _ eq_refl). by apply Lookup_loop_returns.
Qed.

Lemma NewSymbolTable_wf m enter exit :
  (forall p sc q, scopes m !! p = Some sc -> Parent sc = Some q -> (q < p)%nat) ->
  wf_scopes m (NewSymbolTable enter exit).
Proof. intros Hbelow. split; [done|]. intros cur Hc. discriminate Hc. Qed.

Lemma EnterScope_wf m st m' st' e :
  wf_scopes m st -> EnterScope m st = Ret (m', st', e) -> wf_scopes m' st'.
Proof.
  intros [Hbelow Hcur] He. unfold EnterScope in He.
  assert (Hnew : exists new,
             (Parent new = CurrentScope st) /\
             m' = {| scopes := scopes m ++ [new]; items := items m |} /\
             CurrentScope st' = Some (length (scopes m))).
  { destruct (CurrentScope st) as [cur|]; simpl in He.
    - destruct (load_scope m cur) as [sc| |]; simpl in He; [|done..].
      injection He as <- <- <-. eexists. split_and!; [|reflexivity..]; reflexivity.
    - injection He as <- <- <-. eexists. split_and!; [|reflexivity..]; reflexivity. }
  destruct Hnew as (new & Hpar & -> & Hc'). split; simpl.
  - intros p sc q Hsc Hq. apply lookup_app_Some in Hsc as [Hsc|[Hge Hsc]].
    + by eapply Hbelow.
    + apply list_lookup_singleton_Some in Hsc as [Hp0 <-].
      rewrite Hpar in Hq. pose proof (Hcur _ Hq). lia.
  - intros cur. rewrite Hc'. intros [= <-]. rewrite length_app. simpl. lia.
Qed.

Lemma ExitScope_wf m st m' st' e :
  wf_scopes m st -> ExitScope m st = Ret (m', st', e) -> wf_scopes m' st'.
Proof.
  intros Hwf He. pose proof Hwf as [Hbelow Hcur]. unfold ExitScope in He.
  destruct (CurrentScope st) as [cur|] eqn:Hc; [|by injection He as <- <- <-].
  destruct (call_hook (ExitFunction st) m cur).
  { by injection He as <- <- <-. }
  unfold load_scope in He. destruct (scopes m !! cur) as [sc|] eqn:Hsc; simpl in He; [|done].
  injection He as <- <- <-. split; [done|]. simpl. intros q Hq.
  pose proof (Hbelow _ _ _ Hsc Hq). pose proof (Hcur _ eq_refl). lia.
Qed.

Lemma Register_wf_scopes m st item m' st' e :
  wf_scopes m st -> Register m st item = Ret (m', st', e) -> wf_scopes m' st'.
Proof.
  intros Hwf Hreg. pose proof Hwf as [Hbelow Hcur].
  destruct (Register_inv _ _ _ _ _ _ Hreg) as [H0|(cur & sc & it & Hc & Hsc & Hit & H1)].
  { by destruct H0 as (_ & -> & -> & _). }
  destruct H1 as [H1|[H1|H1]].
  { by destruct H1 as (_ & -> & -> & _). }
  { by destruct H1 as (_ & _ & -> & -> & _). }
  destruct H1 as (_ & _ & _ & Hres).
  assert (Hshape : scopes m' =
                   <[cur := set_Items (<[Item_Variable it := item]> (Items sc)) sc]> (scopes m)
                   /\ CurrentScope st' = CurrentScope st).
  { destruct (allocates it); by injection Hres as -> ->. }
  destruct Hshape as [Hs Hc']. unfold load_scope in Hsc.
  destruct (scopes m !! cur) as [sc0|] eqn:Hsc0; simpl in Hsc; [|done].
  injection Hsc as ->. split.
  - intros p sc' q. rewrite Hs. destruct (decide (p = cur)) as [->|Hne].
    + rewrite list_lookup_insert_eq by (by eapply lookup_lt_Some).
      intros [= <-]. simpl. by apply Hbelow.
    + rewrite list_lookup_insert_ne by done. apply Hbelow.
  - intros c. rewrite Hc', Hs, length_insert. apply Hcur.
Qed.

End LookupReturns.

(** * Further properties of table construction *)

(** ** [ActionTable.Register] and [GotoTable.Register], slot by slot *)

(** X1.  [ActionTable.Register] returns an error exactly when the incoming
    action is a REDUCE and the slot holds a SHIFT or a REDUCE; then the
    table is left as it was.  In every other case it returns nil and the
    slot holds the incoming action.  Either way no other slot changes and the
    table keeps its shape. *)
Theorem X1_Register_reports_only_reduce_conflicts
    (h : ActionHeap) (t : nat) (s : Z) (a : Terminal) (action : Action) :
  wf_table h t ->
  let r := ActionTable_Register h t s action a in
  (is_Some r.2 <->
     Action_Type action = REDUCE /\
     exists cur, get h t s a = Some cur /\
                 (Action_Type cur = SHIFT \/ Action_Type cur = REDUCE)) /\
  (is_Some r.2 -> r.1 = h) /\
  (r.2 = None -> get r.1 t s a = Some action) /\
  (forall s' a', (s', a') ≠ (s, a) -> get r.1 t s' a' = get h t s' a') /\
  wf_table r.1 t.
Proof.
  intros Hwf r. subst r.
  destruct (Register_cases h t s a action Hwf)
    as [(cur & Hcur & Hty & Hact & Hh & He)|Hst].
  - split_and!.
    + split; [|done]. intros _. split; [done|]. by exists cur.
    + done.
    + intros Hn. rewrite Hn in He. by destruct He.
    + intros. by apply Register_frame.
    + by apply Register_wf.
  - split_and!.
    + rewrite Hst. simpl. split; [by intros [? ?]|].
      intros (Hact & cur & Hcur & Hty).
      destruct Hty as [Hty|Hty].
      * rewrite (Register_shift_reduce h t s a cur action) in Hst by done. done.
      * rewrite (Register_reduce_reduce h t s a cur action) in Hst by done. done.
    + rewrite Hst. simpl. by intros [? ?].
    + intros _. rewrite Hst. simpl. by apply upd_get_eq.
    + intros. by apply Register_frame.
    + by apply Register_wf.
Qed.

Lemma X1_Register_reports_only_reduce_conflicts_witness :
  let h := (ActionTable_Register (make_top (@empty_heap Action)).1 0 0
              {| Action_Type := REDUCE; Action_Number := 1 |} "a").1 in
  let r := ActionTable_Register h 0 0 {| Action_Type := REDUCE; Action_Number := 2 |} "a" in
  is_Some r.2 /\ r.1 = h.
Proof.
  intros h r.
  assert (Hwf : wf_table h 0).
  { apply Register_wf. apply (make_top_wf empty_heap). }
  destruct (X1_Register_reports_only_reduce_conflicts h 0%nat 0 "a"%string
              {| Action_Type := REDUCE; Action_Number := 2 |} Hwf) as (Hiff & Hsame & _).
  assert (He : is_Some r.2).
  { apply Hiff. split; [done|].
    exists {| Action_Type := REDUCE; Action_Number := 1 |}. split; [by vm_compute|by right]. }
  split; [exact He | exact (Hsame He)].
Defined.

(** X2.  A second REDUCE at a slot that holds a REDUCE is refused: the error
    names the state, the terminal and both production numbers, and the
    first REDUCE stays. *)
Theorem X2_reduce_reduce_keeps_first
    (h : ActionHeap) (t : nat) (s : Z) (a : Terminal) (n1 n2 : Z) :
  wf_table h t ->
  get h t s a = Some {| Action_Type := REDUCE; Action_Number := n1 |} ->
  let r := ActionTable_Register h t s {| Action_Type := REDUCE; Action_Number := n2 |} a in
  r.2 = Some (Errorf "conflict in action table: state %d, terminal %s[reduce] %d, [reduce] %d"
                [ArgInt s; ArgStr a; ArgInt n1; ArgInt n2]) /\
  r.1 = h /\
  get r.1 t s a = Some {| Action_Type := REDUCE; Action_Number := n1 |}.
Proof.
  intros Hwf Hget r. subst r.
  rewrite (Register_reduce_reduce h t s a _ _ Hwf Hget) by done. by simpl.
Qed.

Lemma X2_reduce_reduce_keeps_first_witness :
  let h := (ActionTable_Register (make_top (@empty_heap Action)).1 0 0
              {| Action_Type := REDUCE; Action_Number := 1 |} "a").1 in
  let r := ActionTable_Register h 0 0 {| Action_Type := REDUCE; Action_Number := 2 |} "a" in
  r.2 = Some (Errorf "conflict in action table: state %d, terminal %s[reduce] %d, [reduce] %d"
                [ArgInt 0; ArgStr "a"; ArgInt 1; ArgInt 2]) /\
  get r.1 0 0 "a" = Some {| Action_Type := REDUCE; Action_Number := 1 |}.
Proof.
  intros h r.
  assert (Hwf : wf_table h 0).
  { apply Register_wf. apply (make_top_wf empty_heap). }
  destruct (X2_reduce_reduce_keeps_first h 0%nat 0 "a"%string 1 2 Hwf eq_refl)
    as (He & _ & Hg).
  split; [exact He | exact Hg].
Defined.

(** X3.  [GotoTable.Register] never returns an error: the slot holds the
    state registered last, whatever it held, no other slot changes, and the
    table keeps its shape. *)
Theorem X3_GotoTable_Register_last_write_wins
    (h : GotoHeap) (t : nat) (s next : Z) (x : Symbol) :
  wf_table h t ->
  let r := GotoTable_Register h t s next x in
  r.2 = None /\
  get r.1 t s x = Some next /\
  (forall s' x', (s', x') ≠ (s, x) -> get r.1 t s' x' = get h t s' x') /\
  wf_table r.1 t.
Proof.
  intros Hwf r. subst r. unfold GotoTable_Register. simpl. split_and!.
  - done.
  - by apply upd_get_eq.
  - intros. by apply upd_get_ne.
  - by apply upd_wf.
Qed.

Lemma X3_GotoTable_Register_last_write_wins_witness :
  let h := (GotoTable_Register (make_top (@empty_heap Z)).1 0 0 1 "S").1 in
  let r := GotoTable_Register h 0 0 7 "S" in
  get h 0 0 "S" = Some 1 /\ r.2 = None /\ get r.1 0 0 "S" = Some 7.
Proof.
  intros h r.
  assert (Hwf : wf_table h 0).
  { apply GotoTable_Register_wf. apply (make_top_wf empty_heap). }
  destruct (X3_GotoTable_Register_last_write_wins h 0%nat 0 7 "S"%string Hwf)
    as (He & Hg & _).
  split; [by vm_compute|]. split; [exact He | exact Hg].
Defined.

(** ** Entries that stay: GOTO and SHIFT *)

Section InsertStays.
Variable IsEpsilon : Symbol -> bool.
Variable TERMINATE : Terminal.
Implicit Types (state : State) (grammar : Grammar) (t : LRTable) (h : LRHeap) (item : Item).

(** An iteration for an item of [state] keeps the GOTO entry of [state] on
    [x] once it is the successor of [state] on [x]. *)
Lemma Insert_item_keeps_goto state grammar t h e item h' e' x n :
  wf_lr h t -> State_Transitions state !! x = Some n ->
  get (gheap h) (GotoTable t) (State_Index state) x = Some n ->
  Insert_item IsEpsilon TERMINATE state grammar t h e item = Ret (h', e') ->
  get (gheap h') (GotoTable t) (State_Index state) x = Some n.
Proof.
  intros [Ha Hg] Htr Hget Hstep.
  destruct (Insert_item_inv IsEpsilon TERMINATE _ _ _ _ _ _ _ _ Hstep)
    as [(_ & _ & -> & _)|[(_ & _ & m & _ & -> & _)|[(a & m & _ & _ & _ & Hm & -> & _)
       |(a & m & _ & _ & _ & _ & -> & _)]]]; simpl; try done.
  unfold GotoTable_Register. simpl.
  destruct (decide (a = x)) as [Heq|Hne].
  - subst a. assert (Hmn : Some m = Some n) by exact (eq_trans (eq_sym Hm) Htr).
    injection Hmn as ->. by apply upd_get_eq.
  - rewrite upd_get_ne; [done|done|congruence].
Qed.

(** An iteration for an item of [state] keeps the SHIFT of [state] on a
    terminal [a] other than TERMINATE: a REDUCE on [a] is refused, a SHIFT on
    [a] is the same SHIFT, and ACCEPT goes to TERMINATE. *)
Lemma Insert_item_keeps_shift state grammar t h e item h' e' a n :
  wf_lr h t -> a ≠ TERMINATE -> State_Transitions state !! a = Some n ->
  get (aheap h) (ActionTable t) (State_Index state) a
    = Some {| Action_Type := SHIFT; Action_Number := n |} ->
  Insert_item IsEpsilon TERMINATE state grammar t h e item = Ret (h', e') ->
  get (aheap h') (ActionTable t) (State_Index state) a
    = Some {| Action_Type := SHIFT; Action_Number := n |}.
Proof.
  intros [Ha Hg] Hterm Htr Hget Hstep.
  destruct (Insert_item_inv IsEpsilon TERMINATE _ _ _ _ _ _ _ _ Hstep)
    as [(_ & _ & -> & _)|[(_ & _ & m & _ & -> & _)|[(b & m & _ & _ & _ & _ & -> & _)
       |(b & m & _ & _ & _ & Hm & -> & _)]]]; simpl; try done.
  - rewrite Register_frame; [done|done|congruence].
  - destruct (decide (Item_Lookahead item = a)) as [Heq|Hne].
    + rewrite Heq. by rewrite (Register_shift_reduce _ _ _ _ _ _ Ha Hget).
    + rewrite Register_frame; [done|done|congruence].
  - destruct (decide (b = a)) as [Heq|Hne].
    + subst b. assert (Hmn : Some m = Some n) by exact (eq_trans (eq_sym Hm) Htr).
      injection Hmn as ->.
      rewrite Register_store; [|done|by left]. simpl. by apply upd_get_eq.
    + rewrite Register_frame; [done|done|congruence].
Qed.

(** [Insert] of a state with another index keeps every entry of the rows
    of [s]. *)
Lemma Insert_other_state state grammar t h h' s :
  wf_lr h t -> State_Index state ≠ s ->
  Insert IsEpsilon TERMINATE t h state grammar = Ret h' ->
  wf_lr h' t /\
  (forall a, get (aheap h') (ActionTable t) s a = get (aheap h) (ActionTable t) s a) /\
  (forall x, get (gheap h') (GotoTable t) s x = get (gheap h) (GotoTable t) s x).
Proof.
  intros Hwf Hs Hins.
  eapply (Insert_keeps IsEpsilon TERMINATE
            (fun h0 => wf_lr h0 t /\
               (forall a, get (aheap h0) (ActionTable t) s a = get (aheap h) (ActionTable t) s a) /\
               (forall x, get (gheap h0) (GotoTable t) s x = get (gheap h) (GotoTable t) s x)));
    [|done|exact Hins].
  intros h0 e item h0' e' _ (Hwf0 & HA & HG) Hstep.
  split; [by eapply Insert_item_wf|].
  destruct (Insert_item_other_states IsEpsilon TERMINATE _ _ _ _ _ _ _ _ s Hwf0
              (not_eq_sym Hs) Hstep) as [HA' HG'].
  split; intros k; [by rewrite HA', HA|by rewrite HG', HG].
Qed.

(** What [BuildTable] returns, seen from one of its states: the memory
    [h1] and the new table [tb] before [Insert] of the state, and the
    memory [h2] after it. *)
Lemma BuildTable_at h0 (spre spost : list State) state grammar hb tb :
  BuildTable IsEpsilon TERMINATE h0 (spre ++ state :: spost) grammar = Ret (hb, tb) ->
  exists h1 h2,
    wf_lr h1 tb /\
    Insert IsEpsilon TERMINATE tb h1 state grammar = Ret h2 /\
    Insert_states IsEpsilon TERMINATE tb h2 grammar spost = Ret hb.
Proof.
  intros Hbuild. unfold BuildTable in Hbuild.
  destruct (make_top (aheap h0)) as [ha at_] eqn:Ea.
  destruct (make_top (gheap h0)) as [hg gt_] eqn:Eg.
  set (t := {| ActionTable := at_; GotoTable := gt_ |}) in *.
  assert (Hwf0 : wf_lr {| aheap := ha; gheap := hg |} t).
  { split; simpl.
    - pose proof (make_top_wf (aheap h0)) as Hw. by rewrite Ea in Hw.
    - pose proof (make_top_wf (gheap h0)) as Hw. by rewrite Eg in Hw. }
  rewrite Insert_states_app in Hbuild.
  destruct (Insert_states IsEpsilon TERMINATE t {| aheap := ha; gheap := hg |} grammar spre)
    as [h1| |] eqn:Hpre; simpl in Hbuild; [|done..].
  destruct (Insert IsEpsilon TERMINATE t h1 state grammar) as [h2| |] eqn:Hins;
    simpl in Hbuild; [|done..].
  destruct (Insert_states IsEpsilon TERMINATE t h2 grammar spost) as [h3| |] eqn:Hpost;
    simpl in Hbuild; [|done..].
  injection Hbuild as <- <-. exists h1, h2. split_and!; [|done..].
  by eapply Insert_states_wf.
Qed.

(** The states after one with index [s], none of which has index [s], keep
    the rows of [s]. *)
Lemma Insert_states_other grammar t (states : list State) h h' s :
  wf_lr h t -> (forall st, st ∈ states -> State_Index st ≠ s) ->
  Insert_states IsEpsilon TERMINATE t h grammar states = Ret h' ->
  (forall a, get (aheap h') (ActionTable t) s a = get (aheap h) (ActionTable t) s a) /\
  (forall x, get (gheap h') (GotoTable t) s x = get (gheap h) (GotoTable t) s x).
Proof.
  intros Hwf Hother Hrun.
  apply (Insert_states_keeps IsEpsilon TERMINATE
            (fun h0 => wf_lr h0 t /\
               (forall a, get (aheap h0) (ActionTable t) s a = get (aheap h) (ActionTable t) s a) /\
               (forall x, get (gheap h0) (GotoTable t) s x = get (gheap h) (GotoTable t) s x))
            grammar t states) with (h := h) (h' := h'); [|done|exact Hrun].
  intros h0 state h0' Hin (Hwf0 & HA & HG) Hins.
  destruct (Insert_other_state state grammar t h0 h0' s Hwf0 (Hother _ Hin) Hins)
    as (Hwf' & HA' & HG').
  split; [done|]. split; intros k; [by rewrite HA', HA|by rewrite HG', HG].
Qed.

End InsertStays.

(** X4.  Let [item] be an item of [state] with a non-terminal [x] after the
    dot, [n] the index of the state's successor on [x], [pre] the items
    before it and [post] the items after it.  In [LRTable.Insert] the
    iteration of the item is the call that registers [n] at the GOTO slot
    (state, x), on the memory [h1] left by the items of [pre], and [Insert]
    is that call followed by the iterations for [post]; the call changes no
    other GOTO slot and nothing in the ACTION table.  The entry stays: when
    [Insert] returns, the slot holds [n], and so it does in the table that
    [BuildTable] returns, provided no later state has the same index. *)
Theorem X4_goto_entry_of_an_item
    (IsEpsilon : Symbol -> bool) (TERMINATE : Terminal)
    (grammar : Grammar) (t : LRTable) (h : LRHeap)
    (state : State) (pre post : list Item) (item : Item) (x : Symbol) (n : Z)
    (h1 : LRHeap) (e1 : option error) :
  wf_lr h t ->
  State_Items state = pre ++ item :: post ->
  index_body (Production_Body (Item_Production item)) (Item_Dot item) = Ret x ->
  IsEpsilon x = false -> IsNonTerminal grammar x = true ->
  State_Transitions state !! x = Some n ->
  Insert_loop IsEpsilon TERMINATE state grammar t h None pre = Ret (h1, e1) ->
  let s := State_Index state in
  let r := GotoTable_Register (gheap h1) (GotoTable t) s n x in
  Insert_item IsEpsilon TERMINATE state grammar t h1 e1 item
    = Ret ({| aheap := aheap h1; gheap := r.1 |}, None) /\
  Insert IsEpsilon TERMINATE t h state grammar
    = ('(h2, _) ← Insert_loop IsEpsilon TERMINATE state grammar t
                    {| aheap := aheap h1; gheap := r.1 |} None post;
       Ret h2) /\
  get r.1 (GotoTable t) s x = Some n /\
  (forall s' x', (s', x') ≠ (s, x) ->
     get r.1 (GotoTable t) s' x' = get (gheap h1) (GotoTable t) s' x') /\
  (forall h', Insert IsEpsilon TERMINATE t h state grammar = Ret h' ->
     get (gheap h') (GotoTable t) s x = Some n) /\
  (forall h0 spre spost hb tb,
     (forall st, st ∈ spost -> State_Index st ≠ s) ->
     BuildTable IsEpsilon TERMINATE h0 (spre ++ state :: spost) grammar = Ret (hb, tb) ->
     get (gheap hb) (GotoTable tb) s x = Some n).
Proof.
  intros Hwf Hitems Hidx Heps Hnt Htr Hpre s r.
  assert (Hc : item_completed IsEpsilon item = Ret false).
  { unfold item_completed. rewrite Hidx. simpl. rewrite Heps.
    case_bool_decide as Hd; [|done]. unfold index_body in Hidx.
    destruct (bool_decide (0 <= Item_Dot item)); [|done].
    rewrite Hd, Nat2Z.id in Hidx.
    by rewrite (lookup_ge_None_2 _ _ (Nat.le_refl _)) in Hidx. }
  assert (Hstep : forall h e,
            Insert_item IsEpsilon TERMINATE state grammar t h e item
            = Ret ({| aheap := aheap h;
                      gheap := (GotoTable_Register (gheap h) (GotoTable t) s n x).1 |}, None)).
  { intros h2 e. unfold Insert_item. rewrite Hc. simpl. rewrite Hidx. simpl.
    by rewrite Heps, Hnt, Htr. }
  assert (Hkeep : forall t' h2 h', wf_lr h2 t' ->
            Insert IsEpsilon TERMINATE t' h2 state grammar = Ret h' ->
            wf_lr h' t' /\ get (gheap h') (GotoTable t') s x = Some n).
  { intros t' h2 h' Hwf2 Hins. unfold Insert in Hins.
    rewrite Hitems, Insert_loop_app in Hins.
    destruct (Insert_loop IsEpsilon TERMINATE state grammar t' h2 None pre)
      as [[h3 e3]| |] eqn:Hpre'; simpl in Hins; [|done..].
    assert (Hstep' : Insert_item IsEpsilon TERMINATE state grammar t' h3 e3 item
              = Ret ({| aheap := aheap h3;
                        gheap := (GotoTable_Register (gheap h3) (GotoTable t') s n x).1 |},
                     None)).
    { unfold Insert_item. rewrite Hc. simpl. rewrite Hidx. simpl.
      by rewrite Heps, Hnt, Htr. }
    rewrite Hstep' in Hins. simpl in Hins.
    destruct (Insert_loop IsEpsilon TERMINATE state grammar t' _ None post)
      as [[h4 e4]| |] eqn:Hpost; simpl in Hins; [|done..].
    injection Hins as <-.
    pose proof (Insert_loop_wf IsEpsilon TERMINATE _ _ _ _ _ _ _ _ Hwf2 Hpre') as [Ha3 Hg3].
    eapply (Insert_loop_keeps IsEpsilon TERMINATE
              (fun h0 => wf_lr h0 t' /\ get (gheap h0) (GotoTable t') s x = Some n));
      [| |exact Hpost].
    - intros h0 e0 it h0' e0' _ [Hwf0 Hget0] Hst. split; [by eapply Insert_item_wf|].
      by eapply Insert_item_keeps_goto.
    - split.
      + split; simpl; [done|by apply GotoTable_Register_wf].
      + simpl. unfold GotoTable_Register. simpl. by apply upd_get_eq. }
  pose proof (Insert_loop_wf IsEpsilon TERMINATE _ _ _ _ _ _ _ _ Hwf Hpre) as [Ha1 Hg1].
  split_and!.
  - apply Hstep.
  - rewrite (Insert_at IsEpsilon TERMINATE state grammar t h pre post item h1 e1 Hitems Hpre).
    by rewrite Hstep.
  - unfold r, GotoTable_Register. simpl. by apply upd_get_eq.
  - intros s' x' Hne. unfold r, GotoTable_Register. simpl. by apply upd_get_ne.
  - intros h' Hins. by destruct (Hkeep t h h' Hwf Hins).
  - intros h0 spre spost hb tb Hother Hbuild.
    destruct (BuildTable_at IsEpsilon TERMINATE _ _ _ _ _ _ _ Hbuild)
      as (ha & hc & Hwfa & Hins & Hrest).
    destruct (Hkeep tb ha hc Hwfa Hins) as [Hwfc Hget].
    destruct (Insert_states_other IsEpsilon TERMINATE _ _ _ _ _ s Hwfc Hother Hrest)
      as [_ HG].
    by rewrite HG.
Qed.

Lemma X4_goto_entry_of_an_item_witness :
  let item_goto := {| Item_Production := prod_start; Item_Dot := 0; Item_Lookahead := "$" |} in
  let state := sample_state [item_shift_a; item_goto; item_eps] in
  exists hb tb,
    BuildTable sample_IsEpsilon sample_TERMINATE
      {| aheap := empty_heap; gheap := empty_heap |} [state] sample_grammar = Ret (hb, tb) /\
    get (gheap hb) (GotoTable tb) 0 "S" = Some 1.
Proof.
  intros item_goto state.
  destruct (X4_goto_entry_of_an_item sample_IsEpsilon sample_TERMINATE
              sample_grammar fresh_lr_table fresh_lr_heap state
              [item_shift_a] [item_eps] item_goto "S"%string 1
              {| aheap := (ActionTable_Register (aheap fresh_lr_heap) 0 0
                             {| Action_Type := SHIFT; Action_Number := 2 |} "a").1;
                 gheap := gheap fresh_lr_heap |} None)
    as (_ & _ & _ & _ & _ & Hbuild).
  - split; apply (make_top_wf empty_heap).
  - reflexivity.
  - reflexivity.
  - reflexivity.
  - reflexivity.
  - reflexivity.
  - by vm_compute.
  - assert (Hb : exists hb,
              BuildTable sample_IsEpsilon sample_TERMINATE
                {| aheap := empty_heap; gheap := empty_heap |} [state] sample_grammar
              = Ret (hb, fresh_lr_table)).
    { eexists. by vm_compute. }
    destruct Hb as [hb Hb]. exists hb, fresh_lr_table. split; [exact Hb|].
    apply (Hbuild {| aheap := empty_heap; gheap := empty_heap |} [] [] hb fresh_lr_table);
      [|exact Hb].
    intros st Hin. by apply elem_of_nil in Hin.
Defined.

(** X5.  Shift wins.  Let [item] be an item of [state] with a terminal [a]
    after the dot, [n] the index of the state's successor on [a], [pre] the
    items before it and [post] the items after it.  In [LRTable.Insert] the
    iteration of the item is the call that registers SHIFT [n] at the ACTION
    slot (state, a), on the memory [h1] left by the items of [pre], and
    [Insert] is that call followed by the iterations for [post]; the call
    stores the SHIFT whatever the slot held (a REDUCE registered before is
    overwritten without an error), and changes no other ACTION slot and
    nothing in the GOTO table.  When [a] is not TERMINATE the SHIFT stays: a
    REDUCE that comes later is refused, so the slot holds SHIFT [n] when
    [Insert] returns and in the table that [BuildTable] returns, provided no
    later state has the same index. *)
Theorem X5_shift_entry_of_an_item
    (IsEpsilon : Symbol -> bool) (TERMINATE : Terminal)
    (grammar : Grammar) (t : LRTable) (h : LRHeap)
    (state : State) (pre post : list Item) (item : Item) (a : Symbol) (n : Z)
    (h1 : LRHeap) (e1 : option error) :
  wf_lr h t ->
  State_Items state = pre ++ item :: post ->
  index_body (Production_Body (Item_Production item)) (Item_Dot item) = Ret a ->
  IsEpsilon a = false -> IsNonTerminal grammar a = false ->
  State_Transitions state !! a = Some n ->
  Insert_loop IsEpsilon TERMINATE state grammar t h None pre = Ret (h1, e1) ->
  let s := State_Index state in
  let sh := {| Action_Type := SHIFT; Action_Number := n |} in
  let r := ActionTable_Register (aheap h1) (ActionTable t) s sh a in
  Insert_item IsEpsilon TERMINATE state grammar t h1 e1 item
    = Ret ({| aheap := r.1; gheap := gheap h1 |}, None) /\
  Insert IsEpsilon TERMINATE t h state grammar
    = ('(h2, _) ← Insert_loop IsEpsilon TERMINATE state grammar t
                    {| aheap := r.1; gheap := gheap h1 |} None post;
       Ret h2) /\
  get r.1 (ActionTable t) s a = Some sh /\
  (forall s' a', (s', a') ≠ (s, a) ->
     get r.1 (ActionTable t) s' a' = get (aheap h1) (ActionTable t) s' a') /\
  (a ≠ TERMINATE ->
   (forall h', Insert IsEpsilon TERMINATE t h state grammar = Ret h' ->
      get (aheap h') (ActionTable t) s a = Some sh) /\
   (forall h0 spre spost hb tb,
      (forall st, st ∈ spost -> State_Index st ≠ s) ->
      BuildTable IsEpsilon TERMINATE h0 (spre ++ state :: spost) grammar = Ret (hb, tb) ->
      get (aheap hb) (ActionTable tb) s a = Some sh)).
Proof.
  intros Hwf Hitems Hidx Heps Hnt Htr Hpre s sh r.
  assert (Hstep : forall t' h2 e, wf_lr h2 t' ->
            Insert_item IsEpsilon TERMINATE state grammar t' h2 e item
            = Ret ({| aheap := set (ensure_row (aheap h2) (ActionTable t') s)
                                 (ActionTable t') s a sh;
                      gheap := gheap h2 |}, None)).
  { intros t' h2 e [Ha2 _]. by apply Insert_item_shift. }
  assert (Hreg : forall t' h2, wf_lr h2 t' ->
            ActionTable_Register (aheap h2) (ActionTable t') s sh a
            = (set (ensure_row (aheap h2) (ActionTable t') s) (ActionTable t') s a sh, None)).
  { intros t' h2 [Ha2 _]. apply Register_store; [done|]. intros cur _. by left. }
  assert (Hkeep : a ≠ TERMINATE -> forall t' h2 h', wf_lr h2 t' ->
            Insert IsEpsilon TERMINATE t' h2 state grammar = Ret h' ->
            wf_lr h' t' /\ get (aheap h') (ActionTable t') s a = Some sh).
  { intros Hterm t' h2 h' Hwf2 Hins. unfold Insert in Hins.
    rewrite Hitems, Insert_loop_app in Hins.
    destruct (Insert_loop IsEpsilon TERMINATE state grammar t' h2 None pre)
      as [[h3 e3]| |] eqn:Hpre'; simpl in Hins; [|done..].
    pose proof (Insert_loop_wf IsEpsilon TERMINATE _ _ _ _ _ _ _ _ Hwf2 Hpre') as Hwf3.
    rewrite (Hstep t' h3 e3 Hwf3) in Hins. simpl in Hins.
    destruct (Insert_loop IsEpsilon TERMINATE state grammar t' _ None post)
      as [[h4 e4]| |] eqn:Hpost; simpl in Hins; [|done..].
    injection Hins as <-. destruct Hwf3 as [Ha3 Hg3].
    eapply (Insert_loop_keeps IsEpsilon TERMINATE
              (fun h0 => wf_lr h0 t' /\ get (aheap h0) (ActionTable t') s a = Some sh));
      [| |exact Hpost].
    - intros h0 e0 it h0' e0' _ [Hwf0 Hget0] Hst. split; [by eapply Insert_item_wf|].
      by eapply Insert_item_keeps_shift.
    - split.
      + split; simpl; [by apply upd_wf|done].
      + simpl. by apply upd_get_eq. }
  pose proof (Insert_loop_wf IsEpsilon TERMINATE _ _ _ _ _ _ _ _ Hwf Hpre) as Hwf1.
  assert (Hr : r = (set (ensure_row (aheap h1) (ActionTable t) s) (ActionTable t) s a sh, None))
    by (by apply Hreg).
  split_and!.
  - rewrite Hr. by apply Hstep.
  - rewrite (Insert_at IsEpsilon TERMINATE state grammar t h pre post item h1 e1 Hitems Hpre).
    rewrite (Hstep t h1 e1 Hwf1). simpl. by rewrite Hr.
  - rewrite Hr. simpl. apply upd_get_eq. by destruct Hwf1.
  - intros s' a' Hne. rewrite Hr. simpl. apply upd_get_ne; [by destruct Hwf1|done].
  - intros Hterm. split.
    + intros h' Hins. by destruct (Hkeep Hterm t h h' Hwf Hins).
    + intros h0 spre spost hb tb Hother Hbuild.
      destruct (BuildTable_at IsEpsilon TERMINATE _ _ _ _ _ _ _ Hbuild)
        as (ha & hc & Hwfa & Hins & Hrest).
      destruct (Hkeep Hterm tb ha hc Hwfa Hins) as [Hwfc Hget].
      destruct (Insert_states_other IsEpsilon TERMINATE _ _ _ _ _ s Hwfc Hother Hrest)
        as [HA _].
      by rewrite HA.
Qed.

Lemma X5_shift_entry_of_an_item_witness :
  let state := sample_state [item_reduce_a; item_shift_a; item_reduce_a] in
  exists hb tb,
    BuildTable sample_IsEpsilon sample_TERMINATE
      {| aheap := empty_heap; gheap := empty_heap |} [state] sample_grammar = Ret (hb, tb) /\
    get (aheap hb) (ActionTable tb) 0 "a"
      = Some {| Action_Type := SHIFT; Action_Number := 2 |}.
Proof.
  intros state.
  destruct (X5_shift_entry_of_an_item sample_IsEpsilon sample_TERMINATE
              sample_grammar fresh_lr_table fresh_lr_heap state
              [item_reduce_a] [item_reduce_a] item_shift_a "a"%string 2
              {| aheap := (ActionTable_Register (aheap fresh_lr_heap) 0 0
                             {| Action_Type := REDUCE; Action_Number := 1 |} "a").1;
                 gheap := gheap fresh_lr_heap |} None)
    as (_ & _ & _ & _ & Hstay).
  - split; apply (make_top_wf empty_heap).
  - reflexivity.
  - reflexivity.
  - reflexivity.
  - reflexivity.
  - reflexivity.
  - by vm_compute.
  - destruct Hstay as [_ Hbuild]; [discriminate|].
    assert (Hb : exists hb,
              BuildTable sample_IsEpsilon sample_TERMINATE
                {| aheap := empty_heap; gheap := empty_heap |} [state] sample_grammar
              = Ret (hb, fresh_lr_table)).
    { eexists. by vm_compute. }
    destruct Hb as [hb Hb]. exists hb, fresh_lr_table. split; [exact Hb|].
    apply (Hbuild {| aheap := empty_heap; gheap := empty_heap |} [] [] hb fresh_lr_table);
      [|exact Hb].
    intros st Hin. by apply elem_of_nil in Hin.
Defined.

Section InsertFaults.
Variable IsEpsilon : Symbol -> bool.
Variable TERMINATE : Terminal.

Lemma Insert_item_no_timeout state grammar t h err0 item :
  Insert_item IsEpsilon TERMINATE state grammar t h err0 item ≠ Timeout.
Proof.
  unfold Insert_item, item_completed, index_body, of_option.
  repeat (case_bool_decide || case_match || simpl); try done;
    repeat (case_match || simpl); done.
Qed.

Lemma Insert_loop_faults state grammar t items item :
  item ∈ items ->
  (forall h e, Insert_item IsEpsilon TERMINATE state grammar t h e item = Fault) ->
  forall h e, Insert_loop IsEpsilon TERMINATE state grammar t h e items = Fault.
Proof.
  intros Hin Hbad. induction items as [|it items IH]; intros h e.
  - by apply elem_of_nil in Hin.
  - simpl. apply elem_of_cons in Hin as [<-|Hin].
    + by rewrite Hbad.
    + destruct (Insert_item IsEpsilon TERMINATE state grammar t h e it)
        as [[h1 e1]| |] eqn:E; simpl; [by apply IH|done|].
      by destruct (Insert_item_no_timeout state grammar t h e it).
Qed.

End InsertFaults.

(** ** [LRTable.Insert] as a whole *)



(** X7.  [LRTable.Insert] of a state changes the rows of that state only:
    every ACTION and GOTO lookup at another state index answers as before,
    and both tables keep their shape. *)
Theorem X7_Insert_touches_only_its_state
    (IsEpsilon : Symbol -> bool) (TERMINATE : Terminal)
    (t : LRTable) (h h' : LRHeap) (state : State) (grammar : Grammar) :
  wf_lr h t ->
  Insert IsEpsilon TERMINATE t h state grammar = Ret h' ->
  wf_lr h' t /\
  forall s, s ≠ State_Index state ->
    (forall a, get (aheap h') (ActionTable t) s a = get (aheap h) (ActionTable t) s a) /\
    (forall x, get (gheap h') (GotoTable t) s x = get (gheap h) (GotoTable t) s x).
Proof.
  intros Hwf Hins. split; [by eapply Insert_wf|]. intros s Hs.
  apply (Insert_keeps IsEpsilon TERMINATE
           (fun h0 => wf_lr h0 t /\
              (forall a, get (aheap h0) (ActionTable t) s a = get (aheap h) (ActionTable t) s a) /\
              (forall x, get (gheap h0) (GotoTable t) s x = get (gheap h) (GotoTable t) s x))
           state grammar t h h'); [|done|done].
  intros h0 e item h0' e' _ (Hwf0 & HA & HG) Hstep.
  destruct (Insert_item_other_states IsEpsilon TERMINATE _ _ _ _ _ _ _ _ s Hwf0 Hs Hstep)
    as [HA' HG'].
  split; [by eapply Insert_item_wf|]. split.
  - intros a. by rewrite HA'.
  - intros x. by rewrite HG'.
Qed.

Lemma X7_Insert_touches_only_its_state_witness :
  exists h',
    Insert sample_IsEpsilon sample_TERMINATE fresh_lr_table fresh_lr_heap
      (sample_state [item_shift_a]) sample_grammar = Ret h' /\
    get (aheap h') 0 1 "a" = None.
Proof.
  pose (r := Insert sample_IsEpsilon sample_TERMINATE fresh_lr_table fresh_lr_heap
               (sample_state [item_shift_a]) sample_grammar).
  assert (Hr : r = Ret (match r with Ret h' => h' | _ => fresh_lr_heap end))
    by (vm_compute; reflexivity).
  eexists. split; [exact Hr|].
  destruct (X7_Insert_touches_only_its_state sample_IsEpsilon sample_TERMINATE
              fresh_lr_table fresh_lr_heap _ (sample_state [item_shift_a]) sample_grammar
              (conj (make_top_wf empty_heap) (make_top_wf empty_heap)) Hr) as [_ Hframe].
  destruct (Hframe 1 ltac:(done)) as [HA _]. by rewrite HA.
Defined.

(** X8.  [LRTable.Insert] never empties a slot: an ACTION or GOTO slot that
    holds an entry before the call holds one after it. *)
Theorem X8_Insert_never_empties_a_slot
    (IsEpsilon : Symbol -> bool) (TERMINATE : Terminal)
    (t : LRTable) (h h' : LRHeap) (state : State) (grammar : Grammar) :
  wf_lr h t ->
  Insert IsEpsilon TERMINATE t h state grammar = Ret h' ->
  (forall s a, is_Some (get (aheap h) (ActionTable t) s a) ->
               is_Some (get (aheap h') (ActionTable t) s a)) /\
  (forall s x, is_Some (get (gheap h) (GotoTable t) s x) ->
               is_Some (get (gheap h') (GotoTable t) s x)).
Proof.
  intros Hwf Hins.
  apply (Insert_keeps IsEpsilon TERMINATE
           (fun h0 => wf_lr h0 t /\
              (forall s a, is_Some (get (aheap h) (ActionTable t) s a) ->
                           is_Some (get (aheap h0) (ActionTable t) s a)) /\
              (forall s x, is_Some (get (gheap h) (GotoTable t) s x) ->
                           is_Some (get (gheap h0) (GotoTable t) s x)))
           state grammar t h h'); [|done|done].
  intros h0 e item h0' e' _ (Hwf0 & HA & HG) Hstep.
  destruct (Insert_item_keeps_entries IsEpsilon TERMINATE _ _ _ _ _ _ _ _ Hwf0 Hstep)
    as [HA' HG'].
  split; [by eapply Insert_item_wf|]. split; eauto.
Qed.

Lemma X8_Insert_never_empties_a_slot_witness :
  let h := {| aheap := (ActionTable_Register (aheap fresh_lr_heap) 0 0
                          {| Action_Type := REDUCE; Action_Number := 1 |} "a").1;
              gheap := gheap fresh_lr_heap |} in
  exists h',
    Insert sample_IsEpsilon sample_TERMINATE fresh_lr_table h
      (sample_state [item_shift_a]) sample_grammar = Ret h' /\
    is_Some (get (aheap h') 0 0 "a").
Proof.
  intros h.
  pose (r := Insert sample_IsEpsilon sample_TERMINATE fresh_lr_table h
               (sample_state [item_shift_a]) sample_grammar).
  assert (Hr : r = Ret (match r with Ret h' => h' | _ => fresh_lr_heap end))
    by (vm_compute; reflexivity).
  eexists. split; [exact Hr|].
  assert (Hwf : wf_lr h fresh_lr_table).
  { split; simpl; [apply Register_wf|]; apply (make_top_wf empty_heap). }
  destruct (X8_Insert_never_empties_a_slot sample_IsEpsilon sample_TERMINATE
              fresh_lr_table h _ (sample_state [item_shift_a]) sample_grammar Hwf Hr)
    as [HA _].
  apply HA. vm_compute. by eexists.
Defined.

Section BuildTableSound.
Variable IsEpsilon : Symbol -> bool.
Variable TERMINATE : Terminal.
Variable grammar : Grammar.
Variable states : list State.
Variable t : LRTable.

Lemma Register_justified (ha : ActionHeap) s a act :
  wf_table ha (ActionTable t) ->
  (forall s' a' act', get ha (ActionTable t) s' a' = Some act' ->
     action_justified IsEpsilon TERMINATE grammar states s' a' act') ->
  action_justified IsEpsilon TERMINATE grammar states s a act ->
  forall s' a' act',
    get (ActionTable_Register ha (ActionTable t) s act a).1 (ActionTable t) s' a' = Some act' ->
    action_justified IsEpsilon TERMINATE grammar states s' a' act'.
Proof.
  intros Hwf Hold Hnew s' a' act' Hget.
  destruct (decide ((s', a') = (s, a))) as [[= -> ->]|Hne].
  - destruct (Register_cases ha (ActionTable t) s a act Hwf)
      as [(cur & _ & _ & _ & Hh & _)|Hst].
    + rewrite Hh in Hget. by eapply Hold.
    + rewrite Hst in Hget. simpl in Hget. rewrite upd_get_eq in Hget by done.
      by injection Hget as <-.
  - rewrite Register_frame in Hget by done. by eapply Hold.
Qed.

Lemma Insert_item_justified state item h e h' e' :
  state ∈ states -> item ∈ State_Items state ->
  wf_lr h t -> all_justified IsEpsilon TERMINATE grammar states t h ->
  Insert_item IsEpsilon TERMINATE state grammar t h e item = Ret (h', e') ->
  all_justified IsEpsilon TERMINATE grammar states t h'.
Proof.
  intros Hst Hit [Ha Hg] [HA HG] Hstep.
  destruct (Insert_item_inv _ _ _ _ _ _ _ _ _ _ Hstep)
    as [(Hc & Hacc & -> & _)|[(Hc & Hacc & n & Hn & -> & _)
       |[(a & n & Hidx & Heps & Hnt & Htr & -> & _)
        |(a & n & Hidx & Heps & Hnt & Htr & -> & _)]]]; split; simpl; try done.
  - apply Register_justified; [done..|].
    exists state, item. split_and!; try done. left. by split_and!.
  - apply Register_justified; [done..|].
    exists state, item. split_and!; try done. right; left. exists n. by split_and!.
  - intros s x m Hget. unfold GotoTable_Register in Hget. simpl in Hget.
    destruct (decide ((s, x) = (State_Index state, a))) as [[= -> ->]|Hne].
    + rewrite upd_get_eq in Hget by done. injection Hget as <-.
      exists state, item. by split_and!.
    + rewrite upd_get_ne in Hget by done. by eapply HG.
  - apply Register_justified; [done..|].
    exists state, item. split_and!; try done. right; right. exists n. by split_and!.
Qed.

Lemma Insert_states_justified sub h h' :
  sub ⊆ states -> wf_lr h t -> all_justified IsEpsilon TERMINATE grammar states t h ->
  Insert_states IsEpsilon TERMINATE t h grammar sub = Ret h' ->
  wf_lr h' t /\ all_justified IsEpsilon TERMINATE grammar states t h'.
Proof.
  intros Hsub Hwf Hj Hrun.
  apply (Insert_states_keeps IsEpsilon TERMINATE (fun h0 => wf_lr h0 t /\ all_justified IsEpsilon TERMINATE grammar states t h0)
           grammar t sub) with (h := h); [|done|done].
  intros h0 state h0' Hin [Hwf0 Hj0] Hins.
  apply (Insert_keeps IsEpsilon TERMINATE (fun h1 => wf_lr h1 t /\ all_justified IsEpsilon TERMINATE grammar states t h1)
           state grammar t h0 h0'); [|done|done].
  intros h1 e item h1' e' Hit [Hwf1 Hj1] Hstep.
  split; [by eapply Insert_item_wf|].
  eapply Insert_item_justified; [|done..]. by apply Hsub.
Qed.

End BuildTableSound.

Lemma make_top_get {K} `{Countable K} {V} (h : heap K V) s k :
  get (make_top h).1 (make_top h).2 s k = None.
Proof.
  unfold get, get_row, top_of. simpl.
  rewrite lookup_app_r by lia. rewrite Nat.sub_diag. simpl. by rewrite lookup_empty.
Qed.

(** X9.  Every entry of the tables that [BuildTable] returns has an item
    that asked for it.  An ACTION entry at (s, a) is an ACCEPT, a REDUCE or a
    SHIFT: ACCEPT for a completed item of a state with index [s] that has
    lookahead TERMINATE = [a] and the augmented production; REDUCE [n] for a
    completed item with lookahead [a] whose production has index [n];
    SHIFT [n] for an item with the terminal [a] after the dot, [n] being the
    successor of the state on [a].  A GOTO entry at (s, x) is the successor
    on [x] of a state with index [s] that has an item with the non-terminal
    [x] after the dot.  Both tables are in shape. *)
Theorem X9_BuildTable_entries_are_justified
    (IsEpsilon : Symbol -> bool) (TERMINATE : Terminal)
    (h h' : LRHeap) (states : list State) (grammar : Grammar) (t : LRTable) :
  BuildTable IsEpsilon TERMINATE h states grammar = Ret (h', t) ->
  wf_lr h' t /\
  (forall s a act,
     get (aheap h') (ActionTable t) s a = Some act ->
     action_justified IsEpsilon TERMINATE grammar states s a act /\
     (Action_Type act = SHIFT \/ Action_Type act = REDUCE \/ Action_Type act = ACCEPT) /\
     s ∈ State_Index <$> states) /\
  (forall s x n,
     get (gheap h') (GotoTable t) s x = Some n ->
     goto_justified IsEpsilon grammar states s x n /\
     IsNonTerminal grammar x = true /\
     s ∈ State_Index <$> states).
Proof.
  unfold BuildTable. intros Hb.
  destruct (make_top (aheap h)) as [ha at_] eqn:Ea.
  destruct (make_top (gheap h)) as [hg gt_] eqn:Eg.
  destruct (Insert_states IsEpsilon TERMINATE _ _ grammar states) as [h1| |] eqn:Erun;
    simpl in Hb; [|done..].
  injection Hb as <- <-.
  assert (Hwf0 : wf_lr {| aheap := ha; gheap := hg |}
                   {| ActionTable := at_; GotoTable := gt_ |}).
  { split; simpl.
    - pose proof (make_top_wf (aheap h)) as Hw. by rewrite Ea in Hw.
    - pose proof (make_top_wf (gheap h)) as Hw. by rewrite Eg in Hw. }
  assert (Hj0 : all_justified IsEpsilon TERMINATE grammar states
                  {| ActionTable := at_; GotoTable := gt_ |} {| aheap := ha; gheap := hg |}).
  { split; simpl.
    - intros s a act. pose proof (make_top_get (aheap h) s a) as Hn.
      rewrite Ea in Hn. simpl in Hn. by rewrite Hn.
    - intros s x n. pose proof (make_top_get (gheap h) s x) as Hn.
      rewrite Eg in Hn. simpl in Hn. by rewrite Hn. }
  destruct (Insert_states_justified IsEpsilon TERMINATE grammar states _ states _ _
              ltac:(done) Hwf0 Hj0 Erun) as [Hwf [HA HG]].
  split; [done|]. split.
  - intros s a act Hget. pose proof (HA s a act Hget) as Hj. split; [done|].
    destruct Hj as (state & item & Hst & Hidx & _ & Hcase). split.
    + destruct Hcase as [(-> & _)|[(n & -> & _)|(n & -> & _)]]; auto.
    + apply list_elem_of_fmap. by exists state.
  - intros s x n Hget. pose proof (HG s x n Hget) as Hj. split; [done|].
    destruct Hj as (state & item & Hst & Hidx & _ & _ & _ & Hnt & _). split; [done|].
    apply list_elem_of_fmap. by exists state.
Qed.

Lemma X9_BuildTable_entries_are_justified_witness :
  exists h' t,
    BuildTable sample_IsEpsilon sample_TERMINATE
      {| aheap := empty_heap; gheap := empty_heap |}
      [sample_state [item_shift_a; item_eps]] sample_grammar = Ret (h', t) /\
    wf_lr h' t.
Proof.
  pose (r := BuildTable sample_IsEpsilon sample_TERMINATE
               {| aheap := empty_heap; gheap := empty_heap |}
               [sample_state [item_shift_a; item_eps]] sample_grammar).
  assert (Hr : r = Ret (match r with Ret (h', _) => h' | _ => fresh_lr_heap end,
                        match r with Ret (_, t) => t | _ => fresh_lr_table end))
    by (vm_compute; reflexivity).
  eexists _, _. split; [exact Hr|].
  apply (X9_BuildTable_entries_are_justified _ _ _ _ _ _ _ Hr).
Defined.

(** ** Tables that share the memory *)

Section Apart.
Context {K : Type} `{Countable K} {V : Type}.
Implicit Types (h : heap K V) (t : nat) (s : Z) (k : K) (v : V).

Lemma get_row_ensure_row_other h t s t' s' :
  (t < length (tops h))%nat -> t ≠ t' ->
  get_row (ensure_row h t s) t' s' = get_row h t' s'.
Proof.
  intros Ht Hne. unfold ensure_row. destruct (get_row h t s); [done|].
  unfold get_row. rewrite top_of_make_row by done. by rewrite decide_False.
Qed.

Lemma get_row_ensure_row_same h t s s' p :
  wf_table h t ->
  get_row (ensure_row h t s) t s' = Some p ->
  get_row h t s' = Some p \/ (get_row h t s = None /\ p = length (rows h)).
Proof.
  intros (Ht & _) Hp. unfold ensure_row in Hp.
  destruct (get_row h t s) eqn:E; [by left|].
  unfold get_row in Hp. rewrite top_of_make_row in Hp by done.
  rewrite decide_True in Hp by done.
  destruct (decide (s = s')) as [->|Hs].
  - rewrite lookup_insert_eq in Hp. injection Hp as <-. by right.
  - rewrite lookup_insert_ne in Hp by done. by left.
Qed.

(** A store through [t] is not seen through a table apart from it. *)
Lemma upd_apart h t s k v t' :
  wf_table h t -> apart h t t' ->
  apart (set (ensure_row h t s) t s k v) t t' /\
  forall s' k', get (set (ensure_row h t s) t s k v) t' s' k' = get h t' s' k'.
Proof.
  intros Hwf (Hne & Hwf' & Hdis). pose proof Hwf as (Ht & Hv & _).
  pose proof Hwf' as (_ & Hv' & _).
  assert (Hdis1 : forall s1 s2 p,
            get_row (ensure_row h t s) t s1 = Some p ->
            get_row (ensure_row h t s) t' s2 ≠ Some p).
  { intros s1 s2 p Hp. rewrite get_row_ensure_row_other by done.
    destruct (get_row_ensure_row_same h t s s1 p Hwf Hp) as [Hold|[_ ->]].
    - by apply (Hdis s1 s2 p).
    - intros Hq. pose proof (Hv' _ _ Hq). lia. }
  split.
  - split; [done|]. split.
    + by apply set_wf, ensure_row_wf_other.
    + intros s1 s2 p. rewrite !get_row_set. apply Hdis1.
  - intros s' k'.
    destruct (ensure_row_get_row h t s Hwf) as (p & Hp & Hlt).
    rewrite (set_get_other_table _ t s k v t' s' k' p Hp Hlt).
    + by apply ensure_row_get.
    + intros s''. by apply (Hdis1 s).
Qed.

Lemma make_top_apart h t' :
  wf_table h t' -> apart (make_top h).1 (make_top h).2 t'.
Proof.
  intros Hwf. pose proof Hwf as (Ht & Hv & Hinj). split; [simpl; lia|]. split.
  - split; [|split].
    + simpl. rewrite length_app. lia.
    + intros s p. unfold get_row, top_of. simpl. rewrite lookup_app_l by done. apply Hv.
    + intros s1 s2 p. unfold get_row, top_of. simpl. rewrite lookup_app_l by done.
      apply Hinj.
  - intros s1 s2 p Hp. unfold get_row, top_of in Hp. simpl in Hp.
    rewrite lookup_app_r in Hp by lia. rewrite Nat.sub_diag in Hp. simpl in Hp.
    by rewrite lookup_empty in Hp.
Qed.

Lemma make_top_get_old h t' s k :
  (t' < length (tops h))%nat -> get (make_top h).1 t' s k = get h t' s k.
Proof.
  intros Hlt. unfold get, get_row, top_of. simpl. by rewrite lookup_app_l.
Qed.

End Apart.

Lemma Register_apart (h : ActionHeap) t s a action t' :
  wf_table h t -> apart h t t' ->
  apart (ActionTable_Register h t s action a).1 t t' /\
  forall s' a', get (ActionTable_Register h t s action a).1 t' s' a' = get h t' s' a'.
Proof.
  intros Hwf Hap.
  destruct (Register_cases h t s a action Hwf) as [(cur & _ & _ & _ & -> & _)| ->].
  - done.
  - simpl. by apply upd_apart.
Qed.

Section BuildTableFrame.
Variable IsEpsilon : Symbol -> bool.
Variable TERMINATE : Terminal.

Lemma Insert_item_others_kept state grammar t ta tg h0 h e item h' e' :
  others_kept t ta tg h0 h ->
  Insert_item IsEpsilon TERMINATE state grammar t h e item = Ret (h', e') ->
  others_kept t ta tg h0 h'.
Proof.
  intros (Hwf & Hapa & Hapg & HA & HG) Hstep. pose proof Hwf as [Ha Hg].
  split; [by eapply Insert_item_wf|].
  destruct (Insert_item_inv _ _ _ _ _ _ _ _ _ _ Hstep)
    as [(_ & _ & -> & _)|[(_ & _ & n & _ & -> & _)|[(a & n & _ & _ & _ & _ & -> & _)
       |(a & n & _ & _ & _ & _ & -> & _)]]]; simpl.
  - destruct (Register_apart (aheap h) (ActionTable t) (State_Index state) TERMINATE
                {| Action_Type := ACCEPT; Action_Number := 0 |} ta Ha Hapa) as [Hap' Hsame].
    split_and!; try done. intros. by rewrite Hsame.
  - destruct (Register_apart (aheap h) (ActionTable t) (State_Index state)
                (Item_Lookahead item)
                {| Action_Type := REDUCE; Action_Number := n |} ta Ha Hapa) as [Hap' Hsame].
    split_and!; try done. intros. by rewrite Hsame.
  - unfold GotoTable_Register. simpl.
    destruct (upd_apart (gheap h) (GotoTable t) (State_Index state) a n tg Hg Hapg)
      as [Hap' Hsame].
    split_and!; try done. intros. by rewrite Hsame.
  - destruct (Register_apart (aheap h) (ActionTable t) (State_Index state) a
                {| Action_Type := SHIFT; Action_Number := n |} ta Ha Hapa) as [Hap' Hsame].
    split_and!; try done. intros. by rewrite Hsame.
Qed.

End BuildTableFrame.

(** X10.  [BuildTable] builds into two new tables: the tables that the
    memory held before (the previous [p.Table], copies of it) are other
    tables, and every lookup on them answers as before. *)
Theorem X10_BuildTable_leaves_old_tables_alone
    (IsEpsilon : Symbol -> bool) (TERMINATE : Terminal)
    (h h' : LRHeap) (states : list State) (grammar : Grammar) (t : LRTable)
    (ta tg : nat) :
  wf_table (aheap h) ta -> wf_table (gheap h) tg ->
  BuildTable IsEpsilon TERMINATE h states grammar = Ret (h', t) ->
  ActionTable t ≠ ta /\ GotoTable t ≠ tg /\
  (forall s a, get (aheap h') ta s a = get (aheap h) ta s a) /\
  (forall s x, get (gheap h') tg s x = get (gheap h) tg s x).
Proof.
  intros Hwa Hwg. unfold BuildTable. intros Hb.
  pose proof (make_top_apart (aheap h) ta Hwa) as Hapa.
  pose proof (make_top_apart (gheap h) tg Hwg) as Hapg.
  pose proof (make_top_wf (aheap h)) as Hwfa.
  pose proof (make_top_wf (gheap h)) as Hwfg.
  assert (Hga : forall s a, get (make_top (aheap h)).1 ta s a = get (aheap h) ta s a).
  { intros. apply make_top_get_old. apply Hwa. }
  assert (Hgg : forall s x, get (make_top (gheap h)).1 tg s x = get (gheap h) tg s x).
  { intros. apply make_top_get_old. apply Hwg. }
  destruct (make_top (aheap h)) as [ha at_].
  destruct (make_top (gheap h)) as [hg gt_].
  destruct (Insert_states IsEpsilon TERMINATE _ _ grammar states) as [h1| |] eqn:Erun;
    simpl in Hb; [|done..].
  injection Hb as <- <-. simpl in *.
  assert (Hk : others_kept {| ActionTable := at_; GotoTable := gt_ |} ta tg h h1).
  { apply (Insert_states_keeps IsEpsilon TERMINATE
             (others_kept {| ActionTable := at_; GotoTable := gt_ |} ta tg h)
             grammar {| ActionTable := at_; GotoTable := gt_ |} states)
        with (h := {| aheap := ha; gheap := hg |}); [| |done].
    - intros h0 state h0' _ Hk0 Hins.
      apply (Insert_keeps IsEpsilon TERMINATE
               (others_kept {| ActionTable := at_; GotoTable := gt_ |} ta tg h)
               state grammar {| ActionTable := at_; GotoTable := gt_ |} h0 h0');
        [|done|done].
      intros h2 e item h2' e' _ Hk2 Hstep. by eapply Insert_item_others_kept.
    - by split_and!. }
  destruct Hk as (_ & (Hna & _) & (Hng & _) & HA & HG). by split_and!.
Qed.

Lemma X10_BuildTable_leaves_old_tables_alone_witness :
  let h := {| aheap := (ActionTable_Register (aheap fresh_lr_heap) 0 0
                          {| Action_Type := REDUCE; Action_Number := 1 |} "a").1;
              gheap := gheap fresh_lr_heap |} in
  exists h' t,
    BuildTable sample_IsEpsilon sample_TERMINATE h
      [sample_state [item_shift_a]] sample_grammar = Ret (h', t) /\
    get (aheap h') 0 0 "a" = Some {| Action_Type := REDUCE; Action_Number := 1 |} /\
    get (aheap h') (ActionTable t) 0 "a" = Some {| Action_Type := SHIFT; Action_Number := 2 |}.
Proof.
  intros h.
  pose (r := BuildTable sample_IsEpsilon sample_TERMINATE h
               [sample_state [item_shift_a]] sample_grammar).
  assert (Hr : r = Ret (match r with Ret (h', _) => h' | _ => fresh_lr_heap end,
                        match r with Ret (_, t) => t | _ => fresh_lr_table end))
    by (vm_compute; reflexivity).
  eexists _, _. split; [exact Hr|].
  assert (Hwa : wf_table (aheap h) 0).
  { simpl. apply Register_wf. apply (make_top_wf empty_heap). }
  destruct (X10_BuildTable_leaves_old_tables_alone _ _ _ _ _ _ _ 0%nat 0%nat
              Hwa (make_top_wf empty_heap) Hr) as (_ & _ & HA & _).
  split; [|by vm_compute]. rewrite HA. by vm_compute.
Defined.

(** * Further properties of the symbol table *)

Section LookupWalk.
Implicit Types (m : Store) (st : SymbolTable) (cur p : nat) (variable : string).

(** What the walk returns, it has found in a scope it loaded; what it
    reports missing, it reports with the one error. *)
Lemma Lookup_loop_found fuel m cur scope variable item flag err :
  Lookup_loop fuel m cur scope variable = Ret (Some item, flag, err) ->
  err = None /\
  exists p sc, scopes m !! p = Some sc /\ Items sc !! variable = Some item /\
               flag = bool_decide (p = cur).
Proof.
  revert scope. induction fuel as [|fuel IH]; intros scope Hl.
  - destruct scope; simpl in Hl; discriminate.
  - destruct scope as [p|]; simpl in Hl; [|discriminate].
    unfold load_scope in Hl. destruct (scopes m !! p) as [sc|] eqn:Hsc; simpl in Hl; [|done].
    destruct (Items sc !! variable) as [i|] eqn:Hi.
    + injection Hl as <- <- <-. split; [done|]. by exists p, sc.
    + destruct fuel; [destruct (Parent sc); simpl in Hl; discriminate|].
      by apply (IH (Parent sc)).
Qed.

Lemma Lookup_loop_missing fuel m cur scope variable flag err :
  Lookup_loop fuel m cur scope variable = Ret (None, flag, err) ->
  flag = false /\ err = Some (Errorf "item %s not found in any scope" [ArgStr variable]).
Proof.
  revert scope. induction fuel as [|fuel IH]; intros scope Hl.
  - destruct scope; simpl in Hl; [discriminate|]. by injection Hl as <- <-.
  - destruct scope as [p|]; simpl in Hl; [|by injection Hl as <- <-].
    unfold load_scope in Hl. destruct (scopes m !! p) as [sc|] eqn:Hsc; simpl in Hl; [|done].
    destruct (Items sc !! variable) as [i|] eqn:Hi; [discriminate|].
    by apply (IH (Parent sc)).
Qed.

(** With parents allocated before their children, the walk from [p] reads
    the scopes up to [p] only, and needs fuel for them only: in two memories
    that agree up to [p], with any fuel above [p], seen from any scope
    above [p], it finds the same item or misses it alike. *)
Lemma Lookup_loop_agree m m' variable fuel fuel' cur cur' p :
  (forall p sc q, scopes m !! p = Some sc -> Parent sc = Some q -> (q < p)%nat) ->
  (forall q, (q <= p)%nat -> scopes m' !! q = scopes m !! q) ->
  (p < length (scopes m))%nat -> (p < fuel)%nat -> (p < fuel')%nat ->
  (p < cur')%nat ->
  exists item flag err,
    Lookup_loop fuel m cur (Some p) variable = Ret (item, flag, err) /\
    Lookup_loop fuel' m' cur' (Some p) variable = Ret (item, false, err).
Proof.
  intros Hbelow. revert fuel' p.
  induction fuel as [|fuel IH]; intros fuel' p Hagree Hp Hf Hf' Hcur; [lia|].
  destruct fuel' as [|fuel']; [lia|].
  destruct (lookup_lt_is_Some_2 _ _ Hp) as [sc Hsc].
  simpl. unfold load_scope. rewrite (Hagree p) by lia. rewrite Hsc. simpl.
  destruct (Items sc !! variable) as [i|] eqn:Hi.
  - eexists _, _, _. split; [done|]. by rewrite bool_decide_eq_false_2 by lia.
  - destruct (Parent sc) as [q|] eqn:Hq.
    + pose proof (Hbelow _ _ _ Hsc Hq).
      apply IH; [|lia..]. intros q' Hq'. apply Hagree. lia.
    + rewrite (Lookup_loop_nil fuel m cur), (Lookup_loop_nil fuel' m' cur').
      by eexists _, _, _.
Qed.

End LookupWalk.

(** X11.  [Lookup] answers [findInCurrentScope = true] exactly for the names
    that the current scope itself declares, and then returns the item that
    the current scope holds for the name, whatever the ancestors hold. *)
Theorem X11_Lookup_flag_means_current_scope
    (m : Store) (st : SymbolTable) (cur : nat) (sc : Scope)
    (variable : string) (item : nat) :
  CurrentScope st = Some cur -> load_scope m cur = Ret sc ->
  (Lookup m st variable = Ret (Some item, true, None) <->
   Items sc !! variable = Some item).
Proof.
  intros Hc Hsc. split; [|by apply (Lookup_current m st cur sc)].
  intros Hl. unfold Lookup in Hl. rewrite Hc in Hl.
  destruct (Lookup_loop_found _ _ _ _ _ _ _ _ Hl) as (_ & p & sc' & Hp & Hi & Hflag).
  symmetry in Hflag. apply bool_decide_eq_true_1 in Hflag. subst p.
  unfold load_scope in Hsc. rewrite Hp in Hsc. simpl in Hsc. by injection Hsc as <-.
Qed.

Lemma X11_Lookup_flag_means_current_scope_witness :
  Lookup entered_x.1 entered_x.2 "x" = Ret (Some 0%nat, true, None).
Proof.
  apply (X11_Lookup_flag_means_current_scope entered_x.1 entered_x.2 0%nat
           {| ID := 0; Level := 0; Items := {[ "x"%string := 0%nat ]}; Parent := None |}
           "x"%string 0%nat); by vm_compute.
Defined.

(** X12.  When the current scope does not declare a name, [Lookup] answers
    what it answers from the parent scope, with [findInCurrentScope = false]:
    the same item or the same "not found" error.  From a root scope that does
    not declare the name it answers "not found". *)
Theorem X12_Lookup_falls_back_to_parent
    (m : Store) (st : SymbolTable) (cur : nat) (sc : Scope) (variable : string) :
  wf_scopes m st ->
  CurrentScope st = Some cur -> load_scope m cur = Ret sc ->
  Items sc !! variable = None ->
  match Parent sc with
  | None =>
      Lookup m st variable =
        Ret (None, false, Some (Errorf "item %s not found in any scope" [ArgStr variable]))
  | Some q =>
      exists item flag err,
        Lookup m (set_CurrentScope (Some q) st) variable = Ret (item, flag, err) /\
        Lookup m st variable = Ret (item, false, err)
  end.
Proof.
  intros [Hbelow Hcur] Hc Hsc Hnone. pose proof (Hcur _ Hc) as Hlt.
  unfold Lookup. rewrite Hc. simpl.
  destruct (length (scopes m)) as [|fuel] eqn:Hlen; [lia|].
  simpl. rewrite Hsc. simpl. rewrite Hnone.
  unfold load_scope in Hsc. destruct (scopes m !! cur) as [sc0|] eqn:Hsc0; [|done].
  simpl in Hsc. injection Hsc as ->.
  destruct (Parent sc) as [q|] eqn:Hq.
  - pose proof (Hbelow _ _ _ Hsc0 Hq).
    apply (Lookup_loop_agree m m variable (S fuel) fuel q cur q); try done; lia.
  - by rewrite Lookup_loop_nil.
Qed.

Lemma X12_Lookup_falls_back_to_parent_witness :
  Lookup entered_x_entered.1 entered_x_entered.2 "x" = Ret (Some 0%nat, false, None) /\
  Lookup entered_x_entered.1 entered_x_entered.2 "y" =
    Ret (None, false, Some (Errorf "item %s not found in any scope" [ArgStr "y"])).
Proof.
  assert (Hwf : wf_scopes entered_x_entered.1 entered_x_entered.2).
  { split.
    - intros p sc q Hp Hq.
      destruct p as [|[|p]]; vm_compute in Hp; [by injection Hp as <-| |done].
      injection Hp as <-. injection Hq as <-. lia.
    - intros cur Hc. vm_compute in Hc. injection Hc as <-. vm_compute. lia. }
  split.
  - pose proof (X12_Lookup_falls_back_to_parent entered_x_entered.1 entered_x_entered.2
                  1%nat {| ID := 1; Level := 1; Items := ∅; Parent := Some 0%nat |} "x"
                  Hwf eq_refl eq_refl eq_refl) as (item & flag & err & Hq & Hl).
    rewrite Hl. vm_compute in Hq. by injection Hq as <- _ <-.
  - pose proof (X12_Lookup_falls_back_to_parent entered_x_entered.1 entered_x_entered.2
                  1%nat {| ID := 1; Level := 1; Items := ∅; Parent := Some 0%nat |} "y"
                  Hwf eq_refl eq_refl eq_refl) as (item & flag & err & Hq & Hl).
    rewrite Hl. vm_compute in Hq. by injection Hq as <- _ <-.
Defined.

Section ScopeShapes.
Implicit Types (m : Store) (st : SymbolTable).

Lemma EnterScope_shape m st m' st' e :
  EnterScope m st = Ret (m', st', e) ->
  exists new,
    m' = {| scopes := scopes m ++ [new]; items := items m |} /\
    st' = set_LegacyScopes (LegacyScopes st ++ [length (scopes m)])
            (set_CurrentScope (Some (length (scopes m))) st) /\
    e = call_hook (EnterFunction st) m' (length (scopes m)) /\
    Parent new = CurrentScope st /\ Items new = ∅ /\
    ID new = Z.of_nat (length (LegacyScopes st)) /\
    match CurrentScope st with
    | None => Level new = 0
    | Some cur => exists sc, scopes m !! cur = Some sc /\ Level new = GoInt.add (Level sc) 1
    end.
Proof.
  unfold EnterScope. intros He.
  destruct (CurrentScope st) as [cur|] eqn:Hc; simpl in He.
  - unfold load_scope in He. destruct (scopes m !! cur) as [sc|] eqn:Hsc; simpl in He; [|done].
    injection He as <- <- <-. eexists. split_and!; try reflexivity. by exists sc.
  - injection He as <- <- <-. eexists. by split_and!.
Qed.

Lemma ExitScope_shape m st m' st' :
  ExitScope m st = Ret (m', st', None) ->
  m' = m /\
  exists cur sc, CurrentScope st = Some cur /\ scopes m !! cur = Some sc /\
                 call_hook (ExitFunction st) m cur = None /\
                 st' = set_CurrentScope (Parent sc) st.
Proof.
  unfold ExitScope. intros He.
  destruct (CurrentScope st) as [cur|] eqn:Hc; [|discriminate].
  destruct (call_hook (ExitFunction st) m cur) eqn:Hh; [discriminate|].
  unfold load_scope in He. destruct (scopes m !! cur) as [sc|] eqn:Hsc; simpl in He; [|done].
  injection He as <- <-. split; [done|]. by exists cur, sc.
Qed.

End ScopeShapes.

(** X13.  [ExitScope] undoes [EnterScope]: after the pair (the exit hook not
    failing on the new scope, and whatever the enter hook returned) the
    current scope is the one from before, the address counter has not moved,
    the scopes that existed and the items are untouched; what stays is the
    new scope at the end of the history. *)
Theorem X13_ExitScope_undoes_EnterScope
    (m m1 : Store) (st st1 : SymbolTable) (e1 : option error) :
  EnterScope m st = Ret (m1, st1, e1) ->
  call_hook (ExitFunction st) m1 (length (scopes m)) = None ->
  exists st2,
    ExitScope m1 st1 = Ret (m1, st2, None) /\
    CurrentScope st2 = CurrentScope st /\
    addrCounter st2 = addrCounter st /\
    LegacyScopes st2 = LegacyScopes st ++ [length (scopes m)] /\
    items m1 = items m /\
    (forall q, (q < length (scopes m))%nat -> load_scope m1 q = load_scope m q).
Proof.
  intros He Hhook.
  destruct (EnterScope_shape _ _ _ _ _ He) as (new & -> & -> & _ & Hpar & _).
  eexists. split.
  - unfold ExitScope. simpl. rewrite Hhook. unfold load_scope. simpl.
    rewrite lookup_app_r by done. rewrite Nat.sub_diag. simpl. reflexivity.
  - simpl. split_and!; try done.
    intros q Hq. unfold load_scope. simpl. by rewrite lookup_app_l.
Qed.

Lemma X13_ExitScope_undoes_EnterScope_witness :
  exists m1 st1 st2,
    EnterScope entered_x.1 entered_x.2 = Ret (m1, st1, None) /\
    ExitScope m1 st1 = Ret (m1, st2, None) /\
    CurrentScope st2 = Some 0%nat /\ CurrentScope st1 = Some 1%nat.
Proof.
  pose (r := EnterScope entered_x.1 entered_x.2).
  assert (Hr : r = Ret (match r with Ret (m1, _, _) => m1 | _ => sample_store end,
                        match r with Ret (_, st1, _) => st1 | _ => NewSymbolTable None None end,
                        None)) by (vm_compute; reflexivity).
  destruct (X13_ExitScope_undoes_EnterScope entered_x.1 _ entered_x.2 _ _ Hr eq_refl)
    as (st2 & Hex & Hc & _).
  eexists _, _, st2. split; [exact Hr|]. split; [exact Hex|]. split; [|by vm_compute].
  rewrite Hc. by vm_compute.
Defined.

(** X14.  A declaration dies with its scope.  Enter a scope, register an
    item in it, exit, and enter a new scope: if the name was not visible
    before the first [EnterScope] (no scope open, or "not found"), [Lookup]
    of the name in the new scope answers "not found". *)
Theorem X14_sibling_declarations_are_invisible
    (m m1 m2 m3 m4 : Store) (st st1 st2 st3 st4 : SymbolTable)
    (e1 e4 : option error) (item : nat) (it : SymbolTableItem) :
  wf_scopes m st ->
  (CurrentScope st = None \/
   Lookup m st (Item_Variable it) =
     Ret (None, false, Some (Errorf "item %s not found in any scope"
                               [ArgStr (Item_Variable it)]))) ->
  load_item m item = Ret it ->
  EnterScope m st = Ret (m1, st1, e1) ->
  Register m1 st1 item = Ret (m2, st2, None) ->
  ExitScope m2 st2 = Ret (m3, st3, None) ->
  EnterScope m3 st3 = Ret (m4, st4, e4) ->
  Lookup m2 st2 (Item_Variable it) = Ret (Some item, true, None) /\
  Lookup m4 st4 (Item_Variable it) =
    Ret (None, false, Some (Errorf "item %s not found in any scope"
                              [ArgStr (Item_Variable it)])).
Proof.
  intros Hwf Hbefore Hit He1 Hreg Hex He4.
  pose proof Hwf as [Hbelow Hcur].
  destruct (EnterScope_shape _ _ _ _ _ He1) as (new & -> & -> & _ & Hpar & Hempty & _).
  set (p := length (scopes m)) in *.
  (* the registration *)
  destruct (Register_inv _ _ _ _ _ _ Hreg) as [H0|(cur & sc & it' & Hc & Hsc & Hit' & H1)].
  { destruct H0 as (_ & _ & _ & He). discriminate He. }
  simpl in Hc. injection Hc as <-.
  assert (sc = new) as ->.
  { unfold load_scope in Hsc. simpl in Hsc. rewrite lookup_app_r in Hsc by done.
    subst p. rewrite Nat.sub_diag in Hsc. simpl in Hsc. by injection Hsc as <-. }
  assert (it' = it) as ->.
  { unfold load_item in Hit', Hit. simpl in Hit'. rewrite Hit in Hit'.
    by injection Hit' as <-. }
  destruct H1 as [H1|[H1|H1]].
  { destruct H1 as (_ & _ & _ & He). discriminate He. }
  { destruct H1 as (_ & _ & _ & _ & He). discriminate He. }
  destruct H1 as (Hnew & Hsz & _ & Hres).
  (* the memory after the registration: the scopes of [m], then the scope [p] *)
  assert (Hs2 : scopes m2 =
                scopes m ++ [set_Items (<[Item_Variable it := item]> (Items new)) new]).
  { assert (Hs : scopes m2 =
                 <[p := set_Items (<[Item_Variable it := item]> (Items new)) new]>
                   (scopes m ++ [new])).
    { destruct (allocates it); by injection Hres as -> _. }
    rewrite Hs. subst p. rewrite insert_app_r_alt by done.
    by rewrite Nat.sub_diag. }
  set (sc2 := set_Items (<[Item_Variable it := item]> (Items new)) new) in *.
  assert (Hpar2 : Parent sc2 = CurrentScope st) by done.
  assert (Hst2 : CurrentScope st2 = Some p /\ LegacyScopes st2 = LegacyScopes st ++ [p]).
  { destruct (allocates it); by injection Hres as _ ->. }
  destruct Hst2 as [Hc2' Hl2].
  assert (Hsc2 : load_scope m2 p = Ret sc2).
  { unfold load_scope. rewrite Hs2. rewrite lookup_app_r by done.
    subst p. by rewrite Nat.sub_diag. }
  split.
  { eapply Lookup_current; [done..|]. simpl. apply lookup_insert_eq. }
  (* the exit *)
  destruct (ExitScope_shape _ _ _ _ Hex) as (-> & cur & scx & Hcx & Hscx & _ & ->).
  rewrite Hc2' in Hcx. injection Hcx as <-.
  rewrite Hs2 in Hscx. rewrite lookup_app_r in Hscx by done.
  subst p. rewrite Nat.sub_diag in Hscx. simpl in Hscx. injection Hscx as <-.
  (* the second scope *)
  destruct (EnterScope_shape _ _ _ _ _ He4) as (new4 & -> & -> & _ & Hpar4 & Hempty4 & _).
  simpl in Hpar4. rewrite Hpar in Hpar4.
  unfold Lookup. simpl. rewrite Hs2. rewrite !length_app. simpl.
  replace (length (scopes m) + 1 + 1)%nat with (S (S (length (scopes m)))) by lia.
  simpl. unfold load_scope. simpl.
  rewrite lookup_app_r by (rewrite length_app; simpl; lia).
  rewrite length_app. simpl.
  replace (length (scopes m) + 1 - (length (scopes m) + 1))%nat with 0%nat by lia.
  simpl. rewrite Hempty4, lookup_empty, Hpar4.
  destruct Hbefore as [Hnone|Hmiss].
  - rewrite Hnone. done.
  - unfold Lookup in Hmiss. destruct (CurrentScope st) as [c0|] eqn:Hc0; [|done].
    pose proof (Hcur _ eq_refl) as Hlt.
    destruct (Lookup_loop_agree m
                {| scopes := (scopes m ++ [sc2]) ++ [new4]; items := items m2 |}
                (Item_Variable it) (length (scopes m)) (S (length (scopes m)))
                c0 (length (scopes m) + 1) c0 Hbelow)
      as (i & f & e & Hl & Hl'); try lia.
    + intros q Hq. simpl. rewrite <- app_assoc. by rewrite lookup_app_l by lia.
    + rewrite Hmiss in Hl. injection Hl as <- <- <-. exact Hl'.
Qed.

Lemma X14_sibling_declarations_are_invisible_witness :
  exists m4 st4,
    run_calls [CallEnterScope; CallEnterScope; CallRegister 1; CallExitScope; CallEnterScope]
      sample_store (NewSymbolTable None None) = Ret (m4, st4,
        [{| is_temp := false; addr := 0x10000000; bytes := 6 |}]) /\
    Lookup m4 st4 "y" =
      Ret (None, false, Some (Errorf "item %s not found in any scope" [ArgStr "y"])).
Proof.
  pose (r := run_calls
               [CallEnterScope; CallEnterScope; CallRegister 1; CallExitScope; CallEnterScope]
               sample_store (NewSymbolTable None None)).
  assert (Hr : r = Ret (match r with Ret (m4, _, _) => m4 | _ => sample_store end,
                        match r with Ret (_, st4, _) => st4 | _ => NewSymbolTable None None end,
                        [{| is_temp := false; addr := 0x10000000; bytes := 6 |}]))
    by (vm_compute; reflexivity).
  eexists _, _. split; [exact Hr|].
  pose (a1 := EnterScope entered.1 entered.2).
  pose (m1 := match a1 with Ret (x, _, _) => x | _ => sample_store end).
  pose (st1 := match a1 with Ret (_, x, _) => x | _ => NewSymbolTable None None end).
  pose (a2 := Register m1 st1 1).
  pose (m2 := match a2 with Ret (x, _, _) => x | _ => sample_store end).
  pose (st2 := match a2 with Ret (_, x, _) => x | _ => NewSymbolTable None None end).
  pose (a3 := ExitScope m2 st2).
  pose (st3 := match a3 with Ret (_, x, _) => x | _ => NewSymbolTable None None end).
  assert (Hwf : wf_scopes entered.1 entered.2).
  { split.
    - intros p sc q Hp Hq. destruct p as [|p]; vm_compute in Hp; [|done].
      injection Hp as <-. discriminate Hq.
    - intros cur Hc. vm_compute in Hc. injection Hc as <-. vm_compute. lia. }
  refine (proj2 (X14_sibling_declarations_are_invisible
            entered.1 m1 m2 m2 _ entered.2 st1 st2 st3 _ None None 1%nat
            (mk_item "y" SymbolTableItemTypeVariable 6 1)
            Hwf _ _ _ _ _ _)); first [by vm_compute | right; by vm_compute].
Defined.

(** ** Tables reached by calls *)

Section TableInv.
Implicit Types (m : Store) (st : SymbolTable).

Lemma table_inv_wf m st : table_inv m st -> wf_scopes m st.
Proof.
  intros (_ & Hcur & Hsc). split; [|done].
  intros p sc q Hp Hq. destruct (Hsc p sc Hp) as [_ Hpar]. rewrite Hq in Hpar. apply Hpar.
Qed.

Lemma table_inv_new m enter exit : scopes m = [] -> table_inv m (NewSymbolTable enter exit).
Proof.
  intros Hm. split_and!.
  - by rewrite Hm.
  - intros cur Hc. discriminate Hc.
  - intros p sc. by rewrite Hm.
Qed.

Lemma EnterScope_inv m st m' st' e :
  table_inv m st -> EnterScope m st = Ret (m', st', e) -> table_inv m' st'.
Proof.
  intros (Hleg & Hcur & Hsc) He.
  destruct (EnterScope_shape _ _ _ _ _ He) as (new & -> & -> & _ & Hpar & _ & Hid & Hlev).
  split_and!; simpl.
  - rewrite Hleg, length_app. simpl. by rewrite seq_app.
  - intros cur [= <-]. rewrite length_app. simpl. lia.
  - intros p sc Hp. apply lookup_app_Some in Hp as [Hp|[Hge Hp]].
    + destruct (Hsc p sc Hp) as [Hi Hp']. split; [done|].
      destruct (Parent sc) as [q|]; [|done].
      destruct Hp' as (Hq & scq & Hscq & Hl). split; [done|].
      exists scq. split; [|done]. by apply lookup_app_l_Some.
    + apply list_lookup_singleton_Some in Hp as [Hp0 <-].
      assert (p = length (scopes m)) as -> by lia. split.
      * rewrite Hid, Hleg. by rewrite length_seq.
      * rewrite Hpar. destruct (CurrentScope st) as [cur|] eqn:Hc; [|done].
        destruct Hlev as (sc & Hsc0 & Hl). split; [by apply Hcur|].
        exists sc. split; [|done]. by apply lookup_app_l_Some.
Qed.

Lemma ExitScope_inv m st m' st' e :
  table_inv m st -> ExitScope m st = Ret (m', st', e) -> table_inv m' st'.
Proof.
  intros Hinv He. pose proof Hinv as (Hleg & Hcur & Hsc).
  destruct e as [e|].
  - unfold ExitScope in He. destruct (CurrentScope st) as [cur|]; [|by injection He as <- <-].
    destruct (call_hook (ExitFunction st) m cur); [by injection He as <- <-|].
    destruct (load_scope m cur); simpl in He; done.
  - destruct (ExitScope_shape _ _ _ _ He) as (-> & cur & sc & Hc & Hs & _ & ->).
    split_and!; simpl; [done| |done].
    intros q Hq. destruct (Hsc cur sc Hs) as [_ Hp]. rewrite Hq in Hp.
    pose proof (Hcur _ Hc). lia.
Qed.

Lemma Register_table_inv m st item m' st' e :
  table_inv m st -> Register m st item = Ret (m', st', e) -> table_inv m' st'.
Proof.
  intros Hinv Hreg. pose proof Hinv as (Hleg & Hcur & Hsc).
  destruct (Register_inv _ _ _ _ _ _ Hreg) as [H0|(cur & sc & it & Hc & Hs & Hit & H1)].
  { by destruct H0 as (_ & -> & -> & _). }
  destruct H1 as [H1|[H1|H1]].
  { by destruct H1 as (_ & -> & -> & _). }
  { by destruct H1 as (_ & _ & -> & -> & _). }
  destruct H1 as (_ & _ & _ & Hres).
  assert (Hshape : scopes m' =
                   <[cur := set_Items (<[Item_Variable it := item]> (Items sc)) sc]> (scopes m)
                   /\ CurrentScope st' = CurrentScope st /\ LegacyScopes st' = LegacyScopes st).
  { destruct (allocates it); by injection Hres as -> ->. }
  destruct Hshape as (Hs' & Hc' & Hl').
  unfold load_scope in Hs. destruct (scopes m !! cur) as [sc0|] eqn:Hs0; simpl in Hs; [|done].
  injection Hs as ->.
  assert (Hlook : forall p sc', scopes m' !! p = Some sc' ->
            exists old, scopes m !! p = Some old /\ ID sc' = ID old /\
                        Level sc' = Level old /\ Parent sc' = Parent old).
  { intros p sc'. rewrite Hs'. destruct (decide (p = cur)) as [->|Hne].
    - rewrite list_lookup_insert_eq by (by eapply lookup_lt_Some).
      intros [= <-]. by exists sc.
    - rewrite list_lookup_insert_ne by done. intros Hp. by exists sc'. }
  assert (Hback : forall q old, scopes m !! q = Some old ->
            exists new, scopes m' !! q = Some new /\ Level new = Level old).
  { intros q old Hq. rewrite Hs'. destruct (decide (q = cur)) as [->|Hne].
    - rewrite list_lookup_insert_eq by (by eapply lookup_lt_Some).
      rewrite Hs0 in Hq. injection Hq as <-. by eexists.
    - rewrite list_lookup_insert_ne by done. by exists old. }
  split_and!.
  - by rewrite Hl', Hs', length_insert.
  - intros c. rewrite Hc', Hs', length_insert. apply Hcur.
  - intros p sc' Hp. destruct (Hlook p sc' Hp) as (old & Hold & Hi & Hl & Hpar).
    destruct (Hsc p old Hold) as [Hid Hp']. split; [by rewrite Hi|].
    rewrite Hpar, Hl. destruct (Parent old) as [q|]; [|done].
    destruct Hp' as (Hq & scq & Hscq & Hlv). split; [done|].
    destruct (Hback q scq Hscq) as (new & Hnew & Hln). exists new. by rewrite Hln.
Qed.

Lemma run_call_inv (c : call) m st m' st' hs :
  table_inv m st -> run_call c m st = Ret (m', st', hs) -> table_inv m' st'.
Proof.
  intros Hinv Hrun. destruct c as [| |item|size]; simpl in Hrun.
  - destruct (EnterScope m st) as [[[m1 st1] e]| |] eqn:E; simpl in Hrun; [|done..].
    injection Hrun as <- <- <-. by eapply EnterScope_inv.
  - destruct (ExitScope m st) as [[[m1 st1] e]| |] eqn:E; simpl in Hrun; [|done..].
    injection Hrun as <- <- <-. by eapply ExitScope_inv.
  - destruct (Register m st item) as [[[m1 st1] e]| |] eqn:E; simpl in Hrun; [|done..].
    assert (Hinv1 : table_inv m1 st1) by (by eapply Register_table_inv).
    destruct e; simpl in Hrun.
    + by injection Hrun as <- <- <-.
    + destruct (load_item m1 item); simpl in Hrun; [|done..].
      repeat case_match; by injection Hrun as <- <- <-.
  - by injection Hrun as <- <- <-.
Qed.

Lemma run_calls_inv (cs : list call) m st m' st' hs :
  table_inv m st -> run_calls cs m st = Ret (m', st', hs) -> table_inv m' st'.
Proof.
  revert m st hs. induction cs as [|c cs IH]; intros m st hs Hinv Hrun.
  - by injection Hrun as <- <- <-.
  - simpl in Hrun.
    destruct (run_call c m st) as [[[m1 st1] hs1]| |] eqn:E1; simpl in Hrun; [|done..].
    destruct (run_calls cs m1 st1) as [[[m2 st2] hs2]| |] eqn:E2; simpl in Hrun; [|done..].
    injection Hrun as <- <- <-. eapply IH; [|done]. by eapply run_call_inv.
Qed.

End TableInv.





(** ** More on [Register] and [TempAddr] *)

(** X17.  An item whose kind is neither Variable nor Array (a Constant, an
    Unknown, any other string) is declared by [Register] like any other, but
    gets no address: the item's memory is untouched, the table with its
    counter is unchanged, and [Lookup] finds the item in the current
    scope. *)
Theorem X17_Register_other_kinds_get_no_address
    (m : Store) (st : SymbolTable) (item cur : nat) (sc : Scope) (it : SymbolTableItem) :
  CurrentScope st = Some cur -> load_scope m cur = Ret sc -> load_item m item = Ret it ->
  Items sc !! Item_Variable it = None -> 0 < VariableSize it ->
  Item_Type it ≠ SymbolTableItemTypeVariable ->
  Item_Type it ≠ SymbolTableItemTypeArray ->
  exists m',
    Register m st item = Ret (m', st, None) /\
    items m' = items m /\
    Lookup m' st (Item_Variable it) = Ret (Some item, true, None).
Proof.
  intros Hc Hsc Hit Hnew Hsz Hv Ha.
  rewrite (Register_ok m st item cur sc it) by done.
  unfold allocates. rewrite (bool_decide_eq_false_2 _ Hv), (bool_decide_eq_false_2 _ Ha).
  simpl. eexists. split; [done|]. split; [done|].
  eapply Lookup_current; [done|by apply load_scope_declare|].
  simpl. apply lookup_insert_eq.
Qed.

Lemma X17_Register_other_kinds_get_no_address_witness :
  let m := {| scopes := scopes entered.1;
              items := [mk_item "pi" SymbolTableItemTypeConstant 4 1] |} in
  exists m',
    Register m entered.2 0 = Ret (m', entered.2, None) /\
    items m' = items m /\
    Lookup m' entered.2 "pi" = Ret (Some 0%nat, true, None).
Proof.
  intros m.
  apply (X17_Register_other_kinds_get_no_address m entered.2 0%nat 0%nat
           {| ID := 0; Level := 0; Items := ∅; Parent := None |}
           (mk_item "pi" SymbolTableItemTypeConstant 4 1)); by vm_compute.
Defined.



(** Go's [n / 4] and the correction of the source, for every int [n]. *)
Lemma advance_trunc c n :
  GoInt.in_range n ->
  advance c n = GoInt.add c (Z.quot n 4 + (if decide (Z.rem n 4 = 0) then 0 else 1)).
Proof.
  intros Hn. unfold advance, GoInt.div, GoInt.mul.
  assert (Hr : GoInt.in_range (Z.quot n 4)).
  { unfold GoInt.in_range, GoInt.int_min, GoInt.int_max in *.
    Z.quot_rem_to_equations. lia. }
  rewrite (wrap_id _ Hr).
  assert (Hr' : GoInt.in_range (Z.quot n 4 * 4)).
  { unfold GoInt.in_range, GoInt.int_min, GoInt.int_max in *.
    Z.quot_rem_to_equations. lia. }
  rewrite (wrap_id _ Hr').
  case_bool_decide as Hm; case_decide as Hd.
  - exfalso. apply Hm. Z.quot_rem_to_equations. lia.
  - by rewrite add_add.
  - f_equal. lia.
  - exfalso. apply Hd. Z.quot_rem_to_equations. lia.
Qed.



Section FieldsKept.
Implicit Types (m : Store) (st : SymbolTable).

Lemma run_call_fixed_fields (c : call) m st m' st' hs :
  run_call c m st = Ret (m', st', hs) -> same_fixed_fields st st'.
Proof.
  intros Hrun. destruct c as [| |item|size]; simpl in Hrun.
  - destruct (EnterScope m st) as [[[m1 st1] e]| |] eqn:E; simpl in Hrun; [|done..].
    injection Hrun as <- <- <-.
    by destruct (EnterScope_shape _ _ _ _ _ E) as (new & _ & -> & _).
  - destruct (ExitScope m st) as [[[m1 st1] e]| |] eqn:E; simpl in Hrun; [|done..].
    injection Hrun as <- <- <-. unfold ExitScope in E.
    destruct (CurrentScope st) as [cur|]; [|by injection E as <- <- <-].
    destruct (call_hook (ExitFunction st) m cur); [by injection E as <- <- <-|].
    destruct (load_scope m cur); simpl in E; [|done..]. by injection E as <- <- <-.
  - destruct (Register m st item) as [[[m1 st1] e]| |] eqn:E; simpl in Hrun; [|done..].
    assert (Hs : same_fixed_fields st st1).
    { destruct (Register_inv _ _ _ _ _ _ E) as [H0|(cur & sc & it & _ & _ & _ & H1)].
      { by destruct H0 as (_ & _ & -> & _). }
      destruct H1 as [H1|[H1|H1]].
      { by destruct H1 as (_ & _ & -> & _). }
      { by destruct H1 as (_ & _ & _ & -> & _). }
      destruct H1 as (_ & _ & _ & Hres). destruct (allocates it); by injection Hres as _ ->. }
    destruct e; simpl in Hrun.
    + by injection Hrun as <- <- <-.
    + destruct (load_item m1 item); simpl in Hrun; [|done..].
      repeat case_match; by injection Hrun as <- <- <-.
  - by injection Hrun as <- <- <-.
Qed.

End FieldsKept.

(** X20.  No call writes the constants counter or the hooks: after any
    sequence of calls on a new table, [constantAddr] is still 0x20000000 and
    the hooks are those given to [NewSymbolTable]. *)
Theorem X20_constantAddr_and_hooks_never_change
    (enter exit : option Hook) (cs : list call) (m m' : Store)
    (st' : SymbolTable) (hs : list handout) :
  run_calls cs m (NewSymbolTable enter exit) = Ret (m', st', hs) ->
  st_constantAddr st' = 0x20000000 /\
  EnterFunction st' = enter /\ ExitFunction st' = exit.
Proof.
  assert (Hgen : forall cs m st m' st' hs,
            run_calls cs m st = Ret (m', st', hs) -> same_fixed_fields st st').
  { clear. induction cs as [|c cs IH]; intros m st m' st' hs Hrun.
    - by injection Hrun as <- <- <-.
    - simpl in Hrun.
      destruct (run_call c m st) as [[[m1 st1] hs1]| |] eqn:E1; simpl in Hrun; [|done..].
      destruct (run_calls cs m1 st1) as [[[m2 st2] hs2]| |] eqn:E2; simpl in Hrun; [|done..].
      injection Hrun as <- <- <-.
      destruct (run_call_fixed_fields _ _ _ _ _ _ E1) as (H1 & H2 & H3).
      destruct (IH _ _ _ _ _ E2) as (H1' & H2' & H3').
      split_and!; congruence. }
  intros Hrun. by destruct (Hgen _ _ _ _ _ _ Hrun) as (-> & -> & ->).
Qed.

Lemma X20_constantAddr_and_hooks_never_change_witness :
  exists m' st' hs,
    run_calls sample_calls sample_store (NewSymbolTable None None) = Ret (m', st', hs) /\
    st_constantAddr st' = 0x20000000.
Proof.
  pose (r := run_calls sample_calls sample_store (NewSymbolTable None None)).
  assert (Hr : r = Ret (match r with Ret (x, _, _) => x | _ => sample_store end,
                        match r with Ret (_, x, _) => x | _ => NewSymbolTable None None end,
                        match r with Ret (_, _, x) => x | _ => [] end))
    by (vm_compute; reflexivity).
  eexists _, _, _. split; [exact Hr|].
  destruct (X20_constantAddr_and_hooks_never_change None None sample_calls sample_store
              _ _ _ Hr) as [Hc _].
  exact Hc.
Defined.



(** * Sets *)

Section SetFacts.
Context {T : Type} {T_eq : EqDecision T} {T_countable : Countable T}.
Variable range_keys : gset T -> list T.
Hypothesis range_keys_perm : forall X : gset T, range_keys X ≡ₚ elements X.

Implicit Types (h : list (gset T)) (s other : SetRef) (value key : T) (keys : list T).

Lemma range_keys_elem X key : key ∈ range_keys X <-> key ∈ X.
Proof. rewrite (range_keys_perm X). apply elem_of_elements. Qed.

Lemma range_keys_NoDup X : NoDup (range_keys X).
Proof. rewrite (range_keys_perm X). apply NoDup_elements. Qed.

Lemma range_keys_length X : length (range_keys X) = size X.
Proof. by rewrite (range_keys_perm X). Qed.

Lemma contents_insert h (a : nat) X :
  (a < length h)%nat -> Set_contents (<[a := X]> h) (Some a) = X.
Proof. intros Ha. simpl. by rewrite list_lookup_insert_eq. Qed.

Lemma contents_insert_ne h (a : nat) X s :
  s <> Some a -> Set_contents (<[a := X]> h) s = Set_contents h s.
Proof.
  intros Hne. destruct s as [b|]; [|done]. simpl.
  rewrite list_lookup_insert_ne; [done|congruence].
Qed.

Lemma contents_app h l s :
  Set_valid h s -> Set_contents (h ++ l) s = Set_contents h s.
Proof. destruct s as [a|]; [|done]. simpl. intros Ha. by rewrite lookup_app_l. Qed.

Lemma valid_not_fresh h s : Set_valid h s -> s <> Some (length h).
Proof. intros Hv ->. simpl in Hv. lia. Qed.

Lemma Contains_spec h s value : Set_Contains h s value = true <-> value ∈ Set_contents h s.
Proof. unfold Set_Contains. by rewrite bool_decide_eq_true. Qed.

Lemma Contains_eq h h' s s' :
  Set_contents h' s' = Set_contents h s ->
  forall value, Set_Contains h' s' value = Set_Contains h s value.
Proof. intros Heq value. unfold Set_Contains. by rewrite Heq. Qed.

(** A loop that adds [g key] to the set at [a] for the keys that pass the
    test [q], and writes nothing else. *)
Lemma for_range_build (a : nat) (q : T -> bool) (g : T -> T)
    (body : list (gset T) -> T -> res (list (gset T))) h :
  (a < length h)%nat ->
  (forall Y key, body (<[a := Y]> h) key =
                 Ret (<[a := if q key then {[g key]} ∪ Y else Y]> h)) ->
  forall keys Y,
  exists Y', for_range keys body (<[a := Y]> h) = Ret (<[a := Y']> h) /\
    forall value, value ∈ Y' <->
      value ∈ Y \/ exists key, key ∈ keys /\ q key = true /\ g key = value.
Proof.
  intros Ha Hbody. induction keys as [|key rest IH]; intros Y.
  - exists Y. split; [done|]. intros value. split; [by left|].
    intros [Hv|(key & Hk & _)]; [done|]. by apply elem_of_nil in Hk.
  - simpl. rewrite Hbody. simpl.
    destruct (IH (if q key then {[g key]} ∪ Y else Y)) as (Y' & Hrun & HY').
    exists Y'. split; [exact Hrun|]. intros value. rewrite HY'. split.
    + intros [Hv|(k & Hk & Hq & Hg)].
      * destruct (q key) eqn:Hq; [|by left].
        apply elem_of_union in Hv as [Hv|Hv]; [|by left].
        apply elem_of_singleton in Hv. right. exists key.
        split_and!; [by left|done|done].
      * right. exists k. split_and!; [by right|done|done].
    + intros [Hv|(k & Hk & Hq & Hg)].
      * left. destruct (q key); [|done]. apply elem_of_union. by right.
      * apply elem_of_cons in Hk as [->|Hk].
        -- left. rewrite Hq. apply elem_of_union. left. by apply elem_of_singleton.
        -- right. by exists k.
Qed.

Lemma Add_stmt_insert (a : nat) h Y value :
  (a < length h)%nat ->
  Add_stmt (Some a) (<[a := Y]> h) value = Ret (<[a := {[value]} ∪ Y]> h).
Proof.
  intros Ha. unfold Add_stmt, Set_Add. simpl.
  rewrite list_lookup_insert_eq by done. simpl. by rewrite list_insert_insert_eq.
Qed.

Lemma NewSet_insert (h : list (gset T)) :
  h ++ [∅] = <[length h := (∅ : gset T)]> (h ++ [∅]).
Proof.
  rewrite insert_app_r_alt by lia. by rewrite Nat.sub_diag.
Qed.

Lemma fresh_insert (h : list (gset T)) (X Y : gset T) :
  <[length h := Y]> (h ++ [X]) = h ++ [Y].
Proof. rewrite insert_app_r_alt by lia. by rewrite Nat.sub_diag. Qed.

Lemma Add_stmt_fresh h Y value :
  Add_stmt (Some (length h)) (h ++ [Y]) value = Ret (h ++ [{[value]} ∪ Y]).
Proof.
  rewrite <- (fresh_insert h ∅ Y), Add_stmt_insert by (rewrite length_app; simpl; lia).
  by rewrite fresh_insert.
Qed.

Lemma Contains_app h l s value :
  Set_valid h s -> Set_Contains (h ++ l) s value = Set_Contains h s value.
Proof. intros Hv. apply Contains_eq. by apply contents_app. Qed.

(** The loop shared by the functions that build a new set from the keys of
    [s]: the new set sits at the end of the heap and nothing else is
    written. *)
Lemma build_new (q : T -> bool) (g : T -> T)
    (body : list (gset T) -> T -> res (list (gset T))) h s Y0 :
  Set_valid h s ->
  (forall Y key, body (h ++ [Y]) key =
                 Ret (h ++ [if q key then {[g key]} ∪ Y else Y])) ->
  exists Y, for_range (range_keys (Set_contents (h ++ [Y0]) s)) body (h ++ [Y0])
            = Ret (h ++ [Y]) /\
    forall value, value ∈ Y <->
      value ∈ Y0 \/ exists key, key ∈ Set_contents h s /\ q key = true /\ g key = value.
Proof.
  intros Hv Hbody. rewrite contents_app by done.
  destruct (for_range_build (length h) q g body (h ++ [∅])
              ltac:(rewrite length_app; simpl; lia)
              ltac:(intros Y key; rewrite !fresh_insert; apply Hbody)
              (range_keys (Set_contents h s)) Y0) as (Y & Hrun & HY).
  rewrite !fresh_insert in Hrun.
  exists Y. split; [exact Hrun|]. intros value. rewrite HY. split.
  - intros [Hv'|(key & Hk & Hq)]; [by left|].
    right. exists key. by rewrite <- range_keys_elem.
  - intros [Hv'|(key & Hk & Hq)]; [by left|].
    right. exists key. by rewrite range_keys_elem.
Qed.

Lemma builds_new_intro h Y (P : T -> Prop) :
  (forall value, value ∈ Y <-> P value) ->
  builds_new h (Ret (h ++ [Y], Some (length h))) P.
Proof.
  intros HY. exists (h ++ [Y]), (Some (length h)). split_and!.
  - done.
  - simpl. lia.
  - simpl. rewrite length_app. simpl. lia.
  - intros value. rewrite Contains_spec. simpl.
    rewrite lookup_app_r, Nat.sub_diag by lia. simpl. apply HY.
  - intros s' Hv value. by apply Contains_app.
Qed.

Lemma Union_builds h s other :
  Set_valid h s -> Set_valid h other ->
  builds_new h (Set_Union range_keys h s other)
    (fun value => Set_Contains h s value = true \/ Set_Contains h other value = true).
Proof.
  intros Hs Ho. unfold Set_Union, NewSet.
  destruct (build_new (fun _ => true) id (Add_stmt (Some (length h))) h s ∅ Hs)
    as (Y1 & Hrun1 & HY1).
  { intros Y key. apply Add_stmt_fresh. }
  rewrite Hrun1. simpl.
  destruct (build_new (fun _ => true) id (Add_stmt (Some (length h))) h other Y1 Ho)
    as (Y2 & Hrun2 & HY2).
  { intros Y key. apply Add_stmt_fresh. }
  rewrite Hrun2. simpl. apply builds_new_intro.
  intros value. rewrite HY2, HY1, !Contains_spec. split.
  - intros [[Hv|(key & Hk & _ & <-)]|(key & Hk & _ & <-)].
    + by apply elem_of_empty in Hv.
    + by left.
    + by right.
  - intros [Hv|Hv].
    + left. right. by exists value.
    + right. by exists value.
Qed.

Lemma Intersection_builds h s other :
  Set_valid h s -> Set_valid h other ->
  builds_new h (Set_Intersection range_keys h s other)
    (fun value => Set_Contains h s value = true /\ Set_Contains h other value = true).
Proof.
  intros Hs Ho. unfold Set_Intersection, NewSet.
  destruct (build_new (fun key => Set_Contains h other key) id
              (fun h' key => if Set_Contains h' other key
                             then Add_stmt (Some (length h)) h' key else Ret h')
              h s ∅ Hs) as (Y1 & Hrun1 & HY1).
  { intros Y key. rewrite Contains_app by done.
    destruct (Set_Contains h other key); [apply Add_stmt_fresh|done]. }
  rewrite Hrun1. simpl. apply builds_new_intro.
  intros value. rewrite HY1, !Contains_spec. split.
  - intros [Hv|(key & Hk & Hq & <-)]; [by apply elem_of_empty in Hv|].
    split; [done|]. by apply Contains_spec.
  - intros [Hv Hv']. right. exists value. split_and!; [done| |done].
    by apply Contains_spec.
Qed.

Lemma Difference_builds h s other :
  Set_valid h s -> Set_valid h other ->
  builds_new h (Set_Difference range_keys h s other)
    (fun value => Set_Contains h s value = true /\ Set_Contains h other value = false).
Proof.
  intros Hs Ho. unfold Set_Difference, NewSet.
  destruct (build_new (fun key => negb (Set_Contains h other key)) id
              (fun h' key => if negb (Set_Contains h' other key)
                             then Add_stmt (Some (length h)) h' key else Ret h')
              h s ∅ Hs) as (Y1 & Hrun1 & HY1).
  { intros Y key. rewrite Contains_app by done.
    destruct (Set_Contains h other key); [done|apply Add_stmt_fresh]. }
  rewrite Hrun1. simpl. apply builds_new_intro.
  intros value. rewrite HY1, Contains_spec. split.
  - intros [Hv|(key & Hk & Hq & <-)]; [by apply elem_of_empty in Hv|].
    split; [done|]. by apply negb_true_iff.
  - intros [Hv Hv']. right. exists value. split_and!; [done| |done].
    by apply negb_true_iff.
Qed.

Lemma Copy_exact h s :
  Set_valid h s ->
  Set_Copy range_keys h s = Ret (h ++ [Set_contents h s], Some (length h)).
Proof.
  intros Hs. unfold Set_Copy, NewSet.
  destruct (build_new (fun _ => true) id (Add_stmt (Some (length h))) h s ∅ Hs)
    as (Y1 & Hrun1 & HY1).
  { intros Y key. apply Add_stmt_fresh. }
  rewrite Hrun1. simpl. assert (HY : Y1 = Set_contents h s); [|by rewrite HY].
  apply set_eq. intros value. rewrite HY1. split.
  - intros [Hv|(key & Hk & _ & <-)]; [by apply elem_of_empty in Hv|done].
  - intros Hv. right. by exists value.
Qed.

Lemma Filter_builds h s (predicate : T -> bool) :
  Set_valid h s ->
  builds_new h (Set_Filter range_keys h s predicate)
    (fun value => Set_Contains h s value = true /\ predicate value = true).
Proof.
  intros Hs. unfold Set_Filter, NewSet.
  destruct (build_new predicate id
              (fun h' key => if predicate key
                             then Add_stmt (Some (length h)) h' key else Ret h')
              h s ∅ Hs) as (Y1 & Hrun1 & HY1).
  { intros Y key. destruct (predicate key); [apply Add_stmt_fresh|done]. }
  rewrite Hrun1. simpl. apply builds_new_intro.
  intros value. rewrite HY1, Contains_spec. split.
  - intros [Hv|(key & Hk & Hq & <-)]; [by apply elem_of_empty in Hv|done].
  - intros [Hv Hv']. right. by exists value.
Qed.

Lemma Map_builds h s (f : T -> T) :
  Set_valid h s ->
  builds_new h (Set_Map range_keys h s f)
    (fun value => exists key, Set_Contains h s key = true /\ f key = value).
Proof.
  intros Hs. unfold Set_Map, NewSet.
  destruct (build_new (fun _ => true) f
              (fun h' key => Add_stmt (Some (length h)) h' (f key)) h s ∅ Hs)
    as (Y1 & Hrun1 & HY1).
  { intros Y key. apply Add_stmt_fresh. }
  rewrite Hrun1. simpl. apply builds_new_intro.
  intros value. rewrite HY1. split.
  - intros [Hv|(key & Hk & _ & <-)]; [by apply elem_of_empty in Hv|].
    exists key. by rewrite Contains_spec.
  - intros (key & Hk & <-). right. exists key. by rewrite <- Contains_spec.
Qed.

Lemma Size_loop_length keys count :
  GoInt.in_range count ->
  Size_loop count keys = GoInt.wrap (count + Z.of_nat (length keys)).
Proof.
  revert count. induction keys as [|key rest IH]; intros count Hc; simpl.
  - rewrite Z.add_0_r. symmetry. by apply wrap_id.
  - rewrite IH by apply wrap_in_range. unfold GoInt.add. rewrite wrap_add_l.
    f_equal. lia.
Qed.

Lemma Size_exact h s :
  Z.of_nat (size (Set_contents h s)) <= GoInt.int_max ->
  Set_Size range_keys h s = Z.of_nat (size (Set_contents h s)).
Proof.
  intros Hle. unfold Set_Size.
  rewrite Size_loop_length, range_keys_length
    by (unfold GoInt.in_range, GoInt.int_min, GoInt.int_max; lia).
  apply wrap_id. unfold GoInt.in_range, GoInt.int_min. lia.
Qed.

Lemma all_contained_spec h other keys :
  all_contained h other keys = true <->
  forall key, key ∈ keys -> key ∈ Set_contents h other.
Proof.
  induction keys as [|key rest IH]; simpl.
  - split; [|done]. intros _ key Hk. by apply elem_of_nil in Hk.
  - destruct (Set_Contains h other key) eqn:Hc; simpl.
    + rewrite IH. apply Contains_spec in Hc. split.
      * intros Hr k Hk. apply elem_of_cons in Hk as [->|Hk]; [done|by apply Hr].
      * intros Hr k Hk. apply Hr. by right.
    + split; [done|]. intros Hr.
      assert (Hin : key ∈ Set_contents h other) by (apply Hr; by left).
      apply Contains_spec in Hin. congruence.
Qed.

Lemma append_keys_app elements keys : append_keys elements keys = elements ++ keys.
Proof.
  revert elements. induction keys as [|key rest IH]; intros elements; simpl.
  - by rewrite app_nil_r.
  - rewrite IH. by rewrite <- app_assoc.
Qed.

Lemma Clear_loop_spec (a : nat) h keys :
  (a < length h)%nat ->
  Clear_loop h (Some a) keys =
  <[a := Set_contents h (Some a) ∖ list_to_set keys]> h.
Proof.
  intros Ha. revert h Ha. induction keys as [|key rest IH]; intros h Ha.
  - simpl. rewrite difference_empty_L.
    destruct (h !! a) as [X|] eqn:E; simpl.
    + by rewrite list_insert_id.
    + apply lookup_ge_None in E. lia.
  - cbn [Clear_loop Set_Remove fst]. rewrite IH by (by rewrite length_insert).
    rewrite contents_insert by done. rewrite list_insert_insert_eq.
    by rewrite difference_difference_l_L.
Qed.

Lemma AddAll_spec (a : nat) h values :
  (a < length h)%nat ->
  Set_AddAll h (Some a) values =
  Ret (<[a := list_to_set values ∪ Set_contents h (Some a)]> h, Some a).
Proof.
  intros Ha. revert h Ha. induction values as [|value rest IH]; intros h Ha.
  - simpl. rewrite union_empty_l_L.
    destruct (h !! a) as [X|] eqn:E; simpl.
    + by rewrite list_insert_id.
    + apply lookup_ge_None in E. lia.
  - cbn [Set_AddAll Set_Add]. simpl. rewrite IH by (by rewrite length_insert).
    rewrite contents_insert by done. rewrite list_insert_insert_eq.
    by rewrite (assoc_L (∪)), (comm_L (∪) (list_to_set rest)).
Qed.

Lemma AddAll_in_place h s (values : list T) :
  Set_valid h s -> s <> None \/ values = [] ->
  exists h', Set_AddAll h s values = Ret (h', s) /\ length h' = length h /\
    (forall value, Set_Contains h' s value = true <->
                   value ∈ values \/ Set_Contains h s value = true) /\
    (forall s', s' <> s ->
       forall value, Set_Contains h' s' value = Set_Contains h s' value).
Proof.
  intros Hv Hcase. destruct s as [a|].
  - rewrite AddAll_spec by done. eexists. split_and!; [done|by rewrite length_insert|..].
    + intros value. rewrite !Contains_spec, contents_insert by done.
      by rewrite elem_of_union, elem_of_list_to_set.
    + intros s' Hne. apply Contains_eq. by apply contents_insert_ne.
  - destruct Hcase as [Hs| ->]; [done|]. exists h. split_and!; try done.
    intros value. split; [by right|]. intros [Hin|Hc]; [|done].
    by apply elem_of_nil in Hin.
Qed.

Lemma Clear_in_place h s :
  Set_valid h s ->
  let r := Set_Clear range_keys h s in
  r.2 = s /\ length r.1 = length h /\
  (forall value, Set_Contains r.1 s value = false) /\
  (forall s', s' <> s ->
     forall value, Set_Contains r.1 s' value = Set_Contains h s' value).
Proof.
  intros Hv r. subst r. unfold Set_Clear. cbn [fst snd]. destruct s as [a|].
  - rewrite Clear_loop_spec by done. split_and!; [done|by rewrite length_insert|..].
    + intros value. apply not_true_iff_false. rewrite Contains_spec.
      rewrite contents_insert by done. rewrite elem_of_difference.
      rewrite elem_of_list_to_set, range_keys_elem. tauto.
    + intros s' Hne. apply Contains_eq. by apply contents_insert_ne.
  - assert (Hnil : range_keys (Set_contents h None) = []).
    { apply Permutation_nil_r. rewrite (range_keys_perm _). simpl.
      by rewrite elements_empty. }
    rewrite Hnil. simpl. split_and!; try done.
Qed.

Lemma IsSubset_spec h s other :
  Set_IsSubset range_keys h s other = true <->
  forall value, Set_Contains h s value = true -> Set_Contains h other value = true.
Proof.
  unfold Set_IsSubset. rewrite all_contained_spec. split.
  - intros Hall value Hin. apply Contains_spec, Hall, range_keys_elem.
    by apply Contains_spec.
  - intros Hall key Hin. apply Contains_spec, Hall, Contains_spec.
    by apply range_keys_elem.
Qed.

Lemma Equal_spec h s other :
  Z.of_nat (size (Set_contents h s)) <= GoInt.int_max ->
  Z.of_nat (size (Set_contents h other)) <= GoInt.int_max ->
  Set_Equal range_keys h s other = true <->
  forall value, Set_Contains h s value = Set_Contains h other value.
Proof.
  intros Hs Ho. unfold Set_Equal. rewrite !Size_exact by done.
  fold (Set_IsSubset range_keys h s other). split.
  - case_bool_decide as Hsize; [done|]. intros Hsub.
    assert (Hsub' : Set_contents h s ⊆ Set_contents h other).
    { intros value Hin. apply Contains_spec.
      apply (proj1 (IsSubset_spec h s other) Hsub). by apply Contains_spec. }
    assert (Heq : Set_contents h s = Set_contents h other).
    { apply set_subseteq_size_eq; [done|lia]. }
    intros value. by apply Contains_eq.
  - intros Heq.
    assert (Heq' : Set_contents h s = Set_contents h other).
    { apply set_eq. intros value. rewrite <- !Contains_spec. by rewrite Heq. }
    rewrite bool_decide_eq_false_2 by (rewrite Heq'; tauto).
    apply IsSubset_spec. intros value. by rewrite Heq.
Qed.

Lemma Reduce_loop_perm (f : T -> T -> T) keys keys' :
  (forall a x y, f (f a x) y = f (f a y) x) ->
  keys ≡ₚ keys' ->
  forall result, Reduce_loop f result keys = Reduce_loop f result keys'.
Proof.
  intros Hf Hperm. induction Hperm as [|x l l' _ IH|x y l|l l' l'' _ IH1 _ IH2];
    intros result; simpl.
  - done.
  - apply IH.
  - by rewrite Hf.
  - by rewrite IH1.
Qed.

End SetFacts.

(** X22.  [Add], [AddAll] and [Remove] write to the receiver's own table and
    return the receiver: no set is allocated, every other set reads as
    before, and every holder of the reference sees the change.  After
    [AddAll] the set holds the values given and what it held; [Add] is
    [AddAll] of one value; after [Remove] the set holds what it held but the
    value.  On a nil set [Add] panics, [AddAll] panics at the first value and
    returns nil when there is none, and [Remove] does nothing. *)
Theorem X22_Add_AddAll_Remove_write_in_place {T : Type} `{Countable T}
    (h : list (gset T)) (s : SetRef) (values : list T) (value : T) :
  Set_valid h s ->
  Set_Add h s value = Set_AddAll h s [value] /\
  (s = None -> values <> [] -> Set_AddAll h s values = Fault) /\
  (s <> None \/ values = [] ->
   exists h', Set_AddAll h s values = Ret (h', s) /\ length h' = length h /\
     (forall v, Set_Contains h' s v = true <->
                v ∈ values \/ Set_Contains h s v = true) /\
     (forall s', s' <> s -> forall v, Set_Contains h' s' v = Set_Contains h s' v)) /\
  let r := Set_Remove h s value in
  r.2 = s /\ length r.1 = length h /\
  Set_Contains r.1 s value = false /\
  (forall v, v <> value -> Set_Contains r.1 s v = Set_Contains h s v) /\
  (forall s', s' <> s -> forall v, Set_Contains r.1 s' v = Set_Contains h s' v).
Proof.
  intros Hv. split; [by destruct s|]. split.
  { intros -> Hne. by destruct values. }
  split; [by apply AddAll_in_place|].
  destruct s as [a|]; cbn [Set_Remove fst snd].
  - split_and!; [done|by rewrite length_insert|..].
    + apply not_true_iff_false. rewrite Contains_spec, contents_insert by done.
      rewrite elem_of_difference, elem_of_singleton. tauto.
    + intros v Hne. apply bool_decide_ext. rewrite contents_insert by done.
      rewrite elem_of_difference, elem_of_singleton. tauto.
    + intros s' Hne. apply Contains_eq. by apply contents_insert_ne.
  - by split_and!.
Qed.

Lemma X22_Add_AddAll_Remove_write_in_place_witness :
  exists h', Set_AddAll sample_sets (Some 0%nat) [5; 1] = Ret (h', Some 0%nat) /\
    Set_Contains h' (Some 0%nat) 5 = true /\
    Set_Contains h' (Some 1%nat) 5 = Set_Contains sample_sets (Some 1%nat) 5 /\
    Set_Contains (Set_Remove sample_sets (Some 0%nat) 2).1 (Some 0%nat) 2 = false.
Proof.
  destruct (X22_Add_AddAll_Remove_write_in_place sample_sets (Some 0%nat) [5; 1] 2)
    as (_ & _ & Hok & _ & _ & Hgone & _); [simpl; lia|].
  destruct Hok as (h' & Hrun & _ & Hin & Hframe); [by left|].
  exists h'. split; [exact Hrun|]. split; [|split].
  - apply Hin. left. apply elem_of_cons. by left.
  - by apply Hframe.
  - exact Hgone.
Defined.

(** X23.  [Clear], which deletes while it ranges over the set, leaves the
    set empty whatever the order of iteration.  It empties the receiver's
    own table (every holder of the reference sees the empty set), returns the
    receiver, and every other set reads as before; a nil set is accepted. *)
Theorem X23_Clear_empties_in_place {T : Type} `{Countable T}
    (range_keys : gset T -> list T) (h : list (gset T)) (s : SetRef) :
  (forall X, range_keys X ≡ₚ elements X) ->
  Set_valid h s ->
  let r := Set_Clear range_keys h s in
  r.2 = s /\ length r.1 = length h /\
  (forall value, Set_Contains r.1 s value = false) /\
  (forall s', s' <> s ->
     forall value, Set_Contains r.1 s' value = Set_Contains h s' value).
Proof. intros Hperm Hv. by apply Clear_in_place. Qed.

Lemma X23_Clear_empties_in_place_witness :
  let r := Set_Clear sample_order_rev sample_sets (Some 0%nat) in
  Set_Contains r.1 (Some 0%nat) 1 = false /\
  Set_Contains r.1 (Some 1%nat) 2 = Set_Contains sample_sets (Some 1%nat) 2.
Proof.
  destruct (X23_Clear_empties_in_place sample_order_rev sample_sets (Some 0%nat))
    as (_ & _ & Hempty & Hframe).
  - intros X. unfold sample_order_rev. apply reverse_Permutation.
  - simpl. lia.
  - split; [apply Hempty|by apply Hframe].
Defined.

(** X24.  [Size] is the number of keys, and [Elements] and [ToSlice] return
    the keys once each, in the order of iteration: the slice has no
    duplicate, holds exactly the values the set contains, and its length is
    [Size].  (A map has at most [int_max] keys.) *)
Theorem X24_Size_Elements_ToSlice {T : Type} `{Countable T}
    (range_keys : gset T -> list T) (h : list (gset T)) (s : SetRef) :
  (forall X, range_keys X ≡ₚ elements X) ->
  Z.of_nat (size (Set_contents h s)) <= GoInt.int_max ->
  Set_Size range_keys h s = Z.of_nat (size (Set_contents h s)) /\
  exists l l', Set_Elements range_keys h s = Ret l /\
    Set_ToSlice range_keys h s = Ret l' /\ l' ≡ₚ l /\ NoDup l /\
    (forall value, value ∈ l <-> Set_Contains h s value = true) /\
    Z.of_nat (length l) = Set_Size range_keys h s.
Proof.
  intros Hperm Hle. pose proof (Size_exact range_keys Hperm h s Hle) as Hsize.
  split; [exact Hsize|].
  exists (range_keys (Set_contents h s)), (range_keys (Set_contents h s)).
  unfold Set_Elements, Set_ToSlice. rewrite Hsize.
  rewrite bool_decide_eq_false_2 by lia. rewrite append_keys_app. simpl.
  split_and!; try done.
  - by apply range_keys_NoDup.
  - intros value. rewrite Contains_spec. by apply range_keys_elem.
  - by rewrite range_keys_length.
Qed.

Lemma X24_Size_Elements_ToSlice_witness :
  Set_Size sample_order_rev sample_sets (Some 0%nat) = 2 /\
  exists l, Set_Elements sample_order_rev sample_sets (Some 0%nat) = Ret l /\
    NoDup l /\ Z.of_nat (length l) = 2.
Proof.
  destruct (X24_Size_Elements_ToSlice sample_order_rev sample_sets (Some 0%nat))
    as (Hsize & l & l' & He & _ & _ & Hnd & _ & Hlen).
  - intros X. unfold sample_order_rev. apply reverse_Permutation.
  - by vm_compute.
  - assert (H2 : Z.of_nat (size (Set_contents sample_sets (Some 0%nat))) = 2)
      by (by vm_compute).
    rewrite H2 in Hsize. split; [exact Hsize|]. exists l.
    split; [exact He|]. split; [exact Hnd|]. by rewrite Hlen.
Defined.

(** X25.  [Union], [Intersection] and [Difference] return a set that did not
    exist before, also when both operands are the same set or nil, holding
    the values in either operand, in both, and in the receiver but not in
    the other; the operands and every other set read as before. *)
Theorem X25_Union_Intersection_Difference {T : Type} `{Countable T}
    (range_keys : gset T -> list T) (h : list (gset T)) (s other : SetRef) :
  (forall X, range_keys X ≡ₚ elements X) ->
  Set_valid h s -> Set_valid h other ->
  builds_new h (Set_Union range_keys h s other)
    (fun value => Set_Contains h s value = true \/ Set_Contains h other value = true) /\
  builds_new h (Set_Intersection range_keys h s other)
    (fun value => Set_Contains h s value = true /\ Set_Contains h other value = true) /\
  builds_new h (Set_Difference range_keys h s other)
    (fun value => Set_Contains h s value = true /\ Set_Contains h other value = false).
Proof.
  intros Hperm Hs Ho. split_and!.
  - by apply Union_builds.
  - by apply Intersection_builds.
  - by apply Difference_builds.
Qed.

Lemma X25_Union_Intersection_Difference_witness :
  exists h' u, Set_Union sample_order sample_sets (Some 0%nat) (Some 1%nat) = Ret (h', u) /\
    Set_Contains h' u 3 = true /\ Set_Contains h' (Some 0%nat) 3 = false.
Proof.
  destruct (X25_Union_Intersection_Difference sample_order sample_sets
              (Some 0%nat) (Some 1%nat)) as [(h' & u & Hrun & _ & _ & Hin & Hold) _].
  - done.
  - simpl. lia.
  - simpl. lia.
  - exists h', u. split; [exact Hrun|]. split.
    + apply Hin. right. by vm_compute.
    + rewrite Hold by (simpl; lia). by vm_compute.
Defined.

(** X26.  [Copy], [Filter] and [Map] return a set that did not exist before:
    [Copy] holds the receiver's values, [Filter] those that satisfy the
    predicate, [Map] the images under [f] (fewer than the receiver has when
    [f] sends two keys to one value).  The receiver and every other set read
    as before. *)
Theorem X26_Copy_Filter_Map {T : Type} `{Countable T}
    (range_keys : gset T -> list T) (h : list (gset T)) (s : SetRef)
    (predicate : T -> bool) (f : T -> T) :
  (forall X, range_keys X ≡ₚ elements X) ->
  Set_valid h s ->
  builds_new h (Set_Copy range_keys h s)
    (fun value => Set_Contains h s value = true) /\
  builds_new h (Set_Filter range_keys h s predicate)
    (fun value => Set_Contains h s value = true /\ predicate value = true) /\
  builds_new h (Set_Map range_keys h s f)
    (fun value => exists key, Set_Contains h s key = true /\ f key = value).
Proof.
  intros Hperm Hs. split_and!.
  - rewrite Copy_exact by done. apply builds_new_intro.
    intros value. by rewrite Contains_spec.
  - by apply Filter_builds.
  - by apply Map_builds.
Qed.

Lemma X26_Copy_Filter_Map_witness :
  exists h' u, Set_Map sample_order sample_sets (Some 0%nat) (fun _ => 7) = Ret (h', u) /\
    Set_Contains h' u 7 = true /\ Set_Contains h' u 1 = false.
Proof.
  destruct (X26_Copy_Filter_Map sample_order sample_sets (Some 0%nat)
              (fun _ => true) (fun _ => 7)) as (_ & _ & h' & u & Hrun & _ & _ & Hin & _).
  - done.
  - simpl. lia.
  - exists h', u. split; [exact Hrun|]. split.
    + apply Hin. exists 1. by vm_compute.
    + apply not_true_iff_false. rewrite Hin. by intros (key & _ & Hk).
Defined.

(** X27.  The three searches answer what their names say, whatever the
    order of iteration: [IsSubset] holds iff every value of the receiver is
    in the other set, [IsSuperset] iff every value of the other set is in the
    receiver, [ContainsFunc] iff some value of the set satisfies the
    predicate. *)
Theorem X27_IsSubset_IsSuperset_ContainsFunc {T : Type} `{Countable T}
    (range_keys : gset T -> list T) (h : list (gset T)) (s other : SetRef)
    (predicate : T -> bool) :
  (forall X, range_keys X ≡ₚ elements X) ->
  (Set_IsSubset range_keys h s other = true <->
     forall value, Set_Contains h s value = true -> Set_Contains h other value = true) /\
  (Set_IsSuperset range_keys h s other = true <->
     forall value, Set_Contains h other value = true -> Set_Contains h s value = true) /\
  (Set_ContainsFunc range_keys h s predicate = true <->
     exists value, Set_Contains h s value = true /\ predicate value = true).
Proof.
  intros Hperm. split_and!.
  - by apply IsSubset_spec.
  - by apply (IsSubset_spec range_keys Hperm h other s).
  - unfold Set_ContainsFunc.
    assert (Hloop : forall keys, ContainsFunc_loop predicate keys = true <->
                      exists value, value ∈ keys /\ predicate value = true).
    { induction keys as [|key rest IH]; simpl.
      - split; [done|]. intros (value & Hin & _). by apply elem_of_nil in Hin.
      - destruct (predicate key) eqn:Hp.
        + split; [|done]. intros _. exists key. split; [by left|done].
        + rewrite IH. split.
          * intros (value & Hin & Hv). exists value. split; [by right|done].
          * intros (value & Hin & Hv). apply elem_of_cons in Hin as [->|Hin];
              [congruence|by exists value]. }
    rewrite Hloop. split.
    + intros (value & Hin & Hv). exists value. split; [|done].
      by apply Contains_spec, (range_keys_elem range_keys Hperm).
    + intros (value & Hin & Hv). exists value. split; [|done].
      by apply (range_keys_elem range_keys Hperm), Contains_spec.
Qed.

Lemma X27_IsSubset_IsSuperset_ContainsFunc_witness :
  Set_IsSubset sample_order sample_sets (Some 0%nat) (Some 1%nat) = false /\
  Set_ContainsFunc sample_order sample_sets (Some 1%nat) (fun value => bool_decide (value = 3)) = true.
Proof.
  destruct (X27_IsSubset_IsSuperset_ContainsFunc sample_order sample_sets
              (Some 1%nat) (Some 1%nat) (fun value => bool_decide (value = 3)))
    as (_ & _ & Hc); [done|].
  destruct (X27_IsSubset_IsSuperset_ContainsFunc sample_order sample_sets
              (Some 0%nat) (Some 1%nat) (fun _ => true)) as (Hsub & _); [done|].
  split.
  - apply not_true_iff_false. intros Hyes.
    pose proof (proj1 Hsub Hyes 1 ltac:(by vm_compute)) as Hin. by vm_compute in Hin.
  - apply Hc. exists 3. by vm_compute.
Defined.

(** X28.  [Equal] and [Equals] hold iff the two sets contain the same
    values; the references may differ.  (A map has at most [int_max]
    keys.) *)
Theorem X28_Equal_iff_same_values {T : Type} `{Countable T}
    (range_keys : gset T -> list T) (h : list (gset T)) (s other : SetRef) :
  (forall X, range_keys X ≡ₚ elements X) ->
  Z.of_nat (size (Set_contents h s)) <= GoInt.int_max ->
  Z.of_nat (size (Set_contents h other)) <= GoInt.int_max ->
  (Set_Equal range_keys h s other = true <->
     forall value, Set_Contains h s value = Set_Contains h other value) /\
  (Set_Equals range_keys h s other = true <->
     forall value, Set_Contains h s value = Set_Contains h other value).
Proof.
  intros Hperm Hs Ho. split.
  - by apply Equal_spec.
  - by apply (Equal_spec range_keys Hperm h s other).
Qed.

Lemma X28_Equal_iff_same_values_witness :
  Set_Equal sample_order sample_sets (Some 0%nat) (Some 1%nat) = false.
Proof.
  destruct (X28_Equal_iff_same_values sample_order sample_sets (Some 0%nat) (Some 1%nat))
    as [Heq _]; [done|by vm_compute..|].
  apply not_true_iff_false. intros Hyes.
  pose proof (proj1 Heq Hyes 1) as H1. by vm_compute in H1.
Defined.

(** X29.  A [Copy] is independent of its original: values added to the copy
    do not reach the original, and clearing the original afterwards leaves
    the copy with what the original held and what was added. *)
Theorem X29_Copy_is_independent {T : Type} `{Countable T}
    (range_keys : gset T -> list T) (h : list (gset T)) (s : SetRef) (values : list T) :
  (forall X, range_keys X ≡ₚ elements X) ->
  Set_valid h s ->
  exists h1 c h2,
    Set_Copy range_keys h s = Ret (h1, c) /\ c <> s /\
    Set_AddAll h1 c values = Ret (h2, c) /\
    (forall value, Set_Contains h2 s value = Set_Contains h s value) /\
    let h3 := (Set_Clear range_keys h2 s).1 in
    (forall value, Set_Contains h3 s value = false) /\
    (forall value, Set_Contains h3 c value = true <->
                   value ∈ values \/ Set_Contains h s value = true).
Proof.
  intros Hperm Hs. rewrite Copy_exact by done.
  set (h1 := h ++ [Set_contents h s]). set (c := Some (length h)).
  assert (Hc : Set_valid h1 c).
  { unfold h1, c. simpl. rewrite length_app. simpl. lia. }
  assert (Hne : c <> s) by (symmetry; by apply valid_not_fresh).
  destruct (AddAll_in_place h1 c values Hc) as (h2 & Hadd & Hlen & Hin & Hframe);
    [by left|].
  assert (Hs2 : Set_valid h2 s).
  { destruct s as [a|]; [|done]. simpl in *. rewrite Hlen. unfold h1.
    rewrite length_app. simpl. lia. }
  destruct (Clear_in_place range_keys Hperm h2 s Hs2) as (_ & _ & Hempty & Hkeep).
  exists h1, c, h2. split; [done|]. split; [done|]. split; [done|]. split.
  { intros value. rewrite Hframe by done. unfold h1. by apply Contains_app. }
  intros h3. subst h3. split; [exact Hempty|].
  intros value. rewrite Hkeep by done. rewrite Hin. unfold h1, c.
  rewrite !Contains_spec. simpl. by rewrite lookup_app_r, Nat.sub_diag by lia.
Qed.

Lemma X29_Copy_is_independent_witness :
  exists h1 c h2,
    Set_Copy sample_order sample_sets (Some 0%nat) = Ret (h1, c) /\
    Set_AddAll h1 c [9] = Ret (h2, c) /\
    Set_Contains h2 (Some 0%nat) 9 = false /\
    Set_Contains (Set_Clear sample_order h2 (Some 0%nat)).1 c 1 = true.
Proof.
  destruct (X29_Copy_is_independent sample_order sample_sets (Some 0%nat) [9])
    as (h1 & c & h2 & Hcopy & Hne & Hadd & Hold & _ & Hkept); [done|simpl; lia|].
  exists h1, c, h2. split; [exact Hcopy|]. split; [exact Hadd|]. split.
  - rewrite Hold. by vm_compute.
  - apply Hkept. right. by vm_compute.
Defined.

(** X30.  [Reduce] folds [f] over the keys in the order of iteration, which
    Go does not fix.  When [f] gives the same result for two keys taken in
    either order, the result of [Reduce] is the same for every order of
    iteration. *)
Theorem X30_Reduce_does_not_depend_on_order {T : Type} `{Countable T}
    (range_keys range_keys' : gset T -> list T) (h : list (gset T)) (s : SetRef)
    (f : T -> T -> T) (initial : T) :
  (forall X, range_keys X ≡ₚ elements X) ->
  (forall X, range_keys' X ≡ₚ elements X) ->
  (forall a x y, f (f a x) y = f (f a y) x) ->
  Set_Reduce range_keys h s f initial = Set_Reduce range_keys' h s f initial.
Proof.
  intros Hperm Hperm' Hf. unfold Set_Reduce. apply Reduce_loop_perm; [done|].
  by rewrite Hperm, Hperm'.
Qed.

Lemma X30_Reduce_does_not_depend_on_order_witness :
  Set_Reduce sample_order sample_sets (Some 1%nat) Z.add 10 =
  Set_Reduce sample_order_rev sample_sets (Some 1%nat) Z.add 10.
Proof.
  apply (X30_Reduce_does_not_depend_on_order sample_order sample_order_rev).
  - done.
  - intros X. unfold sample_order_rev. apply reverse_Permutation.
  - intros a x y. lia.
Defined.
